(** * UC BioSci dashboard: a shallow embedding of the analytics core

    The JavaScript sources (the dashboard script, in its two versions) are
    embedded function by function.  Conventions of the embedding:

    - a JavaScript string is a [string]; the embedding is exact on ASCII
      text, the alphabet of the identifiers, country codes, position labels
      and delimiters the analytics layer works on.  On ASCII text
      [normalize("NFKD")] and the removal of combining marks are the
      identity, and the case conversions act on the letters A-Z / a-z;
    - a CSV cell that is absent ([undefined]) is the empty string: every
      read in the modelled functions goes through [x || ''], [String(x||'')]
      or [if (!x)], which do not tell the two apart;
    - a [Map] and a [Set] keep insertion order, which the code observes
      (ties of the home inference, order of the ranking), so they are
      lists with unique keys, see [JsMap];
    - counters are natural numbers. *)

From Stdlib Require Import List String Ascii Bool Arith PeanoNat ZArith Lia.
From Stdlib Require Import Sorted Permutation.
From Stdlib Require Import SpecFloat.
Import ListNotations.
Open Scope string_scope.
Open Scope list_scope.

(* ================================================================== *)
(** * JavaScript string primitives *)
(* ================================================================== *)

Module JsString.

(** White space of [String.prototype.trim] and of the regexp class
  [\s], on ASCII: TAB, LF, VT, FF, CR and SPACE. *)
Definition is_space (c : ascii) : bool :=
  let n := nat_of_ascii c in
  ((9 <=? n) && (n <=? 13) || (n =? 32))%nat.

Definition is_upper (c : ascii) : bool :=
  let n := nat_of_ascii c in ((65 <=? n) && (n <=? 90))%nat.

Definition is_lower (c : ascii) : bool :=
  let n := nat_of_ascii c in ((97 <=? n) && (n <=? 122))%nat.

Definition is_digit (c : ascii) : bool :=
  let n := nat_of_ascii c in ((48 <=? n) && (n <=? 57))%nat.

Definition lower_char (c : ascii) : ascii :=
  if is_upper c then ascii_of_nat (nat_of_ascii c + 32) else c.

Definition upper_char (c : ascii) : ascii :=
  if is_lower c then ascii_of_nat (nat_of_ascii c - 32) else c.

Fixpoint map_chars (f : ascii -> ascii) (s : string) : string :=
  match s with
  | EmptyString => EmptyString
  | String c r => String (f c) (map_chars f r)
  end.

Definition toLowerCase : string -> string := map_chars lower_char.
Definition toUpperCase : string -> string := map_chars upper_char.

Fixpoint trimStart (s : string) : string :=
  match s with
  | EmptyString => EmptyString
  | String c r => if is_space c then trimStart r else s
  end.

Fixpoint trimEnd (s : string) : string :=
  match s with
  | EmptyString => EmptyString
  | String c r =>
    let r' := trimEnd r in
    if is_space c && (r' =? "") then EmptyString else String c r'
  end.

Definition trim (s : string) : string := trimEnd (trimStart s).

(** The pieces of [s] between the characters that satisfy [sep]; never
  empty, the empty string gives one empty piece. *)
Fixpoint split_by (sep : ascii -> bool) (s : string) : list string :=
  match s with
  | EmptyString => [EmptyString]
  | String c r =>
    if sep c then EmptyString :: split_by sep r
    else match split_by sep r with
         | [] => [String c EmptyString]
         | h :: t => String c h :: t
         end
  end.

(** [s.split(sep)] for a one-character separator. *)
Definition split (sep : ascii) (s : string) : list string :=
  split_by (fun c => (c =? sep)%char) s.

(** [s.replace(/[bad]+/g, " ")]: every maximal run of characters that
  satisfy [bad] becomes one space; [in_run] tells that the previous
  character was part of a run. *)
Fixpoint replace_runs (bad : ascii -> bool) (in_run : bool) (s : string) : string :=
  match s with
  | EmptyString => EmptyString
  | String c r =>
    if bad c then
      if in_run then replace_runs bad true r
      else String " " (replace_runs bad true r)
    else String c (replace_runs bad false r)
  end.

(** [s.split(/\s+/)]: the separators are the maximal runs of white
  space. *)
Definition split_ws (s : string) : list string :=
  split " " (replace_runs is_space false s).

(** [s.endsWith(suf)] *)
Definition endsWith (s suf : string) : bool :=
  let n := String.length s in
  let k := String.length suf in
  (k <=? n)%nat && (substring (n - k) k s =? suf).

(** [s.slice(0, -k)] *)
Definition slice_end (s : string) (k : nat) : string :=
  substring 0 (String.length s - k) s.

(** [s[s.length - k]] *)
Definition char_from_end (s : string) (k : nat) : option ascii :=
  get (String.length s - k) s.

(** [join]: [arr.join(sep)]. *)
Definition join (sep : string) (l : list string) : string := concat sep l.

(** Truthiness of a string: non-empty. *)
Definition truthy (s : string) : bool := negb (s =? "").

(** [p] matched at the start of [s] ignoring ASCII case, as a regexp
  [/^p/i] over a literal does; the rest of [s] on success. *)
Fixpoint drop_prefix_ci (p s : string) : option string :=
  match p, s with
  | EmptyString, _ => Some s
  | String _ _, EmptyString => None
  | String a p', String b s' =>
    if (lower_char a =? lower_char b)%char then drop_prefix_ci p' s' else None
  end.

(** [s.replace(/^https?:\/\/HOST/i, '')] for a literal [host] path. *)
Definition strip_url (host : string) (s : string) : string :=
  match drop_prefix_ci ("https://" ++ host) s with
  | Some r => r
  | None =>
    match drop_prefix_ci ("http://" ++ host) s with
    | Some r => r
    | None => s
    end
  end.

End JsString.
Import JsString.

(* ================================================================== *)
(** * Insertion-ordered [Map] and [Set] *)
(* ================================================================== *)

Module JsMap.

Section Map.
Context {V : Type}.

Definition t := list (string * V).

Fixpoint get (m : t) (k : string) : option V :=
  match m with
  | [] => None
  | (k', v) :: r => if k' =? k then Some v else get r k
  end.

Definition has (m : t) (k : string) : bool :=
  match get m k with Some _ => true | None => false end.

(** [m.set(k, v)]: an existing key keeps its place, a new key goes
    last. *)
Fixpoint set (m : t) (k : string) (v : V) : t :=
  match m with
  | [] => [(k, v)]
  | (k', v') :: r => if k' =? k then (k', v) :: r else (k', v') :: set r k v
  end.

Definition keys (m : t) : list string := map fst m.

(** [new Map(pairs)]. *)
Definition of_pairs (l : list (string * V)) : t :=
  fold_left (fun m kv => set m (fst kv) (snd kv)) l [].
End Map.

Arguments t : clear implicits.

(** A [Set] of strings. *)
Definition sset := list string.

Definition shas (s : sset) (x : string) : bool :=
  existsb (fun y => y =? x) s.

Definition sadd (s : sset) (x : string) : sset :=
  if shas s x then s else s ++ [x].

(** [new Set(array)]. *)
Definition of_list (l : list string) : sset := fold_left sadd l [].

End JsMap.

(* ================================================================== *)
(** * Records, country codes and the authorship arrays *)
(* ================================================================== *)

(** A roster row; the fields the analytics core reads. *)
Record RosterRow := {
  OpenAlexID : string;
  Name : string;
  Level : string
}.

(** A publication row, one field per CSV column read by the core.  The
    column [id] is [p_id], the column [work_id] is [p_work_id]. *)
Record Pub := {
  p_id : string;
  p_work_id : string;
  display_name : string;
  authors : string;
  concepts_list : string;
  primary_topic__display_name : string;
  primary_topic__subfield__display_name : string;
  cohort_union_author_ids : string;
  authorships__countries : string;
  authorships__author__id : string;
  authorships__author__display_name : string;
  authorships__raw_author_name : string;
  authorships__is_corresponding : string;
  authorships__author_position : string;
  authorships__institutions__ror : string;
  authorships__institutions__display_name : string;
  authorships__institutions__country_code : string
}.

Definition ISO2_TO_3 : list (string * string) :=
  [ ("US","USA"); ("CA","CAN"); ("GB","GBR"); ("FR","FRA"); ("DE","DEU");
    ("NL","NLD"); ("BE","BEL"); ("AU","AUS"); ("CN","CHN"); ("IN","IND");
    ("BR","BRA"); ("ZA","ZAF"); ("SE","SWE"); ("NO","NOR"); ("DK","DNK");
    ("FI","FIN"); ("IT","ITA"); ("ES","ESP"); ("PT","PRT"); ("CH","CHE");
    ("JP","JPN"); ("KR","KOR"); ("IL","ISR"); ("IE","IRL"); ("NZ","NZL");
    ("MX","MEX"); ("AR","ARG"); ("RU","RUS"); ("TR","TUR"); ("SA","SAU");
    ("AE","ARE"); ("SG","SGP"); ("HK","HKG"); ("AT","AUT"); ("PL","POL");
    ("CZ","CZE"); ("HU","HUN"); ("GR","GRC"); ("RO","ROU"); ("TW","TWN");
    ("TH","THA"); ("MY","MYS"); ("ID","IDN"); ("PK","PAK"); ("BD","BGD");
    ("EG","EGY"); ("NG","NGA"); ("KE","KEN"); ("IR","IRN"); ("CL","CHL");
    ("CO","COL"); ("PE","PER"); ("CU","CUB"); ("KN","KNA"); ("GL","GRL") ].

Definition toISO3 (code : string) : string :=
  if code =? "" then ""
  else
    let c := toUpperCase (trim code) in
    if (String.length c =? 3)%nat then c
    else match JsMap.get ISO2_TO_3 c with
         | Some v => v
         | None => ""
         end.

(** [splitPipe]: a pipe-separated cell as an array of trimmed pieces. *)
Definition splitPipe (v : string) : list string :=
  if v =? "" then [] else map trim (split "|" v).

Definition strip_author_url : string -> string :=
  strip_url "openalex.org/authors/".

Record Authorships := {
  countries : list string;
  ids : list string;
  names : list string;
  isCorresponding : list bool;
  position : list string;
  instRor : list string;
  instName : list string;
  instCountry3 : list string
}.

(** The arrays of [parseAuthorships] before they are aligned. *)
Definition raw_countries (pub : Pub) : list string :=
  map toISO3 (splitPipe (authorships__countries pub)).

Definition raw_ids (pub : Pub) : list string :=
  map strip_author_url (splitPipe (authorships__author__id pub)).

Definition raw_names (pub : Pub) : list string :=
  if (0 <? List.length (splitPipe (authorships__author__display_name pub)))%nat
  then splitPipe (authorships__author__display_name pub)
  else splitPipe (authorships__raw_author_name pub).

Definition corresponding_flag (x : string) : bool :=
  let s := toLowerCase x in
  (s =? "true") || (s =? "1") || (s =? "yes") || (s =? "y").

Definition raw_isCorresponding (pub : Pub) : list bool :=
  map corresponding_flag (splitPipe (authorships__is_corresponding pub)).

Definition raw_position (pub : Pub) : list string :=
  splitPipe (authorships__author_position pub).

Definition firstFromSemicolon (cell : string) : string :=
  if cell =? "" then ""
  else trim (hd "" (split ";" cell)).

Definition raw_instRor (pub : Pub) : list string :=
  map (fun c => strip_url "ror.org/" (firstFromSemicolon c))
      (splitPipe (authorships__institutions__ror pub)).

Definition raw_instName (pub : Pub) : list string :=
  map firstFromSemicolon (splitPipe (authorships__institutions__display_name pub)).

Definition raw_instISO3 (pub : Pub) : list string :=
  map toISO3
      (map (fun c => toUpperCase (firstFromSemicolon c))
           (splitPipe (authorships__institutions__country_code pub))).

(** [pad]: the array itself when it has the reference length [n], else
    [Array.from({length:n}, (_,i) => arr[i] ?? fill)]. *)
Definition pad {A : Type} (n : nat) (arr : list A) (fill : A) : list A :=
  if (List.length arr =? n)%nat then arr
  else map (fun i => nth i arr fill) (seq 0 n).

Definition parseAuthorships (pub : Pub) : Authorships :=
  let n := List.length (raw_countries pub) in
  {| countries := raw_countries pub;
     ids := pad n (raw_ids pub) "";
     names := pad n (raw_names pub) "";
     isCorresponding := pad n (raw_isCorresponding pub) false;
     position := pad n (raw_position pub) "";
     instRor := pad n (raw_instRor pub) "";
     instName := pad n (raw_instName pub) "";
     instCountry3 := pad n (raw_instISO3 pub) "" |}.

(* ================================================================== *)
(** * International collaboration classifier *)
(* ================================================================== *)

(** [new Set(contributingRoster.map(r => String(r.OpenAlexID||'').replace(..)))] *)
Definition cohortIDs (contributingRoster : list RosterRow) : JsMap.sset :=
  JsMap.of_list (map (fun r => strip_author_url (OpenAlexID r)) contributingRoster).

(** [(m.get(k) || 0)] *)
Definition count_of (m : JsMap.t nat) (k : string) : nat :=
  match JsMap.get m k with Some n => n | None => 0 end.

(** [m.set(k, (m.get(k) || 0) + 1)] *)
Definition bump (m : JsMap.t nat) (k : string) : JsMap.t nat :=
  JsMap.set m k (count_of m k + 1).

(** Body of the inner loop of [computeHomeCountry], at index [i]. *)
Definition tally_authorship (cohort : JsMap.sset) (a : Authorships)
    (tallies : JsMap.t nat) (i : nat) : JsMap.t nat :=
  let aid := nth i (ids a) "" in
  let cty := nth i (countries a) "" in
  if negb (truthy aid) || negb (truthy cty) then tallies
  else if JsMap.shas cohort aid then bump tallies cty
  else tallies.

Definition tally_pub (cohort : JsMap.sset) (tallies : JsMap.t nat) (p : Pub)
    : JsMap.t nat :=
  let a := parseAuthorships p in
  fold_left (tally_authorship cohort a) (seq 0 (List.length (ids a))) tallies.

Definition home_tallies (contributingRoster : list RosterRow)
    (selectedPubs : list Pub) : JsMap.t nat :=
  fold_left (tally_pub (cohortIDs contributingRoster)) selectedPubs [].

(** The scan [for (const [k, n] of tallies.entries()) if (n > bestN) ..]
    from a state [(best, bestN)]. *)
Definition best_step (st : option string * Z) (kn : string * nat)
    : option string * Z :=
  let '(best, bestN) := st in
  let '(k, n) := kn in
  if (bestN <? Z.of_nat n)%Z then (Some k, Z.of_nat n) else st.

(** [let best = null, bestN = -1; for (..) ..; best] *)
Definition best_of (tallies : JsMap.t nat) : option string :=
  fst (fold_left best_step tallies (None, (-1)%Z)).

Definition computeHomeCountry (contributingRoster : list RosterRow)
    (selectedPubs : list Pub) : string :=
  let tallies := home_tallies contributingRoster selectedPubs in
  if (List.length tallies =? 0)%nat then "CAN"
  else match best_of tallies with
       | Some k => if truthy k then k else "CAN"
       | None => "CAN"
       end.

Record IdxSets := {
  cohortIdx_FL : list nat;
  cohortIdx_M : list nat;
  intlIdx_any : list nat;
  intlIdx_FL : list nat
}.

Definition isFL (pos : string) : bool := (pos =? "first") || (pos =? "last").

Definition isCohort (cohort : JsMap.sset) (id : string) : bool :=
  truthy id && JsMap.shas cohort id.

Definition isIntl (homeISO3 cty : string) : bool :=
  truthy cty && truthy homeISO3 && negb (cty =? homeISO3).

(** Position of authorship [i] as the classifier reads it. *)
Definition pos_at (a : Authorships) (i : nat) : string :=
  toLowerCase (nth i (position a) "").

(** Body of the classification loop of [computeIntlLinks], at index [i]. *)
Definition classify_authorship (cohort : JsMap.sset) (homeISO3 : string)
    (a : Authorships) (st : IdxSets) (i : nat) : IdxSets :=
  let id := nth i (ids a) "" in
  let pos := pos_at a i in
  let cty := nth i (countries a) "" in
  let st1 :=
    if isCohort cohort id && isFL pos then
      {| cohortIdx_FL := cohortIdx_FL st ++ [i]; cohortIdx_M := cohortIdx_M st;
         intlIdx_any := intlIdx_any st; intlIdx_FL := intlIdx_FL st |}
    else if isCohort cohort id && (pos =? "middle") then
      {| cohortIdx_FL := cohortIdx_FL st; cohortIdx_M := cohortIdx_M st ++ [i];
         intlIdx_any := intlIdx_any st; intlIdx_FL := intlIdx_FL st |}
    else st in
  if isIntl homeISO3 cty then
    {| cohortIdx_FL := cohortIdx_FL st1; cohortIdx_M := cohortIdx_M st1;
       intlIdx_any := intlIdx_any st1 ++ [i];
       intlIdx_FL := if isFL pos then intlIdx_FL st1 ++ [i] else intlIdx_FL st1 |}
  else st1.

Definition classify (cohort : JsMap.sset) (homeISO3 : string) (a : Authorships)
    : IdxSets :=
  fold_left (classify_authorship cohort homeISO3 a) (seq 0 (List.length (ids a)))
    {| cohortIdx_FL := []; cohortIdx_M := []; intlIdx_any := []; intlIdx_FL := [] |}.

(** [for (const j of idx) { const iso = a.countries[j]; if (iso) s.add(iso); }] *)
Definition credit_indices (a : Authorships) (idx : list nat) (s : JsMap.sset)
    : JsMap.sset :=
  fold_left (fun s j =>
               let iso := nth j (countries a) "" in
               if truthy iso then JsMap.sadd s iso else s) idx s.

Definition nonempty {A : Type} (l : list A) : bool :=
  negb (List.length l =? 0)%nat.

(** The set [creditedThisPaper] once both rules have run. *)
Definition creditedThisPaper (cohort : JsMap.sset) (homeISO3 : string)
    (a : Authorships) : JsMap.sset :=
  let st := classify cohort homeISO3 a in
  let rule1 :=
    if nonempty (cohortIdx_FL st) && nonempty (intlIdx_any st)
    then credit_indices a (intlIdx_any st) []
    else [] in
  if nonempty (cohortIdx_M st) && nonempty (intlIdx_FL st)
  then credit_indices a (intlIdx_FL st) rule1
  else rule1.

(** One turn of the loop over the selected publications. *)
Definition intl_pub (cohort : JsMap.sset) (homeISO3 : string)
    (counts : JsMap.t nat) (p : Pub) : JsMap.t nat :=
  let a := parseAuthorships p in
  if (List.length (ids a) =? 0)%nat then counts
  else fold_left bump (creditedThisPaper cohort homeISO3 a) counts.

Definition intl_counts (selectedPubs : list Pub)
    (contributingRoster : list RosterRow) (homeISO3 : string) : JsMap.t nat :=
  fold_left (intl_pub (cohortIDs contributingRoster) homeISO3) selectedPubs [].

(** [Array.prototype.sort()] on strings: ascending by code units. *)
Fixpoint insert_string (x : string) (l : list string) : list string :=
  match l with
  | [] => [x]
  | y :: r => if String.leb x y then x :: l else y :: insert_string x r
  end.

Definition sort_strings (l : list string) : list string :=
  fold_right insert_string [] l.

Record IntlSeries := {
  iso3 : list string;
  values : list nat;
  total : nat
}.

Definition computeIntlLinks (selectedPubs : list Pub)
    (contributingRoster : list RosterRow) (homeISO3 : string) : IntlSeries :=
  let counts := intl_counts selectedPubs contributingRoster homeISO3 in
  let iso3 := sort_strings (JsMap.keys counts) in
  let values := map (count_of counts) iso3 in
  {| iso3 := iso3; values := values; total := fold_left Nat.add values 0 |}.

(** The distinct non-home affiliation countries of a publication, in
    order of first appearance. *)
Definition intl_countries (homeISO3 : string) (a : Authorships) : list string :=
  nodup string_dec (filter (isIntl homeISO3) (countries a)).

(** The affiliation countries tallied by the home inference, in tallying
    order: one entry per authorship with an id of the roster and a country. *)
Definition cohort_countries_of (cohort : JsMap.sset) (a : Authorships)
    : list string :=
  flat_map (fun i =>
              let aid := nth i (ids a) "" in
              let cty := nth i (countries a) "" in
              if truthy aid && truthy cty && JsMap.shas cohort aid then [cty] else [])
           (seq 0 (List.length (ids a))).

Definition cohort_countries (contributingRoster : list RosterRow)
    (selectedPubs : list Pub) : list string :=
  flat_map (fun p => cohort_countries_of (cohortIDs contributingRoster)
                       (parseAuthorships p)) selectedPubs.

(** Index of the first occurrence of [x] in [l] ([length l] if none). *)
Fixpoint first_index (x : string) (l : list string) : nat :=
  match l with
  | [] => 0
  | y :: r => if y =? x then 0 else S (first_index x r)
  end.

Definition mkPub (id cs ais pos : string) : Pub :=
  {| p_id := id; p_work_id := ""; display_name := ""; authors := "";
     concepts_list := ""; primary_topic__display_name := "";
     primary_topic__subfield__display_name := ""; cohort_union_author_ids := "";
     authorships__countries := cs; authorships__author__id := ais;
     authorships__author__display_name := ""; authorships__raw_author_name := "";
     authorships__is_corresponding := ""; authorships__author_position := pos;
     authorships__institutions__ror := "";
     authorships__institutions__display_name := "";
     authorships__institutions__country_code := "" |}.

Definition mkRoster (id name : string) : RosterRow :=
  {| OpenAlexID := id; Name := name; Level := "" |}.

(** The four tests of the classification loop, by authorship index. *)
Definition is_cohort_FL (cohort : JsMap.sset) (a : Authorships) (i : nat) : bool :=
  isCohort cohort (nth i (ids a) "") && isFL (pos_at a i).

Definition is_cohort_M (cohort : JsMap.sset) (a : Authorships) (i : nat) : bool :=
  negb (is_cohort_FL cohort a i)
  && (isCohort cohort (nth i (ids a) "") && (pos_at a i =? "middle")).

Definition is_intl (homeISO3 : string) (a : Authorships) (i : nat) : bool :=
  isIntl homeISO3 (nth i (countries a) "").

Definition is_intl_FL (homeISO3 : string) (a : Authorships) (i : nat) : bool :=
  is_intl homeISO3 a i && isFL (pos_at a i).

(** What "padded on the right, never truncated" asks of an aligned array:
    it starts with the whole raw array. *)
Definition extends {A : Type} (raw out : list A) : Prop :=
  exists ext, out = raw ++ ext.

(** An aligned array: of the reference length [n], the raw array padded
    on the right with [fill] when shorter and cut to its first [n]
    entries when longer. *)
Definition aligned_to {A : Type} (n : nat) (fill : A) (raw out : list A) : Prop :=
  List.length out = n
  /\ out = firstn n (raw ++ repeat fill (n - List.length raw)).

(* ================================================================== *)
(** * Partner-institution aggregator ([drawTopRORPartners]) *)
(* ================================================================== *)

(** [(a.instRor[i] || '').trim()] *)
Definition ror_at (a : Authorships) (i : nat) : string :=
  trim (nth i (instRor a) "").

(** Home institution: the tally of the institution of every cohort
    authorship, then the first entry with the largest count. *)
Definition tally_home_ror (cohort : JsMap.sset) (a : Authorships)
    (tallies : JsMap.t nat) (i : nat) : JsMap.t nat :=
  let id := nth i (ids a) "" in
  let ror := ror_at a i in
  if negb (truthy id) || negb (truthy ror) then tallies
  else if JsMap.shas cohort id then bump tallies ror
  else tallies.

Definition talliesHome (cohort : JsMap.sset) (selectedPubs : list Pub)
    : JsMap.t nat :=
  fold_left (fun t p =>
               let a := parseAuthorships p in
               fold_left (tally_home_ror cohort a) (seq 0 (List.length (ids a))) t)
            selectedPubs [].

(** [let homeROR = '', bestN = 0; for (..) if (n > bestN) ..] *)
Definition homeROR_of (tallies : JsMap.t nat) : string :=
  fst (fold_left (fun (st : string * nat) (kn : string * nat) =>
                    if (snd st <? snd kn)%nat then (fst kn, snd kn) else st)
                 tallies ("", 0)).

(** The inner loop over coauthors [j] of the cohort author at [i]. *)
Definition credit_coauthor (homeROR : string) (a : Authorships) (i : nat)
    (ownRor : string) (s : JsMap.sset) (j : nat) : JsMap.sset :=
  if (j =? i)%nat then s
  else
    let ror := ror_at a j in
    if negb (truthy ror) then s
    else if truthy ownRor && (ror =? ownRor) then s
    else if truthy homeROR && (ror =? homeROR) then s
    else JsMap.sadd s ror.

(** The outer loop over the authorships [i] of a publication. *)
Definition credit_cohort_author (cohort : JsMap.sset) (homeROR : string)
    (a : Authorships) (s : JsMap.sset) (i : nat) : JsMap.sset :=
  if negb (JsMap.shas cohort (nth i (ids a) "")) then s
  else
    fold_left (credit_coauthor homeROR a i (ror_at a i))
              (seq 0 (List.length (ids a))) s.

(** The set [creditedThisCohort] of a publication. *)
Definition creditedThisCohort (cohort : JsMap.sset) (homeROR : string)
    (a : Authorships) : JsMap.sset :=
  fold_left (credit_cohort_author cohort homeROR a)
            (seq 0 (List.length (ids a))) [].

(** A tally entry [{ name, country, n }]. *)
Record PartnerRec := {
  rec_name : string;
  rec_country : string;
  rec_n : nat
}.

(** [arr.findIndex(x => x === v)], [None] for -1. *)
Fixpoint findIndex (arr : list string) (v : string) : option nat :=
  match arr with
  | [] => None
  | x :: r => if x =? v then Some 0
              else match findIndex r v with
                   | Some k => Some (S k)
                   | None => None
                   end
  end.

(** Body of [for (const ror of creditedThisCohort)]. *)
Definition credit_ror (a : Authorships) (tally : JsMap.t PartnerRec)
    (ror : string) : JsMap.t PartnerRec :=
  let idx := findIndex (instRor a) ror in
  let name := match idx with Some k => nth k (instName a) "" | None => "" end in
  let country := match idx with Some k => nth k (instCountry3 a) "" | None => "" end in
  let rec :=
    match JsMap.get tally ror with
    | Some r => r
    | None => {| rec_name := if truthy name then name else ror;
                 rec_country := country; rec_n := 0 |}
    end in
  let name' :=
    if negb (truthy (rec_name rec)) && truthy name then name else rec_name rec in
  let country' :=
    if negb (truthy (rec_country rec)) && truthy country then country
    else rec_country rec in
  JsMap.set tally ror
    {| rec_name := name'; rec_country := country'; rec_n := rec_n rec + 1 |}.

(** One turn of the loop over the selected publications: the tally and
    the counter [paperCredits]. *)
Definition credit_paper (cohort : JsMap.sset) (homeROR : string)
    (st : JsMap.t PartnerRec * nat) (p : Pub) : JsMap.t PartnerRec * nat :=
  let a := parseAuthorships p in
  if (List.length (ids a) =? 0)%nat then st
  else
    let credited := creditedThisCohort cohort homeROR a in
    if nonempty credited
    then (fold_left (credit_ror a) credited (fst st), snd st + 1)
    else st.

Definition partner_tally (cohort : JsMap.sset) (homeROR : string)
    (selectedPubs : list Pub) : JsMap.t PartnerRec * nat :=
  fold_left (credit_paper cohort homeROR) selectedPubs ([], 0).

(** [(m.get(ror) || {n: 0}).n] *)
Definition credits_of (tally : JsMap.t PartnerRec) (ror : string) : nat :=
  match JsMap.get tally ror with Some r => rec_n r | None => 0 end.

Record PartnerRow := {
  row_ror : string;
  row_name : string;
  row_country : string;
  row_n : nat
}.

(** [.sort((a, b) => b.n - a.n)]: stable, descending in [n]. *)
Fixpoint insert_row (x : PartnerRow) (l : list PartnerRow) : list PartnerRow :=
  match l with
  | [] => [x]
  | y :: r => if (row_n y <=? row_n x)%nat then x :: l else y :: insert_row x r
  end.

Definition sort_rows (l : list PartnerRow) : list PartnerRow :=
  fold_right insert_row [] l.

Definition row_of_entry (e : string * PartnerRec) : PartnerRow :=
  {| row_ror := fst e;
     row_name := if truthy (rec_name (snd e)) then rec_name (snd e) else fst e;
     row_country := rec_country (snd e);
     row_n := rec_n (snd e) |}.

(** [([ror]) => !homeROR || ror !== homeROR] *)
Definition not_home (homeROR : string) (e : string * PartnerRec) : bool :=
  negb (truthy homeROR) || negb (fst e =? homeROR).

(** The rows before [.slice(0, 12)]: home institution filtered out,
    mapped, sorted. *)
Definition partner_ranking (homeROR : string) (tally : JsMap.t PartnerRec)
    : list PartnerRow :=
  sort_rows
    (map row_of_entry
         (filter (not_home homeROR) tally)).

Definition partner_rows (homeROR : string) (tally : JsMap.t PartnerRec)
    : list PartnerRow :=
  firstn 12 (partner_ranking homeROR tally).

(** What the panel ends up showing (the container is taken to exist). *)
Inductive RorPanel :=
| NoCohort
| NoPartners
| Bars (rows : list PartnerRow).

Definition drawTopRORPartners (contributingRoster : list RosterRow)
    (selectedPubs : list Pub) : RorPanel :=
  let cohort := cohortIDs contributingRoster in
  if (List.length cohort =? 0)%nat then NoCohort
  else
    let homeROR := homeROR_of (talliesHome cohort selectedPubs) in
    let tally := fst (partner_tally cohort homeROR selectedPubs) in
    let rows := partner_rows homeROR tally in
    if (List.length rows =? 0)%nat then NoPartners else Bars rows.

(** A publication row with authorship countries, ids and institutions. *)
Definition mkPubInst (id cs ais rors inames : string) : Pub :=
  {| p_id := id; p_work_id := ""; display_name := ""; authors := "";
     concepts_list := ""; primary_topic__display_name := "";
     primary_topic__subfield__display_name := ""; cohort_union_author_ids := "";
     authorships__countries := cs; authorships__author__id := ais;
     authorships__author__display_name := ""; authorships__raw_author_name := "";
     authorships__is_corresponding := ""; authorships__author_position := "";
     authorships__institutions__ror := rors;
     authorships__institutions__display_name := inames;
     authorships__institutions__country_code := "" |}.

(** Coauthor [j] carries the partner institution [ror] reached by the
    cohort author at [i]: another authorship, with an institution that is
    neither the cohort author's own nor the home institution. *)
Definition reaches (cohort : JsMap.sset) (homeROR : string) (a : Authorships)
    (i j : nat) (ror : string) : Prop :=
  i < List.length (ids a) /\ j < List.length (ids a)
  /\ JsMap.shas cohort (nth i (ids a) "") = true
  /\ j <> i /\ ror = ror_at a j /\ ror <> ""
  /\ ~ (ror_at a i <> "" /\ ror = ror_at a i)
  /\ ~ (homeROR <> "" /\ ror = homeROR).

(** Descending order of credit counts. *)
Definition credits_ge (x y : PartnerRow) : Prop := row_n y <= row_n x.


(* ================================================================== *)
(** * Topic query ([normalizeText], [stem], [tokenize], [fuzzyQueryMatch]) *)
(* ================================================================== *)

Definition is_alnum (c : ascii) : bool := is_lower c || is_digit c.

Definition not_alnum (c : ascii) : bool := negb (is_alnum c).

(** [normalizeText]: lowercase, [/[^a-z0-9]+/g] to a space, [/\s+/g] to
    a space, trim. The two Unicode steps of the function (NFKD and the
    removal of the combining marks U+0300 to U+036F) are the identity on
    ASCII text; a statement that depends on the characters they rewrite
    is stated on ASCII text ([ascii_text]). *)
Definition normalizeText (t : string) : string :=
  trim (replace_runs is_space false
          (replace_runs not_alnum false (toLowerCase t))).

(** The doubled-consonant repair after a suffix is cut. *)
Definition undouble (s : string) : string :=
  if (3 <? String.length s)%nat
     && match char_from_end s 1, char_from_end s 2 with
        | Some x, Some y => (x =? y)%char
        | _, _ => false
        end
  then slice_end s 1 else s.

Definition stem (w : string) : string :=
  if negb (truthy w) || (String.length w <=? 3)%nat then w
  else
    let s :=
      if endsWith w "sses" then slice_end w 2
      else if endsWith w "ies" && (4 <? String.length w)%nat
           then (slice_end w 3 ++ "y")%string
      else if endsWith w "s" && negb (endsWith w "ss") && (3 <? String.length w)%nat
           then slice_end w 1
      else w in
    if endsWith s "ing" && (5 <? String.length s)%nat then undouble (slice_end s 3)
    else if endsWith s "ed" && (4 <? String.length s)%nat then undouble (slice_end s 2)
    else s.

(** [normalizeText(text).split(/\s+/).filter(Boolean)] *)
Definition text_tokens (text : string) : list string :=
  filter truthy (split_ws (normalizeText text)).

Definition tokenize (text : string) : list string :=
  JsMap.of_list (map stem (text_tokens text)).

Definition strongTokenMatch (qt tt : string) : bool := tt =? qt.

Definition fuzzyQueryMatch (query text : string) : bool :=
  let qTokens := tokenize query in
  if (List.length qTokens =? 0)%nat then true
  else
    let tTokens := tokenize text in
    forallb (fun qt => existsb (fun tt => strongTokenMatch qt tt) tTokens) qTokens.







(** The non-empty pieces of [s] between separators. *)
Definition pieces (sep : ascii -> bool) (s : string) : list string :=
  filter truthy (split_by sep s).

Definition first_piece (sep : ascii -> bool) (s : string) : string :=
  hd "" (split_by sep s).

Definition rest_pieces (sep : ascii -> bool) (s : string) : list string :=
  filter truthy (tl (split_by sep s)).

(** Two strings with the same first piece and the same later words. *)
Definition same_pieces (sep : ascii -> bool) (x y : string) : Prop :=
  first_piece sep x = first_piece sep y /\ rest_pieces sep x = rest_pieces sep y.

Fixpoint string_forall (P : ascii -> bool) (s : string) : bool :=
  match s with
  | EmptyString => true
  | String c r => P c && string_forall P r
  end.

(** The characters [normalizeText] leaves: a-z, 0-9 and the space. *)
Definition alnum_or_space (c : ascii) : bool := is_alnum c || (c =? " ")%char.

(** The words of a text: the maximal runs of letters and digits of the
    lowercased text. *)
Definition words (s : string) : list string :=
  pieces not_alnum (toLowerCase s).


(** Text of code units below 128: the Unicode steps of the script (NFKD,
    the removal of combining marks, the wider white space of [trim] and
    [\s]) do nothing on it. *)
Definition is_ascii (c : ascii) : bool := (nat_of_ascii c <? 128)%nat.

Definition ascii_text (s : string) : bool := string_forall is_ascii s.






(* ================================================================== *)
(** * Co-authorship graph builder ([computeCoauthorGraph]) *)
(* ================================================================== *)

(** A row of the pre-deduplication authorship table: the columns [id],
    [work_id] and [author_openalex_id]. *)
Record AuthorshipRow := {
  a_id : string;
  a_work_id : string;
  author_openalex_id : string
}.

(** [x || y] on strings. *)
Definition or_else (x y : string) : string := if truthy x then x else y.

Definition idNorm (s : string) : string :=
  strip_url "openalex.org/" (strip_url "openalex.org/authors/" (trim s)).

Definition workNorm (s : string) : string :=
  strip_url "openalex.org/" (strip_url "openalex.org/works/" (trim s)).

(** [widOf]: [workNorm(p?.id || p?.work_id || '')], on a row that may be
    [undefined]. *)
Definition widOf (p : option Pub) : string :=
  match p with
  | Some p => workNorm (or_else (p_id p) (p_work_id p))
  | None => workNorm ""
  end.

(** A code that may throw: [None] is the exception. *)
Definition bind {A B : Type} (x : option A) (f : A -> option B) : option B :=
  match x with Some v => f v | None => None end.

Fixpoint foldM {A B : Type} (f : A -> B -> option A) (l : list B) (acc : A)
    : option A :=
  match l with
  | [] => Some acc
  | x :: r => bind (f acc x) (foldM f r)
  end.

(** *** Name canonicalisation of the fallback path *)

Definition is_line_terminator (c : ascii) : bool :=
  (nat_of_ascii c =? 10)%nat || (nat_of_ascii c =? 13)%nat.

(** The text before the first comma and the text after it. *)
Fixpoint cut_at_comma (s : string) : option (string * string) :=
  match s with
  | EmptyString => None
  | String c r =>
      if (c =? ",")%char then Some (EmptyString, r)
      else match cut_at_comma r with
           | Some (pre, rest) => Some (String c pre, rest)
           | None => None
           end
  end.

(** [m = s.match(/^([^,]+),\s*(.+)$/); if (m) s = m[2] + ' ' + m[1]], on a
    trimmed [s]. *)
Definition last_first_swap (s : string) : string :=
  match cut_at_comma s with
  | Some (pre, rest) =>
      let body := trimStart rest in
      if truthy pre && truthy body
         && string_forall (fun c => negb (is_line_terminator c)) body
      then (body ++ " " ++ pre)%string
      else s
  | None => s
  end.

(** [.replace(/[.'’-]/g,' ').replace(/[^a-z\s]/g,' ')] *)
Definition letters_only (s : string) : string :=
  map_chars (fun c => if is_lower c || is_space c then c else " "%char) s.

Definition is_generational (w : string) : bool :=
  existsb (String.eqb w) ["jr"; "sr"; "iii"; "ii"].

Definition is_particle (w : string) : bool :=
  existsb (String.eqb w)
    ["de"; "del"; "della"; "der"; "den"; "van"; "von"; "da"; "di"; "dos"; "la";
     "le"; "mac"; "mc"; "bin"; "al"; "ibn"; "st"; "st."].

(** [while (parts.length>1 && suff.has(parts.at(-1))) parts.pop()], on the
    reversed array. *)
Fixpoint pop_generational (rev_parts : list string) : list string :=
  match rev_parts with
  | x :: ((_ :: _) as r) => if is_generational x then pop_generational r else rev_parts
  | _ => rev_parts
  end.

(** [canonName]; reading [first[0]] of an empty array of parts throws.
    [stripDiacritics], its first step, is the identity on ASCII text; a
    statement that depends on the characters it rewrites is stated on
    ASCII text ([ascii_text]). *)
Definition canonName (raw : string) : option string :=
  let s := last_first_swap (trim (toLowerCase raw)) in
  let s := trim (replace_runs is_space false (letters_only s)) in
  let parts := filter truthy (split " " s) in
  if (List.length parts =? 1)%nat then Some (hd "" parts)
  else
    let parts := rev (pop_generational (rev parts)) in
    match parts with
    | [] => None
    | first :: _ =>
        let last := List.last parts "" in
        let pen := nth (List.length parts - 2) parts "" in
        let last := if (3 <=? List.length parts)%nat && is_particle pen
                    then (pen ++ " " ++ last)%string else last in
        Some (substring 0 1 first ++ " " ++ last)%string
    end.

(** [splitAuthorsList]: splitting at [/\s*;\s*/] and trimming is splitting
    at the semicolons and trimming. *)
Definition splitAuthorsList (s : string) : list string :=
  if truthy s then filter truthy (map trim (split ";" s)) else [].

(** *** The graph *)

Record Node := {
  node_id : string;
  node_name : option string;
  node_level : string;
  node_deg : nat
}.

Record Edge := {
  e_a : string;
  e_b : string;
  e_ai : option nat;
  e_bi : option nat;
  e_count : nat;
  e_pubs : list Pub
}.

Record Graph := {
  nodes : list Node;
  edges : list Edge
}.

(** [[a, b] = key.split('|')] *)
Definition key_ends (key : string) : string * string :=
  let parts := split "|" key in (nth 0 parts "", nth 1 parts "").

(** The pairs [(ids[i], ids[j])], [i < j], in loop order. *)
Fixpoint pairs_of (ids : list string) : list (string * string) :=
  match ids with
  | [] => []
  | a :: r => map (fun b => (a, b)) r ++ pairs_of r
  end.

Definition pair_key (ab : string * string) : string :=
  (fst ab ++ "|" ++ snd ab)%string.

(** The state of the pair loop: [pairCounts] and [pairPubs]. *)
Definition add_pair (pub : option Pub)
    (st : JsMap.t nat * JsMap.t (list (option Pub))) (ab : string * string)
    : JsMap.t nat * JsMap.t (list (option Pub)) :=
  let key := pair_key ab in
  let pubs := match JsMap.get (snd st) key with Some l => l | None => [] end in
  (bump (fst st) key, JsMap.set (snd st) key (pubs ++ [pub])).

Definition add_work (widToPub : JsMap.t Pub)
    (st : JsMap.t nat * JsMap.t (list (option Pub))) (w : string * JsMap.sset)
    : JsMap.t nat * JsMap.t (list (option Pub)) :=
  fold_left (add_pair (JsMap.get widToPub (fst w)))
            (pairs_of (sort_strings (snd w))) st.

(** The drill-down list of an edge, one row per work id. *)
Definition uniq_pubs (l : list (option Pub)) : list Pub :=
  snd (fold_left
         (fun (st : JsMap.sset * list Pub) (p : option Pub) =>
            let wid := widOf p in
            match p with
            | Some row =>
                if truthy wid && negb (JsMap.shas (fst st) wid)
                then (JsMap.sadd (fst st) wid, snd st ++ [row])
                else st
            | None => st
            end) l ([], [])).

Definition index_of (l : list string) (x : string) : option nat := findIndex l x.

(** The representative row of each work: the first row with its id. *)
Definition widToPub_of (selectedPubs : list Pub) : JsMap.t Pub :=
  fold_left (fun m p =>
               let w := widOf (Some p) in
               if truthy w && negb (JsMap.has m w) then JsMap.set m w p else m)
            selectedPubs [].

Definition buildGraphFromPairs (levelOf : JsMap.t string)
    (byWork : JsMap.t JsMap.sset) (nameOf : JsMap.t string)
    (selectedPubs : list Pub) : Graph :=
  let widToPub := widToPub_of selectedPubs in
  let '(pairCounts, pairPubs) := fold_left (add_work widToPub) byWork ([], []) in
  let nodeIDs :=
    fold_left (fun s key => JsMap.sadd (JsMap.sadd s (fst (key_ends key)))
                                       (snd (key_ends key)))
              (JsMap.keys pairCounts) [] in
  let edges :=
    flat_map (fun kc : string * nat =>
                let '(a, b) := key_ends (fst kc) in
                if negb (JsMap.shas nodeIDs a) || negb (JsMap.shas nodeIDs b) then []
                else [ {| e_a := a; e_b := b;
                          e_ai := index_of nodeIDs a; e_bi := index_of nodeIDs b;
                          e_count := snd kc;
                          e_pubs := uniq_pubs
                                      (match JsMap.get pairPubs (fst kc) with
                                       | Some l => l
                                       | None => []
                                       end) |} ])
             pairCounts in
  let degree :=
    fold_left (fun d e =>
                 let d := JsMap.set d (e_a e) (count_of d (e_a e) + e_count e) in
                 JsMap.set d (e_b e) (count_of d (e_b e) + e_count e))
              edges (JsMap.of_pairs (map (fun id => (id, 0)) nodeIDs)) in
  {| nodes := map (fun id =>
                     {| node_id := id;
                        node_name := JsMap.get nameOf id;
                        node_level := match JsMap.get levelOf id with
                                      | Some l => or_else l id
                                      | None => id
                                      end;
                        node_deg := count_of degree id |}) nodeIDs;
     edges := edges |}.

(** The preferred path: one turn of the loop over the authorship rows. *)
Definition add_authorship (selectedWorkIDs : JsMap.sset) (nameOf : JsMap.t string)
    (byWork : JsMap.t JsMap.sset) (row : AuthorshipRow) : JsMap.t JsMap.sset :=
  let wid := workNorm (or_else (a_id row) (a_work_id row)) in
  if negb (JsMap.shas selectedWorkIDs wid) then byWork
  else
    let aid := idNorm (author_openalex_id row) in
    if negb (JsMap.has nameOf aid) then byWork
    else
      let s := match JsMap.get byWork wid with Some s => s | None => [] end in
      JsMap.set byWork wid (JsMap.sadd s aid).

(** The fallback path: the roster by canonical name. *)
Definition add_canon (m : JsMap.t (list string)) (r : RosterRow)
    : option (JsMap.t (list string)) :=
  bind (canonName (Name r))
       (fun cname =>
          let l := match JsMap.get m cname with Some l => l | None => [] end in
          Some (JsMap.set m cname (l ++ [idNorm (OpenAlexID r)]))).

Definition ids_on_work (rosterByCanon : JsMap.t (list string)) (names : list string)
    : option JsMap.sset :=
  foldM (fun s n =>
           bind (canonName n)
                (fun cn => match JsMap.get rosterByCanon cn with
                           | Some hits => Some (fold_left JsMap.sadd hits s)
                           | None => Some s
                           end)) names [].

Definition add_pub_by_names (rosterByCanon : JsMap.t (list string))
    (byWork : JsMap.t JsMap.sset) (p : Pub) : option (JsMap.t JsMap.sset) :=
  let wid := workNorm (or_else (p_id p) (p_work_id p)) in
  if negb (truthy wid) then Some byWork
  else
    bind (ids_on_work rosterByCanon (splitAuthorsList (authors p)))
         (fun idsOnWork =>
            if (2 <=? List.length idsOnWork)%nat
            then Some (JsMap.set byWork wid idsOnWork)
            else Some byWork).

Definition computeCoauthorGraph (authorshipData : list AuthorshipRow)
    (contributingRoster : list RosterRow) (selectedPubs : list Pub)
    : option Graph :=
  let nameOf :=
    JsMap.of_pairs (map (fun r => (idNorm (OpenAlexID r),
                                   or_else (Name r) (OpenAlexID r)))
                        contributingRoster) in
  let levelOf :=
    JsMap.of_pairs (map (fun r => (idNorm (OpenAlexID r), trim (Level r)))
                        contributingRoster) in
  let selectedWorkIDs :=
    JsMap.of_list
      (filter truthy
              (map (fun p => workNorm (or_else (p_id p) (p_work_id p))) selectedPubs)) in
  if nonempty authorshipData then
    let byWork := fold_left (add_authorship selectedWorkIDs nameOf) authorshipData [] in
    Some (buildGraphFromPairs levelOf byWork nameOf selectedPubs)
  else
    bind (foldM add_canon contributingRoster [])
         (fun rosterByCanon =>
            bind (foldM (add_pub_by_names rosterByCanon) selectedPubs [])
                 (fun byWork =>
                    Some (buildGraphFromPairs levelOf byWork nameOf selectedPubs))).

(** The ids of the contributing roster, as the builder keys them. *)
Definition roster_ids (contributingRoster : list RosterRow) : list string :=
  map (fun r => idNorm (OpenAlexID r)) contributingRoster.

(** No pipe, the separator of the pair keys, in the string. *)
Definition pipe_free (s : string) : bool :=
  string_forall (fun c => negb (c =? "|")%char) s.

Definition mkPubAuthors (id auths : string) : Pub :=
  {| p_id := id; p_work_id := ""; display_name := ""; authors := auths;
     concepts_list := ""; primary_topic__display_name := "";
     primary_topic__subfield__display_name := ""; cohort_union_author_ids := "";
     authorships__countries := ""; authorships__author__id := "";
     authorships__author__display_name := ""; authorships__raw_author_name := "";
     authorships__is_corresponding := ""; authorships__author_position := "";
     authorships__institutions__ror := "";
     authorships__institutions__display_name := "";
     authorships__institutions__country_code := "" |}.

Definition mkAuthorship (wid aid : string) : AuthorshipRow :=
  {| a_id := wid; a_work_id := ""; author_openalex_id := aid |}.

(** Every author set of [byWork] is made of ids of [ids]. *)
Definition sets_within (ids : list string) (byWork : JsMap.t JsMap.sset) : Prop :=
  forall wid s, In (wid, s) byWork -> forall x, In x s -> In x ids.

(** Every key of [pairCounts] joins two ids of [ids]. *)
Definition keys_within (ids : list string) (pairCounts : JsMap.t nat) : Prop :=
  forall key, In key (JsMap.keys pairCounts) ->
              exists a b, key = pair_key (a, b) /\ In a ids /\ In b ids.

(* ================================================================== *)
(** * Numbers: IEEE 754 binary64 *)
(* ================================================================== *)

(** A JavaScript number is a binary64 float; its operations are those of
    the specification of floating-point arithmetic of the library
    ([SpecFloat]), at precision 53 and maximal exponent 1024, rounding to
    nearest, ties to even. *)
Module Num.

Definition num := spec_float.

Definition prec : Z := 53.
Definition emax : Z := 1024.

Definition add : num -> num -> num := SFadd prec emax.
Definition sub : num -> num -> num := SFsub prec emax.
Definition mul : num -> num -> num := SFmul prec emax.
Definition div : num -> num -> num := SFdiv prec emax.
Definition sqrt : num -> num := SFsqrt prec emax.

Definition zero : num := S754_zero false.
Definition one : num := S754_finite false 4503599627370496 (-52).
Definition neg_one : num := S754_finite true 4503599627370496 (-52).
Definition neg_half : num := S754_finite true 4503599627370496 (-53).
Definition nan : num := S754_nan.

(** The number of an array length or of a counter. *)
Definition of_nat (n : nat) : num := binary_normalize prec emax (Z.of_nat n) 0 false.

(** Truthiness: every number but [0], [-0] and [NaN]. *)
Definition truthy (x : num) : bool :=
  match x with
  | S754_zero _ | S754_nan => false
  | _ => true
  end.

(** [x || y] *)
Definition or_else (x y : num) : num := if truthy x then x else y.

(** [Math.max(a, b)] *)
Definition max (a b : num) : num :=
  match SFcompare a b with
  | None => nan
  | Some Lt => b
  | Some Gt => a
  | Some Eq =>
      match a, b with
      | S754_zero true, S754_zero false => b
      | _, _ => a
      end
  end.

(** Neither [NaN] nor an infinity. *)
Definition is_finite (x : num) : bool :=
  match x with
  | S754_zero _ | S754_finite _ _ _ => true
  | _ => false
  end.

Definition is_zero (x : num) : bool :=
  match x with
  | S754_zero _ => true
  | _ => false
  end.

(** A value that [Math.random()] can return: a binary64 float [r] with
    [0 <= r < 1]. *)
Definition unit_draw (r : num) : bool :=
  valid_binary prec emax r && SFleb zero r && SFltb r one.

End Num.

(* ================================================================== *)
(** * Topic-similarity embedder: classical MDS *)
(* ================================================================== *)

Record PowerResult := {
  value : Num.num;
  vector : list Num.num
}.

Record MDSResult := {
  mds_x : list Num.num;
  mds_y : list Num.num;
  eigenvalues : list Num.num
}.

(** [A[i][j]]; a read out of range is [undefined], [NaN] in arithmetic. *)
Definition at2 (A : list (list Num.num)) (i j : nat) : Num.num :=
  nth j (nth i A []) Num.nan.

Definition at1 (v : list Num.num) (i : nat) : Num.num := nth i v Num.nan.

(** [Array.from({length: n}, (_, i) => Array.from({length: n}, (_, j) => f i j))],
    also the result of filling an [n] by [n] array entry by entry. *)
Definition build (n : nat) (f : nat -> nat -> Num.num) : list (list Num.num) :=
  map (fun i => map (fun j => f i j) (seq 0 n)) (seq 0 n).

(** [let s = 0; for (let k = 0; k < n; k++) s += f(k); s] *)
Definition sum_loop (n : nat) (f : nat -> Num.num) : Num.num :=
  fold_left (fun s k => Num.add s (f k)) (seq 0 n) Num.zero.

(** [J(i, j)] for the length [N] as a number. *)
Definition centering (N : Num.num) (i j : nat) : Num.num :=
  if (i =? j)%nat then Num.sub Num.one (Num.div Num.one N)
  else Num.div Num.neg_one N.

(** [norm]: [Math.sqrt(x.reduce((a,b) => a + b*b, 0)) || 1] *)
Definition norm (x : list Num.num) : Num.num :=
  Num.or_else
    (Num.sqrt (fold_left (fun a b => Num.add a (Num.mul b b)) x Num.zero))
    Num.one.

(** One turn of the loop of [powerIter] on the state [(v, lambda)]. *)
Definition power_step (A : list (list Num.num)) (st : list Num.num * Num.num)
    : list Num.num * Num.num :=
  let v := fst st in
  let n := List.length A in
  let Av := map (fun i => sum_loop n (fun j => Num.mul (at2 A i j) (at1 v j)))
                (seq 0 n) in
  let lambda :=
    fold_left (fun s i => Num.add s (Num.mul (at1 v i) (at1 Av i)))
              (seq 0 (List.length v)) Num.zero in
  let nv := norm Av in
  (map (fun x => Num.div x (Num.or_else nv Num.one)) Av, lambda).

(** [powerIter(A)], 150 iterations; [rand k] is the [k]-th value returned
    by [Math.random()] and [off] the number of values drawn before. *)
Definition powerIter (rand : nat -> Num.num) (off : nat) (A : list (list Num.num))
    : PowerResult :=
  let n := List.length A in
  let v := map (fun i => rand (off + i)) (seq 0 n) in
  let nv := norm v in
  let v := map (fun x => Num.div x nv) v in
  let st := Nat.iter 150 (power_step A) (v, Num.zero) in
  {| value := snd st; vector := fst st |}.

Definition classicalMDS2D (rand : nat -> Num.num) (D : list (list Num.num))
    : MDSResult :=
  let n := List.length D in
  if (n <? 2)%nat then {| mds_x := []; mds_y := []; eigenvalues := [] |}
  else
    let N := Num.of_nat n in
    let DSq := build n (fun i j => Num.mul (at2 D i j) (at2 D i j)) in
    let M := build n (fun i j =>
                        sum_loop n (fun k => Num.mul (at2 DSq i k) (centering N k j))) in
    let B := build n (fun i j =>
                        Num.mul Num.neg_half
                          (sum_loop n (fun k => Num.mul (centering N i k) (at2 M k j)))) in
    let e1 := powerIter rand 0 B in
    let B2 := build n (fun i j =>
                         Num.sub (at2 B i j)
                           (Num.mul (Num.mul (value e1) (at1 (vector e1) i))
                                    (at1 (vector e1) j))) in
    let e2 := powerIter rand n B2 in
    let lam1 := Num.max (value e1) Num.zero in
    let lam2 := Num.max (value e2) Num.zero in
    {| mds_x := map (fun v => Num.mul (Num.sqrt lam1) v) (vector e1);
       mds_y := map (fun v => Num.mul (Num.sqrt lam2) v) (vector e2);
       eigenvalues := [lam1; lam2] |}.

(** The [n] by [n] matrix of zeros. *)
Definition zero_matrix (n : nat) : list (list Num.num) :=
  repeat (repeat Num.zero n) n.

(** Rounding as it acts on a mantissa: [n] low bits shifted out when
    [0 < n]. *)
Definition shift_right (m e n : Z) : Z * Z :=
  if (0 <? n)%Z then ((m / 2 ^ n)%Z, (e + n)%Z) else (m, e).

(** The exponent that the format gives to a number of magnitude [x]. *)
Definition fexp64 (x : Z) : Z := Z.max (x - 53) (-1074).

(** The outcome of rounding a mantissa [m2] at exponent [e2] with sign
    [s]. *)
Definition round_result (s : bool) (m2 e2 : Z) : Num.num :=
  match m2 with
  | Z0 => S754_zero s
  | Zpos p => if (e2 <=? 971)%Z then S754_finite s p e2 else S754_infinity s
  | Zneg _ => S754_nan
  end.

(** The exponent of a finite number is at least [lo]. *)
Definition expo_ge (lo : Z) (x : Num.num) : Prop :=
  match x with
  | S754_finite _ _ e => (lo <= e)%Z
  | _ => True
  end.

(** The sign of a number that has one. *)
Definition has_sign (s : bool) (x : Num.num) : Prop :=
  match x with
  | S754_zero s' | S754_infinity s' | S754_finite s' _ _ => s' = s
  | S754_nan => False
  end.

(** The magnitude of a finite number is at most [hi]: it is below
    [2^hi] in absolute value. *)
Definition mag_le (hi : Z) (x : Num.num) : Prop :=
  match x with
  | S754_finite _ m e => (Zdigits2 (Zpos m) + e <= hi)%Z
  | _ => True
  end.

(** An [n] by [n] matrix whose entries are all [0] or [-0]. *)
Definition zero_entries (n : nat) (A : list (list Num.num)) : Prop :=
  List.length A = n
  /\ forall i j, (i < n)%nat -> (j < n)%nat -> Num.is_zero (at2 A i j) = true.

(** A vector of [n] numbers, none of them [NaN] or infinite. *)
Definition finite_vector (n : nat) (v : list Num.num) : Prop :=
  List.length v = n /\ forall i, (i < n)%nat -> Num.is_finite (at1 v i) = true.

(* ================================================================== *)
(** * Topic-similarity embedder: Jaccard distance *)
(* ================================================================== *)

(** [let inter = 0; for (const x of A) if (B.has(x)) inter++;] *)
Definition intersection_count (A B : JsMap.sset) : nat :=
  fold_left (fun inter x => if JsMap.shas B x then inter + 1 else inter) A 0.

(** [jaccardDistance]; sizes and counters are natural numbers, the
    quotient and the difference are binary64 operations. *)
Definition jaccardDistance (A B : JsMap.sset) : Num.num :=
  if (List.length A =? 0)%nat && (List.length B =? 0)%nat then Num.zero
  else
    let inter := intersection_count A B in
    let union := List.length A + List.length B - inter in
    if (union =? 0)%nat then Num.one
    else Num.sub Num.one (Num.div (Num.of_nat inter) (Num.of_nat union)).

(** [x <= y] on numbers. *)
Definition num_le (x y : Num.num) : bool := SFleb x y.

(** Two sets with the same members. *)
Definition same_members (A B : JsMap.sset) : Prop := forall x, In x A <-> In x B.

(** The largest size below which every counter is an exact number. *)
Definition exact_counter (n : nat) : Prop := (Z.of_nat n < 2 ^ 53)%Z.

(** A number of [0, 1]: zero, or positive with [m * 2^e <= 1]. *)
Definition in_unit_interval (x : Num.num) : Prop :=
  x = S754_zero false
  \/ exists m e, x = S754_finite false m e /\ (e <= -52)%Z /\ (Zpos m <= 2 ^ (- e))%Z.

(* ================================================================== *)
(** * CSV lines: reading ([splitCSVLine]) and writing ([csvEscape]) *)
(* ================================================================== *)

(** The double quote, the line feed and the carriage return. *)
Definition dquote : ascii := "034"%char.
Definition char_LF : ascii := "010"%char.
Definition char_CR : ascii := "013"%char.

(** The loop of [splitCSVLine] from a position of the line, on the state
    [(out, cur, inQuotes)]: a quote followed by a quote inside quotes is
    one quote character and moves two characters ahead, another quote
    flips [inQuotes], a comma outside quotes ends the cell. *)
Fixpoint splitCSV_from (line : string) (out : list string) (cur : string)
    (inQuotes : bool) {struct line} : list string :=
  match line with
  | EmptyString => out ++ [cur]
  | String ch rest =>
      if (ch =? dquote)%char then
        match rest with
        | String ch2 rest2 =>
            if inQuotes && (ch2 =? dquote)%char
            then splitCSV_from rest2 out (cur ++ String dquote EmptyString)%string inQuotes
            else splitCSV_from rest out cur (negb inQuotes)
        | EmptyString => splitCSV_from rest out cur (negb inQuotes)
        end
      else if (ch =? ",")%char && negb inQuotes
      then splitCSV_from rest (out ++ [cur]) EmptyString inQuotes
      else splitCSV_from rest out (cur ++ String ch EmptyString)%string inQuotes
  end.

Definition splitCSVLine (line : string) : list string :=
  splitCSV_from line [] EmptyString false.

(** [s.replace(/\r\n/g, ' ')] *)
Fixpoint replace_crlf (s : string) : string :=
  match s with
  | EmptyString => EmptyString
  | String c r =>
      match r with
      | String c2 r2 =>
          if (c =? char_CR)%char && (c2 =? char_LF)%char
          then String " " (replace_crlf r2)
          else String c (replace_crlf r)
      | EmptyString => String c (replace_crlf r)
      end
  end.

(** [s.replace(/x/g, y)] for single characters. *)
Definition replace_char (x y : ascii) : string -> string :=
  map_chars (fun c => if (c =? x)%char then y else c).

(** The three replacements that keep a cell on one line. *)
Definition clean_breaks (s : string) : string :=
  replace_char char_CR " " (replace_char char_LF " " (replace_crlf s)).

(** The class of the edge test of [csvEscape]: quote, comma or white
    space. *)
Definition quote_comma_space (c : ascii) : bool :=
  (c =? dquote)%char || (c =? ",")%char || is_space c.

(** The class of the inner test of [csvEscape]: quote, comma or line
    feed. *)
Definition quote_comma_break (c : ascii) : bool :=
  (c =? dquote)%char || (c =? ",")%char || (c =? char_LF)%char.

(** [s[0] || ''] and [s.slice(-1)], as the character if there is one. *)
Definition first_char (s : string) : option ascii :=
  match s with
  | EmptyString => None
  | String c _ => Some c
  end.

Fixpoint last_char (s : string) : option ascii :=
  match s with
  | EmptyString => None
  | String c EmptyString => Some c
  | String _ r => last_char r
  end.

Definition test_char (P : ascii -> bool) (c : option ascii) : bool :=
  match c with
  | Some c => P c
  | None => false
  end.

(** [re.test(s)] for a class of characters: some character is in it. *)
Definition string_exists (P : ascii -> bool) (s : string) : bool :=
  negb (string_forall (fun c => negb (P c)) s).

(** Every quote of [s] written twice. *)
Fixpoint double_quotes (s : string) : string :=
  match s with
  | EmptyString => EmptyString
  | String c r =>
      if (c =? dquote)%char then String dquote (String dquote (double_quotes r))
      else String c (double_quotes r)
  end.

(** [csvEscape] on the text of the value. *)
Definition csvEscape (v : string) : string :=
  let cleaned := clean_breaks v in
  if test_char quote_comma_space (first_char cleaned)
     || test_char quote_comma_space (last_char cleaned)
     || string_exists quote_comma_break cleaned
  then String dquote (double_quotes cleaned ++ String dquote EmptyString)%string
  else cleaned.

(** One line of the exported file: [r.map(csvEscape).join(',')]. *)
Definition csv_line (row : list string) : string := join "," (map csvEscape row).

(** No character of the string is a double quote. *)
Definition quote_free (s : string) : bool :=
  string_forall (fun c => negb (c =? dquote)%char) s.

(* ================================================================== *)
(** * Home institution ([computeHomeROR]) *)
(* ================================================================== *)

(** [computeHomeROR]: the tally of the first institution of every cohort
    authorship, then the first entry with the largest count; the empty
    string when nothing was tallied. *)
Definition computeHomeROR (contributingRoster : list RosterRow)
    (selectedPubs : list Pub) : string :=
  homeROR_of (talliesHome (cohortIDs contributingRoster) selectedPubs).

(** The institutions tallied by the home inference, in tallying order:
    one entry per authorship with an id of the roster and an
    institution. *)
Definition cohort_rors_of (cohort : JsMap.sset) (a : Authorships) : list string :=
  flat_map (fun i =>
              let id := nth i (ids a) "" in
              let ror := ror_at a i in
              if truthy id && truthy ror && JsMap.shas cohort id then [ror] else [])
           (seq 0 (List.length (ids a))).

Definition cohort_rors (contributingRoster : list RosterRow)
    (selectedPubs : list Pub) : list string :=
  flat_map (fun p => cohort_rors_of (cohortIDs contributingRoster)
                       (parseAuthorships p)) selectedPubs.

(** No lowercase letter in the string. *)
Definition no_lower (s : string) : bool := string_forall (fun c => negb (is_lower c)) s.

(* ================================================================== *)
(** * Text helpers: normal texts, HTML escaping, option lists *)
(* ================================================================== *)

(** No two spaces side by side. *)
Fixpoint single_spaced (s : string) : bool :=
  match s with
  | EmptyString => true
  | String c r =>
      negb ((c =? " ")%char && test_char (fun d => (d =? " ")%char) (first_char r))
      && single_spaced r
  end.

(** The replacement of [escapeHTML] for one character. *)
Definition escape_char (c : ascii) : string :=
  if (c =? "&")%char then "&amp;"
  else if (c =? "<")%char then "&lt;"
  else if (c =? ">")%char then "&gt;"
  else if (c =? dquote)%char then "&quot;"
  else if (c =? "'")%char then "&#39;"
  else String c EmptyString.

(** [escapeHTML]: every ampersand, angle bracket, quote and apostrophe
    replaced by its entity. *)
Fixpoint escapeHTML (s : string) : string :=
  match s with
  | EmptyString => EmptyString
  | String c r => (escape_char c ++ escapeHTML r)%string
  end.

(** The characters that open or close a tag or an attribute value. *)
Definition html_active (c : ascii) : bool :=
  (c =? "<")%char || (c =? ">")%char || (c =? dquote)%char || (c =? "'")%char.

(** [uniqueNonEmpty]: the values that are not blank, once each, sorted. *)
Definition uniqueNonEmpty (arr : list string) : list string :=
  sort_strings
    (JsMap.of_list (filter (fun v => truthy v && negb (trim v =? "")) arr)).

(** A letter of the ASCII alphabet. *)
Definition is_letter (c : ascii) : bool := is_upper c || is_lower c.

(** Some letter in the name. *)
Definition has_letter (s : string) : bool := string_exists is_letter s.

(* ================================================================== *)
(** * Topic sets of the authors ([buildAuthorTopicSets]) *)
(* ================================================================== *)

(** The separators of a list of concepts: pipe, semicolon, comma. *)
Definition term_separator (c : ascii) : bool :=
  (c =? "|")%char || (c =? ";")%char || (c =? ",")%char.

(** [getTerms]: the primary topic and its subfield, else the concepts;
    lowercased, white space collapsed, once each, one-character
    fragments dropped. *)
Definition getTerms (p : Pub) : list string :=
  let t1 := toLowerCase (trim (primary_topic__display_name p)) in
  let t2 := toLowerCase (trim (primary_topic__subfield__display_name p)) in
  let terms := filter truthy [t1; t2] in
  let terms :=
    if (List.length terms =? 0)%nat
    then filter truthy
           (map (fun s => toLowerCase (trim s))
                (split_by term_separator (concepts_list p)))
    else terms in
  filter (fun s => (1 <? String.length s)%nat)
         (JsMap.of_list (map (fun s => trim (replace_runs is_space false s)) terms)).

(** The author ids of a work, as the local [parseAuthorships] of
    [buildAuthorTopicSets] returns them. *)
Definition topic_author_ids (p : Pub) : list string :=
  map (fun s => trim (strip_author_url s)) (split "|" (authorships__author__id p)).

(** Body of [for (const id of ids)]: the terms go to the set of a cohort
    author. *)
Definition add_terms (terms : list string) (byAuthor : JsMap.t JsMap.sset)
    (id : string) : JsMap.t JsMap.sset :=
  if negb (truthy id) || negb (JsMap.has byAuthor id) then byAuthor
  else JsMap.set byAuthor id
         (fold_left JsMap.sadd terms
                    (match JsMap.get byAuthor id with Some s => s | None => [] end)).

(** One turn of the loop over the selected publications. *)
Definition topic_pub (byAuthor : JsMap.t JsMap.sset) (p : Pub)
    : JsMap.t JsMap.sset :=
  let terms := getTerms p in
  if (List.length terms =? 0)%nat then byAuthor
  else fold_left (add_terms terms) (topic_author_ids p) byAuthor.

(** [buildAuthorTopicSets]: the cohort authors with at least one term,
    each with its id and its set of terms, in roster order. *)
Definition buildAuthorTopicSets (contributingRoster : list RosterRow)
    (selectedPubs : list Pub) : list (string * JsMap.sset) :=
  filter (fun e => nonempty (snd e))
    (fold_left topic_pub selectedPubs
       (JsMap.of_pairs
          (map (fun r => (strip_author_url (OpenAlexID r), @nil string))
               contributingRoster))).

(* ================================================================== *)
(** * Word cloud list ([wc_collectTermsBySource], [wc_buildList]) *)
(* ================================================================== *)

(** The terms of a publication for the chosen source, before they are
    lowercased: the primary topic and its subfield for the source
    [topics], else the entries of the list of concepts. *)
Definition wc_terms (source : string) (p : Pub) : list string :=
  if source =? "topics"
  then filter truthy [trim (primary_topic__display_name p);
                      trim (primary_topic__subfield__display_name p)]
  else filter truthy (map trim (split_by term_separator (concepts_list p))).

(** [new Set(terms.map(t => t.toLowerCase()))] *)
Definition wc_uniq (source : string) (p : Pub) : JsMap.sset :=
  JsMap.of_list (map toLowerCase (wc_terms source p)).

Definition wc_collectTermsBySource (pubs : list Pub) (source : string)
    : JsMap.t nat :=
  fold_left (fun counts p => fold_left bump (wc_uniq source p) counts) pubs [].

(** [.sort((a, b) => b[1] - a[1])]: stable, descending in the count. *)
Fixpoint insert_entry (x : string * nat) (l : list (string * nat))
    : list (string * nat) :=
  match l with
  | [] => [x]
  | y :: r => if (snd y <=? snd x)%nat then x :: l else y :: insert_entry x r
  end.

Definition sort_entries (l : list (string * nat)) : list (string * nat) :=
  fold_right insert_entry [] l.

(** [Math.max(5, Math.min(100, limit || 100))] for a limit that is a
    natural number. *)
Definition wc_limit (limit : nat) : nat :=
  Nat.max 5 (Nat.min 100 (if (limit =? 0)%nat then 100 else limit)).

Definition wc_buildList (pubs : list Pub) (source : string) (limit : nat)
    : list (string * nat) :=
  firstn (wc_limit limit) (sort_entries (wc_collectTermsBySource pubs source)).

(** The document frequency of a term: the number of publications whose
    set of lowercased terms holds it. *)
Definition document_frequency (pubs : list Pub) (source : string) (t : string)
    : nat :=
  List.length
    (filter (fun p => if in_dec string_dec t (wc_uniq source p) then true else false)
            pubs).

(** Descending order of the counts. *)
Definition weight_ge (x y : string * nat) : Prop := snd y <= snd x.

(** Every entry of [pairCounts] joins a pair in [P] and counts at least
    one work. *)
Definition entries_ok (P : string -> string -> Prop) (pairCounts : JsMap.t nat) : Prop :=
  forall key n, In (key, n) pairCounts ->
                (exists a b, key = pair_key (a, b) /\ P a b) /\ 1 <= n.

(* ================================================================== *)
(** * Facts and theorems *)
(* ================================================================== *)

Module JsMapFacts.
Import JsMap.

Lemma shas_In (s : sset) (x : string) : shas s x = true <-> In x s.
Proof.
  unfold shas. rewrite existsb_exists. split.
  - intros (y & Hy & E). apply String.eqb_eq in E. now subst.
  - intros H. exists x. split; [assumption | apply String.eqb_refl].
Qed.

Lemma shas_false (s : sset) (x : string) : shas s x = false <-> ~ In x s.
Proof.
  rewrite <- shas_In. destruct (shas s x); split; congruence.
Qed.

Lemma In_sadd (s : sset) (x y : string) : In y (sadd s x) <-> In y s \/ y = x.
Proof.
  unfold sadd. destruct (shas s x) eqn:E.
  - apply shas_In in E. split; [tauto | intros [H | ->]; assumption].
  - rewrite in_app_iff. simpl. intuition congruence.
Qed.

Lemma NoDup_sadd (s : sset) (x : string) : NoDup s -> NoDup (sadd s x).
Proof.
  intros H. unfold sadd. destruct (shas s x) eqn:E; [assumption|].
  apply shas_false in E.
  apply NoDup_rev in H. rewrite <- (rev_involutive (s ++ [x])).
  apply NoDup_rev. rewrite rev_app_distr. simpl. constructor.
  - now rewrite <- in_rev.
  - assumption.
Qed.

Lemma In_of_list (l : list string) (x : string) : In x (of_list l) <-> In x l.
Proof.
  unfold of_list.
  assert (G : forall s, In x (fold_left sadd l s) <-> In x s \/ In x l).
  { induction l as [|y l IH]; intros s; simpl; [tauto|].
    rewrite IH, In_sadd. intuition congruence. }
  rewrite G. simpl. tauto.
Qed.

Lemma NoDup_of_list (l : list string) : NoDup (of_list l).
Proof.
  unfold of_list.
  assert (G : forall s, NoDup s -> NoDup (fold_left sadd l s)).
  { induction l as [|y l IH]; intros s Hs; simpl; [assumption|].
    apply IH, NoDup_sadd, Hs. }
  apply G. constructor.
Qed.

Section MapFacts.
Context {V : Type}.

Lemma get_set (m : t V) (k k' : string) (v : V) :
  get (set m k v) k' = if k =? k' then Some v else get m k'.
Proof.
  induction m as [|[k0 v0] m IH]; simpl.
  - reflexivity.
  - destruct (k0 =? k) eqn:E0; simpl.
    + apply String.eqb_eq in E0. subst k0.
      destruct (k =? k'); reflexivity.
    + destruct (k0 =? k') eqn:E1.
      * apply String.eqb_eq in E1. subst k0.
        rewrite String.eqb_sym, E0. reflexivity.
      * apply IH.
Qed.

Lemma get_Some_In_keys (m : t V) (k : string) :
  (exists v, get m k = Some v) <-> In k (keys m).
Proof.
  induction m as [|[k0 v0] m IH]; simpl.
  - split; [intros (v & H); discriminate | tauto].
  - destruct (k0 =? k) eqn:E.
    + apply String.eqb_eq in E. split; [auto | intros _; eauto].
    + apply String.eqb_neq in E. rewrite IH. intuition congruence.
Qed.

Lemma keys_set (m : t V) (k : string) (v : V) :
  keys (set m k v) = sadd (keys m) k.
Proof.
  unfold sadd, keys. induction m as [|[k0 v0] m IH]; simpl.
  - reflexivity.
  - unfold shas in *. simpl. destruct (k0 =? k) eqn:E; simpl.
    + reflexivity.
    + rewrite IH. destruct (existsb _ _); reflexivity.
Qed.

End MapFacts.
End JsMapFacts.
Import JsMapFacts.

(** ** Alignment of the authorship arrays *)

Lemma map_nth_seq {A : Type} (fill : A) (arr : list A) (n : nat) :
  map (fun i => nth i arr fill) (seq 0 n)
  = firstn n (arr ++ repeat fill (n - List.length arr)).
Proof.
  revert n. induction arr as [|a arr IH]; intros n.
  - simpl. rewrite Nat.sub_0_r.
    rewrite firstn_all2 by (rewrite repeat_length; lia).
    generalize 0 as s. induction n as [|n IHn]; intros s; simpl.
    + reflexivity.
    + rewrite IHn. now destruct s.
  - destruct n as [|n]; [reflexivity|].
    simpl. f_equal. rewrite <- seq_shift, map_map. apply IH.
Qed.

Lemma pad_spec {A : Type} (n : nat) (arr : list A) (fill : A) :
  pad n arr fill = firstn n (arr ++ repeat fill (n - List.length arr)).
Proof.
  unfold pad. destruct (Nat.eqb_spec (List.length arr) n) as [E|E].
  - subst n. rewrite Nat.sub_diag. simpl. rewrite app_nil_r.
    now rewrite firstn_all.
  - apply map_nth_seq.
Qed.

Lemma pad_length {A : Type} (n : nat) (arr : list A) (fill : A) :
  List.length (pad n arr fill) = n.
Proof.
  unfold pad. destruct (Nat.eqb_spec (List.length arr) n) as [E|E].
  - assumption.
  - now rewrite length_map, length_seq.
Qed.

Lemma pad_shorter {A : Type} (n : nat) (arr : list A) (fill : A) :
  List.length arr <= n -> pad n arr fill = arr ++ repeat fill (n - List.length arr).
Proof.
  intros H. rewrite pad_spec. apply firstn_all2.
  rewrite length_app, repeat_length. lia.
Qed.

Lemma pad_longer {A : Type} (n : nat) (arr : list A) (fill : A) :
  n <= List.length arr -> pad n arr fill = firstn n arr.
Proof.
  intros H. rewrite pad_spec.
  replace (n - List.length arr) with 0 by lia. simpl. now rewrite app_nil_r.
Qed.

(** ** Counting in a [Map] *)

Lemma count_of_bump (m : JsMap.t nat) (k k' : string) :
  count_of (bump m k) k' = count_of m k' + (if k =? k' then 1 else 0).
Proof.
  unfold bump, count_of at 1. rewrite get_set.
  destruct (k =? k') eqn:E.
  - apply String.eqb_eq in E. subst k'. reflexivity.
  - fold (count_of m k'). lia.
Qed.

Lemma keys_bump (m : JsMap.t nat) (k : string) :
  JsMap.keys (bump m k) = JsMap.sadd (JsMap.keys m) k.
Proof. apply keys_set. Qed.

Lemma count_of_bump_all (s : list string) (m : JsMap.t nat) (c : string) :
  NoDup s ->
  count_of (fold_left bump s m) c = count_of m c + (if in_dec string_dec c s then 1 else 0).
Proof.
  revert m. induction s as [|x s IH]; intros m Hs; simpl.
  - lia.
  - inversion Hs as [|? ? Hx Hs']; subst.
    rewrite (IH _ Hs'), count_of_bump.
    destruct (String.eqb_spec x c) as [E|Hne].
    + subst x. destruct (string_dec c c) as [E|F]; [|congruence].
      destruct (in_dec string_dec c s); [contradiction | lia].
    + destruct (string_dec x c) as [F|E']; [congruence|].
      destruct (in_dec string_dec c s); lia.
Qed.

(** ** The classification loop *)

Section Classify.
Variable cohort : JsMap.sset.
Variable homeISO3 : string.
Variable a : Authorships.

Lemma classify_fold (l : list nat) (st : IdxSets) :
  fold_left (classify_authorship cohort homeISO3 a) l st
  = {| cohortIdx_FL := cohortIdx_FL st ++ filter (is_cohort_FL cohort a) l;
       cohortIdx_M := cohortIdx_M st ++ filter (is_cohort_M cohort a) l;
       intlIdx_any := intlIdx_any st ++ filter (is_intl homeISO3 a) l;
       intlIdx_FL := intlIdx_FL st ++ filter (is_intl_FL homeISO3 a) l |}.
Proof.
  revert st. induction l as [|i l IH]; intros st; simpl.
  - rewrite !app_nil_r. now destruct st.
  - rewrite IH. unfold classify_authorship, is_cohort_M, is_intl_FL, is_cohort_FL, is_intl.
    destruct (isCohort cohort (nth i (ids a) "")), (isFL (pos_at a i)),
      (pos_at a i =? "middle"), (isIntl homeISO3 (nth i (countries a) ""));
      simpl; rewrite <- ?app_assoc; reflexivity.
Qed.

Lemma classify_spec :
  classify cohort homeISO3 a
  = let idx := seq 0 (List.length (ids a)) in
    {| cohortIdx_FL := filter (is_cohort_FL cohort a) idx;
       cohortIdx_M := filter (is_cohort_M cohort a) idx;
       intlIdx_any := filter (is_intl homeISO3 a) idx;
       intlIdx_FL := filter (is_intl_FL homeISO3 a) idx |}.
Proof. unfold classify. now rewrite classify_fold. Qed.

Lemma In_credit_indices (idx : list nat) (s : JsMap.sset) (c : string) :
  In c (credit_indices a idx s)
  <-> In c s \/ exists j, In j idx /\ nth j (countries a) "" = c /\ c <> "".
Proof.
  unfold credit_indices. revert s. induction idx as [|j idx IH]; intros s; simpl.
  - split; [auto | intros [H | (j & [] & _)]; assumption].
  - rewrite IH. unfold truthy.
    destruct (String.eqb_spec (nth j (countries a) "") "") as [E|E]; simpl.
    + split.
      * intros [H | (j' & Hj' & Hc)]; [now left | right; exists j'; tauto].
      * intros [H | (j' & [<- | Hj'] & Hc & Hne)]; [now left | congruence |].
        right. exists j'. tauto.
    + rewrite In_sadd. split.
      * intros [[H | ->] | (j' & Hj' & Hc)];
          [now left | right; exists j; tauto | right; exists j'; tauto].
      * intros [H | (j' & [<- | Hj'] & Hc & Hne)];
          [left; now left | left; right; congruence | right; exists j'; tauto].
Qed.

Lemma NoDup_credit_indices (idx : list nat) (s : JsMap.sset) :
  NoDup s -> NoDup (credit_indices a idx s).
Proof.
  unfold credit_indices. revert s. induction idx as [|j idx IH]; intros s Hs; simpl.
  - assumption.
  - apply IH. destruct (truthy _); [now apply NoDup_sadd | assumption].
Qed.

Lemma NoDup_credited : NoDup (creditedThisPaper cohort homeISO3 a).
Proof.
  unfold creditedThisPaper.
  repeat match goal with
         | |- NoDup (if ?b then _ else _) => destruct b
         | |- NoDup (credit_indices _ _ _) => apply NoDup_credit_indices
         end; constructor.
Qed.

Lemma is_intl_In_countries (j : nat) :
  (is_intl homeISO3 a) j = true ->
  In (nth j (countries a) "") (filter (isIntl homeISO3) (countries a)).
Proof.
  unfold is_intl. intros H. apply filter_In. split; [|assumption].
  destruct (Nat.lt_ge_cases j (List.length (countries a))) as [Hlt|Hge].
  - now apply nth_In.
  - rewrite nth_overflow in H by assumption. discriminate.
Qed.

(** Whatever is credited is the country of an international authorship. *)
Lemma credited_sound (c : string) :
  In c (creditedThisPaper cohort homeISO3 a) -> In c (intl_countries homeISO3 a).
Proof.
  unfold creditedThisPaper, intl_countries. rewrite classify_spec. simpl.
  intros H. apply nodup_In.
  assert (G : forall idx s,
             (forall j, In j idx -> (is_intl homeISO3 a) j = true) ->
             (forall x, In x s -> In x (filter (isIntl homeISO3) (countries a))) ->
             In c (credit_indices a idx s) ->
             In c (filter (isIntl homeISO3) (countries a))).
  { intros idx s Hidx Hs Hc. apply In_credit_indices in Hc.
    destruct Hc as [Hc | (j & Hj & <- & _)]; [now apply Hs|].
    apply is_intl_In_countries, Hidx, Hj. }
  assert (Hany : forall j, In j (filter (is_intl homeISO3 a) (seq 0 (List.length (ids a)))) ->
                           (is_intl homeISO3 a) j = true).
  { intros j Hj. now apply filter_In in Hj. }
  assert (HFL : forall j, In j (filter (is_intl_FL homeISO3 a) (seq 0 (List.length (ids a)))) ->
                          (is_intl homeISO3 a) j = true).
  { intros j Hj. apply filter_In in Hj. unfold is_intl_FL in Hj.
    destruct Hj as [_ Hj]. now apply andb_true_iff in Hj. }
  set (rule1 := if _ && _ then credit_indices a _ [] else []) in H.
  assert (Hr1 : forall x, In x rule1 ->
                          In x (filter (isIntl homeISO3) (countries a))).
  { intros x Hx. unfold rule1 in Hx. destruct (_ && _); [|contradiction].
    apply In_credit_indices in Hx.
    destruct Hx as [[] | (j & Hj & <- & _)].
    apply is_intl_In_countries, Hany, Hj. }
  match type of H with In _ (if ?b then _ else _) => destruct b end;
    [|now apply Hr1].
  now apply (G _ _ HFL Hr1).
Qed.

(** Rule 1: a first/last cohort author and one international authorship
    credit every international country. *)
Lemma credited_rule1 (i : nat) (c : string) :
  List.length (countries a) = List.length (ids a) ->
  i < List.length (ids a) -> (is_cohort_FL cohort a) i = true ->
  In c (intl_countries homeISO3 a) ->
  In c (creditedThisPaper cohort homeISO3 a).
Proof.
  intros Hlen Hi HFL Hc.
  unfold intl_countries in Hc. apply nodup_In, filter_In in Hc.
  destruct Hc as [Hin Hintl].
  destruct (In_nth _ _ "" Hin) as (j & Hj & Hnth).
  assert (Hjin : In j (filter (is_intl homeISO3 a) (seq 0 (List.length (ids a))))).
  { apply filter_In. split; [apply in_seq; lia | unfold is_intl; now rewrite Hnth]. }
  assert (Hiin : In i (filter (is_cohort_FL cohort a) (seq 0 (List.length (ids a))))).
  { apply filter_In. split; [apply in_seq; lia | assumption]. }
  assert (Hne : c <> "").
  { intros ->. discriminate. }
  unfold creditedThisPaper. rewrite classify_spec. simpl.
  assert (N1 : nonempty (filter (is_cohort_FL cohort a) (seq 0 (List.length (ids a)))) = true).
  { unfold nonempty. destruct (filter (is_cohort_FL cohort a) _); [contradiction | reflexivity]. }
  assert (N2 : nonempty (filter (is_intl homeISO3 a) (seq 0 (List.length (ids a)))) = true).
  { unfold nonempty. destruct (filter (is_intl homeISO3 a) _); [contradiction | reflexivity]. }
  rewrite N1, N2. simpl.
  assert (R1 : In c (credit_indices a (filter (is_intl homeISO3 a) (seq 0 (List.length (ids a)))) [])).
  { apply In_credit_indices. right. exists j. tauto. }
  destruct (_ && _); [|assumption].
  apply In_credit_indices. now left.
Qed.

End Classify.

(** ** Home-country inference *)

Lemma tally_fold (cohort : JsMap.sset) (a : Authorships) (idx : list nat)
    (m : JsMap.t nat) :
  fold_left (tally_authorship cohort a) idx m
  = fold_left bump
      (flat_map (fun i =>
                   let aid := nth i (ids a) "" in
                   let cty := nth i (countries a) "" in
                   if truthy aid && truthy cty && JsMap.shas cohort aid
                   then [cty] else []) idx) m.
Proof.
  revert m. induction idx as [|i idx IH]; intros m; simpl.
  - reflexivity.
  - rewrite fold_left_app, IH. f_equal. unfold tally_authorship.
    destruct (truthy (nth i (ids a) "")), (truthy (nth i (countries a) "")),
      (JsMap.shas cohort (nth i (ids a) "")); reflexivity.
Qed.

Lemma home_tallies_spec (roster : list RosterRow) (pubs : list Pub) :
  home_tallies roster pubs = fold_left bump (cohort_countries roster pubs) [].
Proof.
  unfold home_tallies, cohort_countries. generalize (@nil (string * nat)).
  induction pubs as [|p pubs IH]; intros m; simpl.
  - reflexivity.
  - rewrite fold_left_app, IH. f_equal. apply tally_fold.
Qed.

Lemma cohort_countries_truthy (roster : list RosterRow) (pubs : list Pub) (c : string) :
  In c (cohort_countries roster pubs) -> c <> "".
Proof.
  unfold cohort_countries, cohort_countries_of. intros H.
  apply in_flat_map in H. destruct H as (p & _ & H).
  apply in_flat_map in H. destruct H as (i & _ & H).
  destruct (truthy (nth i (ids (parseAuthorships p)) "")); [|contradiction].
  destruct (truthy (nth i (countries (parseAuthorships p)) "")) eqn:E; [|contradiction].
  destruct (JsMap.shas _ _); [|contradiction].
  destruct H as [<- | []]. intros F. rewrite F in E. discriminate.
Qed.

Lemma count_of_tally (l : list string) (m : JsMap.t nat) (k : string) :
  count_of (fold_left bump l m) k = count_of m k + count_occ string_dec l k.
Proof.
  revert m. induction l as [|x l IH]; intros m; simpl.
  - lia.
  - rewrite IH, count_of_bump.
    destruct (String.eqb_spec x k), (string_dec x k); try congruence; lia.
Qed.

Lemma keys_tally (l : list string) (m : JsMap.t nat) :
  JsMap.keys (fold_left bump l m) = fold_left JsMap.sadd l (JsMap.keys m).
Proof.
  revert m. induction l as [|x l IH]; intros m; simpl.
  - reflexivity.
  - now rewrite IH, keys_bump.
Qed.

Lemma get_of_entry {V : Type} (m : JsMap.t V) (k : string) (v : V) :
  NoDup (JsMap.keys m) -> In (k, v) m -> JsMap.get m k = Some v.
Proof.
  induction m as [|[k0 v0] m IH]; simpl; intros Hnd Hin; [contradiction|].
  inversion Hnd as [|? ? Hk0 Hnd']; subst.
  destruct Hin as [E | Hin].
  - inversion E; subst. now rewrite String.eqb_refl.
  - destruct (String.eqb_spec k0 k) as [->|Hne].
    + exfalso. apply Hk0. change k with (fst (k, v)). now apply in_map.
    + now apply IH.
Qed.

(** The scan keeps the first entry that carries the largest count. *)
Lemma best_scan (m : JsMap.t nat) (b : option string) (bn : Z) :
  let r := fold_left best_step m (b, bn) in
  (r = (b, bn) /\ forall k n, In (k, n) m -> (Z.of_nat n <= bn)%Z)
  \/ exists m1 h nh m2,
       m = m1 ++ (h, nh) :: m2 /\ r = (Some h, Z.of_nat nh) /\
       (bn < Z.of_nat nh)%Z /\
       (forall k n, In (k, n) m1 -> n < nh) /\
       (forall k n, In (k, n) m2 -> n <= nh).
Proof.
  revert b bn. induction m as [|[k n] m IH]; intros b bn; simpl.
  - left. split; [reflexivity | intros ? ? []].
  - destruct (Z.ltb_spec bn (Z.of_nat n)) as [Hlt|Hge].
    + right. destruct (IH (Some k) (Z.of_nat n)) as [[Hr Hall] | (m1 & h & nh & m2 & Hm & Hr & Hb & H1 & H2)].
      * exists [], k, n, m. simpl. repeat split; try assumption.
        -- intros ? ? [].
        -- intros k' n' Hin. specialize (Hall _ _ Hin). lia.
      * exists ((k, n) :: m1), h, nh, m2. subst m. simpl.
        repeat split; try assumption; try lia.
        intros k' n' [E | Hin]; [inversion E; subst; lia | eauto].
    + destruct (IH b bn) as [[Hr Hall] | (m1 & h & nh & m2 & Hm & Hr & Hb & H1 & H2)].
      * left. split; [assumption|].
        intros k' n' [E | Hin]; [inversion E; subst; lia | eauto].
      * right. exists ((k, n) :: m1), h, nh, m2. subst m. simpl.
        repeat split; try assumption.
        intros k' n' [E | Hin]; [inversion E; subst; lia | eauto].
Qed.

Lemma first_index_app_l (x : string) (l l' : list string) :
  In x l -> first_index x (l ++ l') = first_index x l.
Proof.
  induction l as [|y l IH]; simpl; intros H; [contradiction|].
  destruct (String.eqb_spec y x) as [E|E]; [reflexivity|].
  destruct H as [H|H]; [congruence|]. now rewrite IH.
Qed.

Lemma first_index_app_r (x : string) (l l' : list string) :
  ~ In x l -> first_index x (l ++ l') = List.length l + first_index x l'.
Proof.
  induction l as [|y l IH]; simpl; intros H; [reflexivity|].
  destruct (String.eqb_spec y x) as [E|E]; [tauto|].
  rewrite IH; tauto.
Qed.

Lemma first_index_lt (x : string) (l : list string) :
  In x l -> first_index x l < List.length l.
Proof.
  induction l as [|y l IH]; simpl; intros H; [contradiction|].
  destruct (String.eqb_spec y x) as [E|E]; [lia|].
  destruct H as [H|H]; [congruence|]. specialize (IH H). lia.
Qed.

(** A [Set] built from an array lists its members by first occurrence. *)
Lemma of_list_order (l : list string) :
  forall k1 h k2 c,
    JsMap.of_list l = k1 ++ h :: k2 -> In c k2 ->
    first_index h l < first_index c l.
Proof.
  induction l as [|x l IH] using rev_ind; intros k1 h k2 c Hk Hc.
  - destruct k1; discriminate.
  - unfold JsMap.of_list in Hk. rewrite fold_left_app in Hk. simpl in Hk.
    fold (JsMap.of_list l) in Hk. unfold JsMap.sadd in Hk.
    assert (Hh : In h (k1 ++ h :: k2)) by (apply in_elt).
    assert (Hc' : In c (k1 ++ h :: k2)) by (apply in_or_app; right; now right).
    destruct (JsMap.shas (JsMap.of_list l) x) eqn:E.
    + rewrite <- Hk in Hh, Hc'. rewrite In_of_list in Hh, Hc'.
      rewrite (first_index_app_l h), (first_index_app_l c) by assumption.
      eapply IH; eauto.
    + apply shas_false in E. rewrite In_of_list in E.
      destruct k2 as [|y k2] using rev_ind; [contradiction|]. clear IHk2.
      change (k1 ++ h :: k2 ++ [y]) with (k1 ++ (h :: k2) ++ [y]) in Hk.
      rewrite app_assoc in Hk. apply app_inj_tail in Hk. destruct Hk as [Hk <-].
      assert (Hhl : In h l).
      { apply In_of_list. rewrite Hk. apply in_elt. }
      rewrite (first_index_app_l h) by assumption.
      apply in_app_or in Hc. destruct Hc as [Hc | [<- | []]].
      * assert (Hcl : In c l).
        { apply In_of_list. rewrite Hk. apply in_or_app. right. now right. }
        rewrite first_index_app_l by assumption. eapply IH; eauto.
      * rewrite first_index_app_r by assumption.
        pose proof (first_index_lt h l Hhl). lia.
Qed.

Lemma count_occ_two_le (l : list string) (x y : string) :
  x <> y -> count_occ string_dec l x + count_occ string_dec l y <= List.length l.
Proof.
  intros Hne. induction l as [|z l IH]; simpl; [lia|].
  destruct (string_dec z x), (string_dec z y); try congruence; lia.
Qed.

(** The inferred home country is never empty. *)
Lemma computeHomeCountry_truthy (roster : list RosterRow) (pubs : list Pub) :
  computeHomeCountry roster pubs <> "".
Proof.
  unfold computeHomeCountry.
  destruct (_ =? 0)%nat; [discriminate|].
  destruct (best_of _) as [k|]; [|discriminate].
  unfold truthy. destruct (String.eqb_spec k ""); simpl; [discriminate | assumption].
Qed.

Lemma home_scan (roster : list RosterRow) (pubs : list Pub) :
  let l := cohort_countries roster pubs in
  l <> [] ->
  exists m1 h m2,
    home_tallies roster pubs = m1 ++ (h, count_occ string_dec l h) :: m2
    /\ computeHomeCountry roster pubs = h
    /\ In h l
    /\ (forall k n, In (k, n) m1 -> n < count_occ string_dec l h)
    /\ (forall k n, In (k, n) m2 -> n <= count_occ string_dec l h)
    /\ (forall k n, In (k, n) (home_tallies roster pubs) ->
                    n = count_occ string_dec l k).
Proof.
  intros l Hl.
  assert (Ht : home_tallies roster pubs = fold_left bump l [])
    by apply home_tallies_spec.
  assert (Hty : forall c, In c l -> c <> "")
    by apply cohort_countries_truthy.
  clearbody l.
  assert (Hkeys : JsMap.keys (home_tallies roster pubs) = JsMap.of_list l).
  { rewrite Ht. apply keys_tally. }
  assert (Hnd : NoDup (JsMap.keys (home_tallies roster pubs))).
  { rewrite Hkeys. apply NoDup_of_list. }
  assert (Hcnt : forall k n, In (k, n) (home_tallies roster pubs) ->
                             n = count_occ string_dec l k).
  { intros k n Hin. pose proof (get_of_entry _ _ _ Hnd Hin) as Hg.
    pose proof (count_of_tally l [] k) as Hc. rewrite <- Ht in Hc.
    unfold count_of in Hc at 1. rewrite Hg in Hc. simpl in Hc. exact Hc. }
  destruct (best_scan (home_tallies roster pubs) None (-1)%Z)
    as [[_ Hall] | (m1 & h & nh & m2 & Hm & Hr & _ & H1 & H2)].
  - exfalso. destruct l as [|x l'] eqn:El; [now apply Hl|].
    assert (Hx : In x (JsMap.keys (home_tallies roster pubs))).
    { rewrite Hkeys. apply In_of_list. now left. }
    apply get_Some_In_keys in Hx. destruct Hx as (n & Hx).
    assert (Hin : In (x, n) (home_tallies roster pubs)).
    { clear - Hx. induction (home_tallies roster pubs) as [|[k0 v0] m IH];
        simpl in *; [discriminate|].
      destruct (String.eqb_spec k0 x) as [->|Hne]; [left; congruence | right; auto]. }
    specialize (Hall _ _ Hin). lia.
  - assert (Hnh : nh = count_occ string_dec l h).
    { apply Hcnt. rewrite Hm. apply in_elt. }
    subst nh.
    assert (Hhl : In h l).
    { apply In_of_list. rewrite <- Hkeys, Hm. unfold JsMap.keys.
      rewrite map_app. simpl. apply in_elt. }
    exists m1, h, m2. repeat split; try assumption.
    unfold computeHomeCountry, best_of. rewrite Hr. simpl.
    rewrite Hm, length_app. simpl.
    replace (List.length m1 + S (List.length m2) =? 0)%nat with false
      by (symmetry; apply Nat.eqb_neq; lia).
    unfold truthy.
    destruct (String.eqb_spec h "") as [E|E]; [|reflexivity].
    exfalso. exact (Hty h Hhl E).
Qed.

(** C3. Home-country inference tallies the affiliation country of every
    authorship of a roster author over the selected publications and
    returns the country with the highest tally, the first seen among the
    countries that tie; with nothing to tally it returns the fallback
    "CAN".  Three cohort authorships in "USA" and one in "GBR" give
    "USA". *)
Theorem computeHomeCountry_most_frequent (roster : list RosterRow) (pubs : list Pub) :
  let l := cohort_countries roster pubs in
  let home := computeHomeCountry roster pubs in
  (forall c, count_of (home_tallies roster pubs) c = count_occ string_dec l c)
  /\ (l = [] -> home = "CAN")
  /\ (l <> [] ->
      In home l
      /\ (forall c, count_occ string_dec l c <= count_occ string_dec l home)
      /\ (forall c, count_occ string_dec l c = count_occ string_dec l home ->
                    first_index home l <= first_index c l))
  /\ (count_occ string_dec l "USA" = 3 -> count_occ string_dec l "GBR" = 1 ->
      List.length l = 4 -> home = "USA").
Proof.
  intros l home.
  assert (Hmain : l <> [] ->
      In home l
      /\ (forall c, count_occ string_dec l c <= count_occ string_dec l home)
      /\ (forall c, count_occ string_dec l c = count_occ string_dec l home ->
                    first_index home l <= first_index c l)).
  { intros Hl.
    destruct (home_scan roster pubs Hl) as (m1 & h & m2 & Hm & Hh & Hhl & H1 & H2 & Hcnt).
    fold l in Hm, Hhl, H1, H2, Hcnt. fold home in Hh. subst h.
    assert (Hkeys : JsMap.of_list l = JsMap.keys m1 ++ home :: JsMap.keys m2).
    { change (JsMap.of_list l) with (fold_left JsMap.sadd l (JsMap.keys (@nil (string * nat)))).
      rewrite <- keys_tally. unfold l at 1. rewrite <- home_tallies_spec, Hm.
      unfold JsMap.keys. now rewrite map_app. }
    assert (Hentry : forall c, In c l ->
              (exists n, In (c, n) m1 /\ n = count_occ string_dec l c)
              \/ c = home
              \/ (In c (JsMap.keys m2) /\ count_occ string_dec l c <= count_occ string_dec l home)).
    { intros c Hc. apply In_of_list in Hc. rewrite Hkeys in Hc.
      apply in_app_or in Hc. destruct Hc as [Hc | [Hc | Hc]].
      - left. apply in_map_iff in Hc. destruct Hc as ([k n] & <- & Hin).
        exists n. split; [assumption|]. apply Hcnt. rewrite Hm.
        apply in_or_app. now left.
      - right. left. now symmetry.
      - right. right. split; [assumption|].
        apply in_map_iff in Hc. destruct Hc as ([k n] & <- & Hin). simpl.
        rewrite <- (Hcnt k n); [eapply H2; eauto|].
        rewrite Hm. apply in_or_app. right. now right. }
    split; [assumption|]. split.
    - intros c. destruct (in_dec string_dec c l) as [Hc|Hc].
      + destruct (Hentry c Hc) as [(n & Hin & ->) | [-> | [_ Hle]]];
          [apply Nat.lt_le_incl; eapply H1; eauto | lia | assumption].
      + apply (count_occ_not_In string_dec) in Hc. lia.
    - intros c Hc.
      destruct (in_dec string_dec c l) as [Hcl|Hcl].
      + destruct (Hentry c Hcl) as [(n & Hin & Hn) | [-> | [Hk2 _]]].
        * specialize (H1 _ _ Hin). lia.
        * lia.
        * apply Nat.lt_le_incl. eapply of_list_order; eauto.
      + apply (count_occ_not_In string_dec) in Hcl.
        apply (count_occ_In string_dec) in Hhl. lia. }
  split; [|split; [|split; [exact Hmain|]]].
  - intros c. rewrite home_tallies_spec, count_of_tally. reflexivity.
  - intros Hl. unfold home, computeHomeCountry. rewrite home_tallies_spec.
    fold l. now rewrite Hl.
  - intros Husa Hgbr Hlen.
    assert (Hl : l <> []) by (intros E; rewrite E in Hlen; discriminate).
    destruct (Hmain Hl) as (_ & Hmax & _).
    destruct (string_dec home "USA") as [E|E]; [assumption|].
    pose proof (count_occ_two_le l home "USA" E). specialize (Hmax "USA"). lia.
Qed.

(** The scenario of C3 on a concrete selection: roster authors A1 and A2,
    two works, cohort authorships in USA, GBR, USA, USA. *)
Lemma computeHomeCountry_most_frequent_witness :
  computeHomeCountry
    [mkRoster "A1" "Ada"; mkRoster "A2" "Bob"]
    [mkPub "W1" "US|GB" "A1|A2" "first|last";
     mkPub "W2" "US|US|FR" "A1|A2|A9" "first|middle|last"] = "USA".
Proof.
  apply (proj2 (proj2 (proj2 (computeHomeCountry_most_frequent
    [mkRoster "A1" "Ada"; mkRoster "A2" "Bob"]
    [mkPub "W1" "US|GB" "A1|A2" "first|last";
     mkPub "W2" "US|US|FR" "A1|A2|A9" "first|middle|last"])))); reflexivity.
Defined.

(** ** The claims on the authorship arrays and the classifier *)

(** C4 (amended). Every array returned by [parseAuthorships] has the
    length of the reference countries array: an array shorter than the
    reference is padded on the right with empty/false values and an array
    longer than the reference is cut to its first entries. *)
Theorem parseAuthorships_aligned (pub : Pub) :
  let a := parseAuthorships pub in
  let n := List.length (countries a) in
  countries a = raw_countries pub
  /\ aligned_to n "" (raw_ids pub) (ids a)
  /\ aligned_to n "" (raw_names pub) (names a)
  /\ aligned_to n false (raw_isCorresponding pub) (isCorresponding a)
  /\ aligned_to n "" (raw_position pub) (position a)
  /\ aligned_to n "" (raw_instRor pub) (instRor a)
  /\ aligned_to n "" (raw_instName pub) (instName a)
  /\ aligned_to n "" (raw_instISO3 pub) (instCountry3 a).
Proof.
  simpl. unfold aligned_to.
  repeat split; try apply pad_length; apply pad_spec.
Qed.

(** C4 as stated fails: with one country and two author ids the second id
    is dropped, so the ids array does not start with the raw ids. *)
Lemma parseAuthorships_truncates :
  let pub := mkPub "W1" "CA" "A1|A2" "first|last" in
  raw_ids pub = ["A1"; "A2"]
  /\ ids (parseAuthorships pub) = ["A1"]
  /\ ~ extends (raw_ids pub) (ids (parseAuthorships pub)).
Proof.
  simpl. split; [reflexivity|]. split; [reflexivity|].
  intros (ext & H). vm_compute in H. discriminate.
Qed.

Lemma intl_pub_counts (cohort : JsMap.sset) (homeISO3 : string)
    (counts : JsMap.t nat) (pub : Pub) (c : string) :
  count_of (intl_pub cohort homeISO3 counts pub) c
  = count_of counts c
    + (if in_dec string_dec c
            (creditedThisPaper cohort homeISO3 (parseAuthorships pub))
       then if (List.length (ids (parseAuthorships pub)) =? 0)%nat then 0 else 1
       else 0).
Proof.
  unfold intl_pub. destruct (_ =? 0)%nat.
  - destruct (in_dec _ _ _); lia.
  - apply count_of_bump_all, NoDup_credited.
Qed.

(** C2. The countries credited to a publication, by both rules together,
    are at most as many as the distinct non-home countries among its
    authorships; the publication raises the count of a credited country
    by one and of no other country. *)
Theorem credited_at_most_international (roster : list RosterRow)
    (homeISO3 : string) (pub : Pub) :
  let a := parseAuthorships pub in
  let credited := creditedThisPaper (cohortIDs roster) homeISO3 a in
  List.length credited <= List.length (intl_countries homeISO3 a)
  /\ forall counts c,
       count_of (intl_pub (cohortIDs roster) homeISO3 counts pub) c
       <= count_of counts c + (if in_dec string_dec c credited then 1 else 0).
Proof.
  intros a credited. split.
  - apply NoDup_incl_length; [apply NoDup_credited|].
    intros c. apply credited_sound.
  - intros counts c. rewrite intl_pub_counts. fold a credited.
    destruct (in_dec _ _ _); [destruct (_ =? 0)%nat|]; lia.
Qed.

Lemma parseAuthorships_lengths (pub : Pub) :
  List.length (countries (parseAuthorships pub))
  = List.length (ids (parseAuthorships pub)).
Proof. simpl. now rewrite pad_length. Qed.

(** Rule 1 for any non-empty home country. *)
Lemma rule1_general (cohort : JsMap.sset) (homeISO3 : string) (pub : Pub) (i j : nat) :
  let a := parseAuthorships pub in
  let credited := creditedThisPaper cohort homeISO3 a in
  homeISO3 <> "" ->
  i < List.length (ids a) -> is_cohort_FL cohort a i = true ->
  j < List.length (ids a) ->
  nth j (countries a) "" <> "" -> nth j (countries a) "" <> homeISO3 ->
  NoDup credited
  /\ (forall c, In c credited <-> In c (intl_countries homeISO3 a))
  /\ In (nth j (countries a) "") credited
  /\ (forall counts c,
        count_of (intl_pub cohort homeISO3 counts pub) c
        = count_of counts c
          + (if in_dec string_dec c (intl_countries homeISO3 a) then 1 else 0)).
Proof.
  intros a credited Hhome Hi HFL Hj Hne Hnh.
  assert (Hiff : forall c, In c credited <-> In c (intl_countries homeISO3 a)).
  { intros c. split; [apply credited_sound|].
    apply (credited_rule1 cohort homeISO3 a i c);
      [apply parseAuthorships_lengths | assumption | assumption]. }
  split; [apply NoDup_credited|]. split; [exact Hiff|]. split.
  - apply Hiff. unfold intl_countries. apply nodup_In, filter_In. split.
    + apply nth_In. unfold a. rewrite parseAuthorships_lengths. exact Hj.
    + unfold isIntl, truthy.
      destruct (String.eqb_spec (nth j (countries a) "") ""); [contradiction|].
      destruct (String.eqb_spec homeISO3 ""); [contradiction|].
      destruct (String.eqb_spec (nth j (countries a) "") homeISO3);
        [contradiction | reflexivity].
  - intros counts c. rewrite intl_pub_counts. fold a credited.
    replace (List.length (ids a) =? 0)%nat with false
      by (symmetry; apply Nat.eqb_neq; lia).
    destruct (in_dec string_dec c credited) as [H|H],
             (in_dec string_dec c (intl_countries homeISO3 a)) as [H'|H'];
      try reflexivity; exfalso; [apply H', Hiff, H | apply H, Hiff, H'].
Qed.

(** C1. When a publication has an authorship of a roster author in first
    or last position and an authorship with a non-empty country other
    than the inferred home country, the classifier credits it with
    exactly the distinct countries of its international authorships, each
    once.  A cohort author in first position and a middle-position
    coauthor in "FRA" credit "FRA". *)
Theorem rule1_credits_international_countries (roster : list RosterRow)
    (pubs : list Pub) (pub : Pub) :
  let home := computeHomeCountry roster pubs in
  let cohort := cohortIDs roster in
  let a := parseAuthorships pub in
  let credited := creditedThisPaper cohort home a in
  ((exists i, i < List.length (ids a)
              /\ isCohort cohort (nth i (ids a) "") = true
              /\ isFL (pos_at a i) = true) ->
   (exists j, j < List.length (ids a)
              /\ nth j (countries a) "" <> ""
              /\ nth j (countries a) "" <> home) ->
   NoDup credited
   /\ (forall c, In c credited <-> In c (intl_countries home a))
   /\ (forall counts c,
         count_of (intl_pub cohort home counts pub) c
         = count_of counts c
           + (if in_dec string_dec c (intl_countries home a) then 1 else 0)))
  /\ (forall i j,
        i < List.length (ids a) ->
        isCohort cohort (nth i (ids a) "") = true ->
        nth i (position a) "" = "first" ->
        j < List.length (ids a) ->
        nth j (position a) "" = "middle" ->
        nth j (countries a) "" = "FRA" ->
        home <> "FRA" ->
        In "FRA" credited
        /\ forall counts,
             count_of (intl_pub cohort home counts pub) "FRA"
             = count_of counts "FRA" + 1).
Proof.
  intros home cohort a credited.
  pose proof (computeHomeCountry_truthy roster pubs) as Hhome. fold home in Hhome.
  split.
  - intros (i & Hi & Hc & HFL) (j & Hj & Hne & Hnh).
    assert (Hi' : is_cohort_FL cohort a i = true).
    { unfold is_cohort_FL. now rewrite Hc, HFL. }
    destruct (rule1_general cohort home pub i j Hhome Hi Hi' Hj Hne Hnh)
      as (H1 & H2 & _ & H4).
    repeat split; try assumption; apply H2.
  - intros i j Hi Hc Hpos Hj _ Hfra Hnh.
    assert (Hi' : is_cohort_FL cohort a i = true).
    { unfold is_cohort_FL, pos_at. now rewrite Hc, Hpos. }
    assert (Hne : nth j (countries a) "" <> "") by (rewrite Hfra; discriminate).
    assert (Hnh' : nth j (countries a) "" <> home) by (rewrite Hfra; congruence).
    destruct (rule1_general cohort home pub i j Hhome Hi Hi' Hj Hne Hnh')
      as (_ & H2 & H3 & H4).
    fold a in H3. rewrite Hfra in H3. split; [exact H3|].
    intros counts. rewrite H4.
    destruct (in_dec string_dec "FRA" _) as [H|H];
      [reflexivity | exfalso; apply H, H2, H3].
Qed.

(** C1 on a concrete work: roster author A1 first, in Canada, coauthor A2
    in the middle, in France. *)
Lemma rule1_credits_international_countries_witness :
  let roster := [mkRoster "https://openalex.org/authors/A1" "Ada"] in
  let pub := mkPub "W1" "CA|FR" "A1|A2" "first|middle" in
  let home := computeHomeCountry roster [pub] in
  let credited := creditedThisPaper (cohortIDs roster) home (parseAuthorships pub) in
  home = "CAN"
  /\ (forall c, In c credited <-> In c ["FRA"])
  /\ In "FRA" credited.
Proof.
  intros roster pub home credited.
  pose proof (rule1_credits_international_countries roster [pub] pub) as [G S].
  split; [reflexivity|]. split.
  - apply G.
    + exists 0. split; [simpl; lia | split; reflexivity].
    + exists 1. split; [simpl; lia | split; discriminate].
  - apply (S 0 1); try reflexivity; try discriminate; simpl; lia.
Defined.

(** ** Partner institutions *)

Section Partners.
Variable cohort : JsMap.sset.
Variable homeROR : string.
Variable a : Authorships.

Lemma In_credit_coauthor (i : nat) (l : list nat) (s : JsMap.sset) (ror : string) :
  In ror (fold_left (credit_coauthor homeROR a i (ror_at a i)) l s)
  <-> In ror s
      \/ exists j, In j l /\ j <> i /\ ror = ror_at a j /\ ror <> ""
                   /\ ~ (ror_at a i <> "" /\ ror = ror_at a i)
                   /\ ~ (homeROR <> "" /\ ror = homeROR).
Proof.
  revert s. induction l as [|j l IH]; intros s; simpl.
  - split; [auto | intros [H | (j & [] & _)]; assumption].
  - rewrite IH. clear IH. unfold credit_coauthor, truthy.
    destruct (Nat.eqb_spec j i) as [Eji|Eji];
      [|destruct (String.eqb_spec (ror_at a j) "") as [E0|E0]; simpl;
        [|destruct (String.eqb_spec (ror_at a i) "") as [E1|E1]; simpl;
          [|destruct (String.eqb_spec (ror_at a j) (ror_at a i)) as [E2|E2]; simpl]]];
      try (destruct (String.eqb_spec homeROR "") as [E3|E3]; simpl;
           [|destruct (String.eqb_spec (ror_at a j) homeROR) as [E4|E4]; simpl]);
      rewrite ?In_sadd;
      (split;
       [ intros [H | (j' & Hj' & Hr)];
         [ try (now left);
           try (destruct H as [H | ->]; [now left | right; exists j;
                  repeat split; try (now left); try assumption; try tauto;
                  intros [? ?]; congruence])
         | right; exists j'; split; [now right | assumption] ]
       | intros [H | (j' & [<- | Hj'] & Hne & Hr & Hn0 & Hown & Hhome)];
         [ try (now left); left; now left
         | try (exfalso; congruence); try (exfalso; tauto);
           try (exfalso; apply Hown; split; congruence);
           try (exfalso; apply Hhome; split; congruence);
           try (left; right; assumption)
         | right; exists j'; tauto ] ]).
Qed.

Lemma In_creditedThisCohort (ror : string) :
  In ror (creditedThisCohort cohort homeROR a)
  <-> exists i j, reaches cohort homeROR a i j ror.
Proof.
  unfold creditedThisCohort, reaches.
  assert (G : forall l s,
    In ror (fold_left (credit_cohort_author cohort homeROR a) l s)
    <-> In ror s
        \/ exists i j, In i l /\ j < List.length (ids a)
             /\ JsMap.shas cohort (nth i (ids a) "") = true
             /\ j <> i /\ ror = ror_at a j /\ ror <> ""
             /\ ~ (ror_at a i <> "" /\ ror = ror_at a i)
             /\ ~ (homeROR <> "" /\ ror = homeROR)).
  { induction l as [|i l IH]; intros s; simpl.
    - split; [auto | intros [H | (i & j & [] & _)]; assumption].
    - rewrite IH. clear IH. unfold credit_cohort_author.
      destruct (JsMap.shas cohort (nth i (ids a) "")) eqn:Ec; simpl.
      + rewrite In_credit_coauthor. split.
        * intros [[H | (j & Hj & Hr)] | (i' & j & Hi' & Hr)].
          -- now left.
          -- right. exists i, j. apply in_seq in Hj.
             split; [now left|]. split; [lia|]. tauto.
          -- right. exists i', j. split; [now right | assumption].
        * intros [H | (i' & j & [<- | Hi'] & Hj & Hc & Hr)].
          -- left. now left.
          -- left. right. exists j. split; [apply in_seq; lia | assumption].
          -- right. exists i', j. tauto.
      + split.
        * intros [H | (i' & j & Hi' & Hr)]; [now left|].
          right. exists i', j. split; [now right | assumption].
        * intros [H | (i' & j & [<- | Hi'] & Hj & Hc & Hr)];
            [now left | congruence | right; exists i', j; tauto]. }
  rewrite G. split.
  - intros [[] | (i & j & Hi & Hr)]. exists i, j. apply in_seq in Hi.
    split; [lia | assumption].
  - intros (i & j & Hi & Hr). right. exists i, j.
    split; [apply in_seq; lia | assumption].
Qed.

Lemma NoDup_creditedThisCohort : NoDup (creditedThisCohort cohort homeROR a).
Proof.
  unfold creditedThisCohort.
  assert (G1 : forall i own l s, NoDup s ->
                 NoDup (fold_left (credit_coauthor homeROR a i own) l s)).
  { intros i own l. induction l as [|j l IH]; intros s Hs; simpl; [assumption|].
    apply IH. unfold credit_coauthor.
    repeat match goal with
           | |- NoDup (if ?b then _ else _) => destruct b
           end; try assumption. now apply NoDup_sadd. }
  assert (G2 : forall l s, NoDup s ->
                 NoDup (fold_left (credit_cohort_author cohort homeROR a) l s)).
  { induction l as [|i l IH]; intros s Hs; simpl; [assumption|].
    apply IH. unfold credit_cohort_author.
    destruct (negb _); [assumption | now apply G1]. }
  apply G2. constructor.
Qed.

End Partners.

Lemma credits_of_credit_ror (a : Authorships) (tally : JsMap.t PartnerRec)
    (ror r : string) :
  credits_of (credit_ror a tally ror) r
  = credits_of tally r + (if ror =? r then 1 else 0).
Proof.
  unfold credit_ror, credits_of at 1. rewrite get_set.
  destruct (String.eqb_spec ror r) as [E|E].
  - subst r. simpl. unfold credits_of.
    destruct (JsMap.get tally ror); simpl; lia.
  - fold (credits_of tally r). lia.
Qed.

Lemma credits_of_credit_all (a : Authorships) (s : list string)
    (tally : JsMap.t PartnerRec) (r : string) :
  NoDup s ->
  credits_of (fold_left (credit_ror a) s tally) r
  = credits_of tally r + (if in_dec string_dec r s then 1 else 0).
Proof.
  revert tally. induction s as [|x s IH]; intros tally Hs; simpl.
  - lia.
  - inversion Hs as [|? ? Hx Hs']; subst.
    rewrite (IH _ Hs'), credits_of_credit_ror.
    destruct (String.eqb_spec x r) as [E|Hne].
    + subst x. destruct (string_dec r r) as [E|F]; [|congruence].
      destruct (in_dec string_dec r s); [contradiction | lia].
    + destruct (string_dec x r) as [F|E']; [congruence|].
      destruct (in_dec string_dec r s); lia.
Qed.

(** C8. One publication raises the credit count of a partner institution
    by one when some cohort author on it reaches that institution through
    a coauthor, whatever the number of cohort authors that reach it, and
    leaves every other count unchanged. *)
Theorem paper_credits_partner_once (roster : list RosterRow) (homeROR : string)
    (st : JsMap.t PartnerRec * nat) (pub : Pub) :
  let cohort := cohortIDs roster in
  let a := parseAuthorships pub in
  let credited := creditedThisCohort cohort homeROR a in
  let tally' := fst (credit_paper cohort homeROR st pub) in
  NoDup credited
  /\ (forall ror, In ror credited <-> exists i j, reaches cohort homeROR a i j ror)
  /\ (forall ror,
        credits_of tally' ror
        = credits_of (fst st) ror + (if in_dec string_dec ror credited then 1 else 0))
  /\ (forall ror, credits_of tally' ror <= credits_of (fst st) ror + 1).
Proof.
  intros cohort a credited tally'.
  assert (Hnd : NoDup credited) by apply NoDup_creditedThisCohort.
  assert (Heq : forall ror,
        credits_of tally' ror
        = credits_of (fst st) ror + (if in_dec string_dec ror credited then 1 else 0)).
  { intros ror. unfold tally', credit_paper. fold a. fold credited.
    destruct (Nat.eqb_spec (List.length (ids a)) 0) as [E|E].
    - assert (Hc : credited = []).
      { unfold credited, creditedThisCohort. now rewrite E. }
      rewrite Hc. simpl. lia.
    - unfold nonempty.
      destruct (Nat.eqb_spec (List.length credited) 0) as [E0|E0]; simpl.
      + destruct credited; [simpl; lia | discriminate].
      + now apply credits_of_credit_all. }
  split; [exact Hnd|]. split; [apply In_creditedThisCohort|]. split; [exact Heq|].
  intros ror. rewrite Heq. destruct (in_dec _ _ _); lia.
Qed.

(** ** The ranking of partner institutions *)

Lemma insert_row_perm (x : PartnerRow) (l : list PartnerRow) :
  Permutation (insert_row x l) (x :: l).
Proof.
  induction l as [|y l IH]; simpl.
  - apply Permutation_refl.
  - destruct (row_n y <=? row_n x)%nat.
    + apply Permutation_refl.
    + eapply Permutation_trans; [apply perm_skip, IH | apply perm_swap].
Qed.

Lemma sort_rows_perm (l : list PartnerRow) : Permutation (sort_rows l) l.
Proof.
  induction l as [|x l IH]; simpl.
  - apply Permutation_refl.
  - eapply Permutation_trans; [apply insert_row_perm | now apply perm_skip].
Qed.

Lemma insert_row_sorted (x : PartnerRow) (l : list PartnerRow) :
  StronglySorted credits_ge l -> StronglySorted credits_ge (insert_row x l).
Proof.
  induction l as [|y l IH]; simpl; intros Hs.
  - repeat constructor.
  - inversion Hs as [|? ? Hs' Hy]; subst.
    destruct (Nat.leb_spec (row_n y) (row_n x)) as [Hle|Hgt].
    + constructor; [assumption|]. constructor; [exact Hle|].
      eapply Forall_impl; [|exact Hy]. unfold credits_ge. intros z Hz. lia.
    + constructor; [now apply IH|].
      apply Forall_forall. intros z Hz.
      apply (Permutation_in _ (insert_row_perm x l)) in Hz.
      destruct Hz as [<- | Hz].
      * unfold credits_ge. lia.
      * rewrite Forall_forall in Hy. now apply Hy.
Qed.

Lemma sort_rows_sorted (l : list PartnerRow) :
  StronglySorted credits_ge (sort_rows l).
Proof.
  induction l as [|x l IH]; simpl; [constructor | now apply insert_row_sorted].
Qed.

Lemma sorted_firstn_skipn (k : nat) (l : list PartnerRow) :
  StronglySorted credits_ge l ->
  forall x y, In x (firstn k l) -> In y (skipn k l) -> credits_ge x y.
Proof.
  revert l. induction k as [|k IH]; intros l Hs x y Hx Hy.
  - contradiction.
  - destruct l as [|z l]; [contradiction|].
    inversion Hs as [|? ? Hs' Hz]; subst. simpl in Hx, Hy.
    destruct Hx as [<- | Hx].
    + rewrite Forall_forall in Hz. apply Hz.
      rewrite <- (firstn_skipn k l). apply in_or_app. now right.
    + eapply IH; eauto.
Qed.

(** C10. The rows handed to the chart are the head of the ranking, at
    most 12 of them: the tally without the home institution, sorted by
    credit count in descending order and cut after the twelfth row, so
    that no row left out has more credits than a row kept. *)
Theorem partner_rows_top12 (roster : list RosterRow) (pubs : list Pub) :
  let cohort := cohortIDs roster in
  let homeROR := homeROR_of (talliesHome cohort pubs) in
  let tally := fst (partner_tally cohort homeROR pubs) in
  let ranking := partner_ranking homeROR tally in
  let rows := partner_rows homeROR tally in
  match drawTopRORPartners roster pubs with
  | Bars shown => shown = rows /\ 1 <= List.length shown
  | NoPartners => rows = []
  | NoCohort => cohort = []
  end
  /\ List.length rows = Nat.min 12 (List.length ranking)
  /\ List.length rows <= 12
  /\ rows = firstn 12 ranking
  /\ Permutation ranking (map row_of_entry (filter (not_home homeROR) tally))
  /\ StronglySorted credits_ge ranking
  /\ (forall r, In r rows -> row_ror r = homeROR -> homeROR = "")
  /\ (forall kept dropped,
        In kept rows -> In dropped (skipn 12 ranking) ->
        row_n dropped <= row_n kept).
Proof.
  intros cohort homeROR tally ranking rows.
  assert (Hperm : Permutation ranking
                    (map row_of_entry (filter (not_home homeROR) tally))).
  { apply sort_rows_perm. }
  assert (Hsorted : StronglySorted credits_ge ranking) by apply sort_rows_sorted.
  assert (Hlen : List.length rows = Nat.min 12 (List.length ranking)).
  { apply length_firstn. }
  split; [|split; [exact Hlen|]; split; [lia|]; split; [reflexivity|];
           split; [exact Hperm|]; split; [exact Hsorted|]; split].
  - unfold drawTopRORPartners. fold cohort homeROR tally rows.
    destruct (Nat.eqb_spec (List.length cohort) 0) as [E|E].
    + now destruct cohort.
    + destruct (Nat.eqb_spec (List.length rows) 0) as [E'|E'].
      * now destruct rows.
      * split; [reflexivity | lia].
  - intros r Hr Hror.
    assert (Hin : In r ranking).
    { unfold rows, partner_rows in Hr. rewrite <- (firstn_skipn 12 ranking).
      apply in_or_app. now left. }
    apply (Permutation_in _ Hperm) in Hin.
    apply in_map_iff in Hin. destruct Hin as (e & <- & He).
    apply filter_In in He. destruct He as [_ He].
    unfold not_home, truthy in He. simpl in Hror.
    destruct (String.eqb_spec homeROR "") as [E|E]; [assumption|].
    destruct (String.eqb_spec (fst e) homeROR); [discriminate | contradiction].
  - intros kept dropped Hk Hd.
    exact (sorted_firstn_skipn 12 ranking Hsorted kept dropped Hk Hd).
Qed.

(** ** Words of a text *)

Ltac ascii_cases c :=
  destruct c as [[] [] [] [] [] [] [] []]; try reflexivity; try discriminate.

Lemma space_not_alnum (c : ascii) : is_space c = true -> not_alnum c = true.
Proof. ascii_cases c. Qed.



Lemma lower_alnum_or_space (c : ascii) :
  alnum_or_space c = true -> lower_char c = c.
Proof. ascii_cases c. Qed.

Lemma space_eq_not_alnum (c : ascii) :
  alnum_or_space c = true -> (c =? " ")%char = not_alnum c.
Proof. ascii_cases c. Qed.

Lemma space_is_space_on_normal (c : ascii) :
  alnum_or_space c = true -> is_space c = not_alnum c.
Proof. ascii_cases c. Qed.

Section Pieces.
Variable sep : ascii -> bool.

Lemma split_by_not_nil (s : string) : split_by sep s <> [].
Proof.
  destruct s as [|c r]; simpl; [discriminate|].
  destruct (sep c); [discriminate|]. destruct (split_by sep r); discriminate.
Qed.

Lemma split_by_view (s : string) :
  split_by sep s = first_piece sep s :: tl (split_by sep s).
Proof.
  unfold first_piece. pose proof (split_by_not_nil s).
  destruct (split_by sep s); [contradiction | reflexivity].
Qed.

Lemma pieces_view (s : string) :
  pieces sep s
  = (if truthy (first_piece sep s) then [first_piece sep s] else [])
    ++ rest_pieces sep s.
Proof.
  unfold pieces, rest_pieces. rewrite (split_by_view s) at 1. simpl.
  destruct (truthy _); reflexivity.
Qed.

Lemma same_pieces_pieces (x y : string) :
  same_pieces sep x y -> pieces sep x = pieces sep y.
Proof. intros [H1 H2]. now rewrite !pieces_view, H1, H2. Qed.

Lemma pieces_cons_sep (c : ascii) (r : string) :
  sep c = true -> pieces sep (String c r) = pieces sep r.
Proof. intros H. unfold pieces. simpl. now rewrite H. Qed.

Lemma first_piece_cons_sep (c : ascii) (r : string) :
  sep c = true -> first_piece sep (String c r) = "".
Proof. intros H. unfold first_piece. simpl. now rewrite H. Qed.

Lemma rest_pieces_cons_sep (c : ascii) (r : string) :
  sep c = true -> rest_pieces sep (String c r) = pieces sep r.
Proof. intros H. unfold rest_pieces, pieces. simpl. now rewrite H. Qed.

Lemma same_pieces_cons (c : ascii) (x y : string) :
  same_pieces sep x y -> same_pieces sep (String c x) (String c y).
Proof.
  intros [H1 H2]. unfold same_pieces, first_piece, rest_pieces in *. simpl.
  destruct (sep c) eqn:E; simpl.
  - split; [reflexivity|].
    change (pieces sep x = pieces sep y). apply same_pieces_pieces. now split.
  - rewrite (split_by_view x), (split_by_view y). simpl. unfold first_piece.
    now rewrite H1, H2.
Qed.

Lemma same_pieces_refl (x : string) : same_pieces sep x x.
Proof. now split. Qed.

Lemma split_by_app_sep (a b : string) (c : ascii) :
  sep c = true ->
  split_by sep (a ++ String c b) = split_by sep a ++ split_by sep b.
Proof.
  intros Hc. induction a as [|x a IH]; simpl.
  - now rewrite Hc.
  - rewrite IH. destruct (sep x); [reflexivity|].
    rewrite (split_by_view a). reflexivity.
Qed.

Lemma pieces_app_sep (a b : string) (c : ascii) :
  sep c = true -> pieces sep (a ++ String c b) = pieces sep a ++ pieces sep b.
Proof.
  intros Hc. unfold pieces. rewrite (split_by_app_sep a b c Hc).
  apply filter_app.
Qed.

(** Runs of separators may be replaced by one space. *)
Lemma replace_runs_pieces (bad : ascii -> bool) (s : string) :
  (forall c, bad c = true -> sep c = true) -> sep " " = true ->
  same_pieces sep (replace_runs bad false s) s
  /\ pieces sep (replace_runs bad true s) = pieces sep s.
Proof.
  intros Hbad Hsp. induction s as [|c r [IHf IHt]]; simpl.
  - split; [apply same_pieces_refl | reflexivity].
  - destruct (bad c) eqn:E.
    + pose proof (Hbad c E) as Hc. split.
      * split.
        -- now rewrite !first_piece_cons_sep.
        -- now rewrite !rest_pieces_cons_sep.
      * now rewrite (pieces_cons_sep c r Hc).
    + split.
      * now apply same_pieces_cons.
      * now apply same_pieces_pieces, same_pieces_cons.
Qed.

Lemma trimStart_pieces (s : string) :
  (forall c, is_space c = true -> sep c = true) ->
  pieces sep (trimStart s) = pieces sep s.
Proof.
  intros Hsp. induction s as [|c r IH]; simpl; [reflexivity|].
  destruct (is_space c) eqn:E; [|reflexivity].
  now rewrite IH, (pieces_cons_sep c r (Hsp c E)).
Qed.

Lemma trimEnd_pieces (s : string) :
  (forall c, is_space c = true -> sep c = true) ->
  same_pieces sep (trimEnd s) s.
Proof.
  intros Hsp. induction s as [|c r IH]; simpl; [apply same_pieces_refl|].
  destruct (is_space c) eqn:E; simpl.
  - destruct (String.eqb_spec (trimEnd r) "") as [E0|E0].
    + rewrite E0 in IH. apply same_pieces_pieces in IH.
      split.
      * now rewrite first_piece_cons_sep by auto.
      * rewrite rest_pieces_cons_sep by auto. now rewrite <- IH.
    + now apply same_pieces_cons.
  - now apply same_pieces_cons.
Qed.

Lemma trim_pieces (s : string) :
  (forall c, is_space c = true -> sep c = true) ->
  pieces sep (trim s) = pieces sep s.
Proof.
  intros Hsp. unfold trim.
  rewrite (same_pieces_pieces _ _ (trimEnd_pieces _ Hsp)).
  now apply trimStart_pieces.
Qed.


Lemma split_by_word (w : string) :
  string_forall (fun c => negb (sep c)) w = true -> split_by sep w = [w].
Proof.
  induction w as [|c r IH]; simpl; intros H; [reflexivity|].
  apply andb_true_iff in H. destruct H as [Hc Hr].
  apply negb_true_iff in Hc. rewrite Hc, (IH Hr). reflexivity.
Qed.

End Pieces.

Lemma split_by_ext (sep1 sep2 : ascii -> bool) (P : ascii -> bool) (s : string) :
  (forall c, P c = true -> sep1 c = sep2 c) ->
  string_forall P s = true -> split_by sep1 s = split_by sep2 s.
Proof.
  intros Hext. induction s as [|c r IH]; simpl; intros H; [reflexivity|].
  apply andb_true_iff in H. destruct H as [Hc Hr].
  now rewrite (Hext c Hc), (IH Hr).
Qed.

Lemma string_forall_app (P : ascii -> bool) (a b : string) :
  string_forall P (a ++ b) = string_forall P a && string_forall P b.
Proof.
  induction a as [|c a IH]; simpl; [reflexivity|].
  now rewrite IH, andb_assoc.
Qed.

Lemma string_forall_impl (P Q : ascii -> bool) (s : string) :
  (forall c, P c = true -> Q c = true) ->
  string_forall P s = true -> string_forall Q s = true.
Proof.
  intros HPQ. induction s as [|c r IH]; simpl; [reflexivity|].
  intros H. apply andb_true_iff in H. destruct H as [Hc Hr].
  now rewrite (HPQ c Hc), (IH Hr).
Qed.

Lemma replace_runs_forall (bad P : ascii -> bool) (b : bool) (s : string) :
  P " "%char = true ->
  (forall c, bad c = false -> P c = true) ->
  string_forall P (replace_runs bad b s) = true.
Proof.
  intros Hsp HP. revert b. induction s as [|c r IH]; intros b; simpl; [reflexivity|].
  destruct (bad c) eqn:E.
  - destruct b; simpl; [apply IH | rewrite Hsp; apply IH].
  - simpl. now rewrite (HP c E), IH.
Qed.

Lemma replace_runs_keeps (bad P : ascii -> bool) (b : bool) (s : string) :
  P " "%char = true ->
  string_forall P s = true -> string_forall P (replace_runs bad b s) = true.
Proof.
  intros Hsp. revert b. induction s as [|c r IH]; intros b; simpl; [reflexivity|].
  intros H. apply andb_true_iff in H. destruct H as [Hc Hr].
  destruct (bad c); [destruct b|]; simpl; rewrite ?Hsp, ?Hc; simpl; now apply IH.
Qed.

Lemma trimStart_forall (P : ascii -> bool) (s : string) :
  string_forall P s = true -> string_forall P (trimStart s) = true.
Proof.
  induction s as [|c r IH]; simpl; [reflexivity|].
  intros H. destruct (is_space c); [|exact H].
  apply andb_true_iff in H. now apply IH.
Qed.

Lemma trimEnd_forall (P : ascii -> bool) (s : string) :
  string_forall P s = true -> string_forall P (trimEnd s) = true.
Proof.
  induction s as [|c r IH]; simpl; [reflexivity|].
  intros H. apply andb_true_iff in H. destruct H as [Hc Hr].
  destruct (is_space c && _); simpl; [reflexivity|]. now rewrite Hc, IH.
Qed.

Lemma normalizeText_chars (t : string) :
  string_forall alnum_or_space (normalizeText t) = true.
Proof.
  unfold normalizeText, trim.
  apply trimEnd_forall, trimStart_forall, replace_runs_keeps; [reflexivity|].
  apply replace_runs_forall; [reflexivity|].
  intros c Hc. unfold alnum_or_space, not_alnum in *.
  apply negb_false_iff in Hc. now rewrite Hc.
Qed.

Lemma map_chars_id (f : ascii -> ascii) (P : ascii -> bool) (s : string) :
  (forall c, P c = true -> f c = c) ->
  string_forall P s = true -> map_chars f s = s.
Proof.
  intros Hf. induction s as [|c r IH]; simpl; [reflexivity|].
  intros H. apply andb_true_iff in H. destruct H as [Hc Hr].
  now rewrite (Hf c Hc), (IH Hr).
Qed.

Lemma map_chars_app (f : ascii -> ascii) (a b : string) :
  map_chars f (a ++ b) = (map_chars f a ++ map_chars f b)%string.
Proof. induction a as [|c a IH]; simpl; [reflexivity | now rewrite IH]. Qed.





(** The pieces of the normalised text are the words of the text. *)
Lemma normalizeText_pieces (t : string) :
  pieces not_alnum (normalizeText t) = words t.
Proof.
  unfold normalizeText, words.
  rewrite trim_pieces by apply space_not_alnum.
  rewrite (same_pieces_pieces _ _ _
             (proj1 (replace_runs_pieces not_alnum is_space _ space_not_alnum eq_refl))).
  apply same_pieces_pieces.
  apply (replace_runs_pieces not_alnum not_alnum); [auto | reflexivity].
Qed.

(** [text_tokens], what the code computes, are the words. *)
Lemma text_tokens_words (t : string) : text_tokens t = words t.
Proof.
  unfold text_tokens, split_ws, split.
  change (filter truthy (split_by ?f ?s)) with (pieces f s).
  assert (Hc : string_forall alnum_or_space
                 (replace_runs is_space false (normalizeText t)) = true).
  { apply replace_runs_keeps; [reflexivity | apply normalizeText_chars]. }
  unfold pieces.
  rewrite (split_by_ext _ not_alnum alnum_or_space _ space_eq_not_alnum Hc).
  change (filter truthy (split_by ?f ?s)) with (pieces f s).
  rewrite (same_pieces_pieces _ _ _
             (proj1 (replace_runs_pieces not_alnum is_space _ space_not_alnum eq_refl))).
  apply normalizeText_pieces.
Qed.



Lemma toLowerCase_normal (s : string) :
  string_forall alnum_or_space s = true -> toLowerCase s = s.
Proof. apply map_chars_id, lower_alnum_or_space. Qed.


Lemma words_app_space (a b : string) :
  words (a ++ " " ++ b) = words a ++ words b.
Proof.
  unfold words, toLowerCase. rewrite map_chars_app. simpl.
  now apply pieces_app_sep.
Qed.



(** ** The topic filter *)

Lemma get_of_pairs_In {V : Type} (l : list (string * V)) (k : string) (v : V) :
  JsMap.get (JsMap.of_pairs l) k = Some v -> In (k, v) l.
Proof.
  unfold JsMap.of_pairs.
  assert (G : forall m, JsMap.get (fold_left (fun m kv => JsMap.set m (fst kv) (snd kv)) l m) k
                        = Some v -> In (k, v) l \/ JsMap.get m k = Some v).
  { induction l as [|[k0 v0] l IH]; intros m H; simpl in *; [now right|].
    destruct (IH _ H) as [Hin | Hg]; [left; now right|].
    rewrite get_set in Hg. destruct (String.eqb_spec k0 k) as [->|Hne].
    - left. left. congruence.
    - now right. }
  intros H. destruct (G [] H) as [Hin | Hg]; [assumption | discriminate].
Qed.




Lemma of_list_nil (l : list string) : JsMap.of_list l = [] -> l = [].
Proof.
  intros H. destruct l as [|x l]; [reflexivity|].
  assert (Hx : In x (JsMap.of_list (x :: l))) by (apply In_of_list; now left).
  rewrite H in Hx. contradiction.
Qed.

Lemma fuzzyQueryMatch_spec (query text : string) :
  fuzzyQueryMatch query text = true
  <-> forall q, In q (words query) ->
                exists t, In t (words text) /\ stem t = stem q.
Proof.
  unfold fuzzyQueryMatch, tokenize. rewrite !text_tokens_words.
  destruct (Nat.eqb_spec (List.length (JsMap.of_list (map stem (words query)))) 0)
    as [E|E].
  - split; [|reflexivity]. intros _ q Hq.
    apply length_zero_iff_nil, of_list_nil, map_eq_nil in E.
    rewrite E in Hq. contradiction.
  - rewrite forallb_forall. split.
    + intros H q Hq.
      assert (Hin : In (stem q) (JsMap.of_list (map stem (words query)))).
      { apply In_of_list, in_map, Hq. }
      apply H, existsb_exists in Hin. destruct Hin as (tt & Htt & Heq).
      unfold strongTokenMatch in Heq. apply String.eqb_eq in Heq.
      apply In_of_list, in_map_iff in Htt. destruct Htt as (t & Ht & Hin).
      exists t. split; [assumption | congruence].
    + intros H qt Hqt. apply In_of_list, in_map_iff in Hqt.
      destruct Hqt as (q & <- & Hq). destruct (H q Hq) as (t & Ht & Heq).
      apply existsb_exists. exists (stem t). split.
      * apply In_of_list, in_map, Ht.
      * unfold strongTokenMatch. now apply String.eqb_eq.
Qed.






(** ** The co-authorship graph *)

Lemma In_set {V : Type} (m : JsMap.t V) (k0 : string) (v0 : V) (k : string) (v : V) :
  In (k, v) (JsMap.set m k0 v0) -> In (k, v) m \/ v = v0.
Proof.
  induction m as [|[k1 v1] m IH]; simpl.
  - intros [E | []]. inversion E. now right.
  - destruct (k1 =? k0); simpl.
    + intros [E | H]; [inversion E; now right | left; now right].
    + intros [E | H]; [left; now left|].
      destruct (IH H) as [H' | H']; [left; now right | now right].
Qed.

Lemma get_In {V : Type} (m : JsMap.t V) (k : string) (v : V) :
  JsMap.get m k = Some v -> In (k, v) m.
Proof.
  induction m as [|[k1 v1] m IH]; simpl; [discriminate|].
  destruct (String.eqb_spec k1 k) as [->|Hne].
  - intros E. inversion E. now left.
  - intros H. right. now apply IH.
Qed.

Lemma In_insert_string (x y : string) (l : list string) :
  In y (insert_string x l) -> y = x \/ In y l.
Proof.
  induction l as [|z l IH]; simpl.
  - intros [<- | []]. now left.
  - destruct (String.leb x z); simpl.
    + intros [<- | H]; [now left | now right].
    + intros [<- | H]; [right; now left|].
      destruct (IH H) as [-> | H']; [now left | right; now right].
Qed.

Lemma In_sort_strings (y : string) (l : list string) :
  In y (sort_strings l) -> In y l.
Proof.
  induction l as [|x l IH]; simpl; [auto|].
  intros H. destruct (In_insert_string _ _ _ H) as [-> | H']; [now left|].
  right. now apply IH.
Qed.

Lemma In_pairs_of (l : list string) (a b : string) :
  In (a, b) (pairs_of l) -> In a l /\ In b l.
Proof.
  induction l as [|x l IH]; simpl; [contradiction|].
  intros H. apply in_app_or in H. destruct H as [H | H].
  - apply in_map_iff in H. destruct H as (y & E & Hy). inversion E; subst.
    split; [now left | now right].
  - destruct (IH H). split; now right.
Qed.

Lemma key_ends_pair (a b : string) :
  pipe_free a = true -> pipe_free b = true -> key_ends (pair_key (a, b)) = (a, b).
Proof.
  intros Ha Hb. unfold key_ends, pair_key, split. simpl fst. simpl snd.
  change (a ++ "|" ++ b)%string with (a ++ String "|" b)%string.
  rewrite split_by_app_sep by reflexivity.
  rewrite (split_by_word _ a), (split_by_word _ b); [reflexivity | |];
    unfold pipe_free in *; assumption.
Qed.

Section GraphInvariant.
Variable ids : list string.

Lemma add_work_keys (widToPub : JsMap.t Pub) (w : string * JsMap.sset)
    (st : JsMap.t nat * JsMap.t (list (option Pub))) :
  (forall x, In x (snd w) -> In x ids) ->
  keys_within ids (fst st) -> keys_within ids (fst (add_work widToPub st w)).
Proof.
  intros Hw. unfold add_work.
  assert (Hp : forall ab, In ab (pairs_of (sort_strings (snd w))) ->
                          In (fst ab) ids /\ In (snd ab) ids).
  { intros [a b] Hab. apply In_pairs_of in Hab. destruct Hab as [Ha Hb].
    split; apply Hw, In_sort_strings; assumption. }
  revert st Hp. induction (pairs_of (sort_strings (snd w))) as [|ab l IH];
    intros st Hp Hst; simpl; [assumption|].
  apply IH; [intros ab' H; apply Hp; now right|].
  unfold add_pair. simpl. intros key Hkey.
  rewrite keys_bump in Hkey. apply In_sadd in Hkey. destruct Hkey as [Hkey | ->].
  - now apply Hst.
  - destruct ab as [a b]. exists a, b. split; [reflexivity|].
    apply (Hp (a, b)). now left.
Qed.

Lemma pair_loop_keys (widToPub : JsMap.t Pub) (byWork : JsMap.t JsMap.sset)
    (st : JsMap.t nat * JsMap.t (list (option Pub))) :
  sets_within ids byWork -> keys_within ids (fst st) ->
  keys_within ids (fst (fold_left (add_work widToPub) byWork st)).
Proof.
  revert st. induction byWork as [|[wid s] byWork IH]; intros st Hw Hst; simpl.
  - assumption.
  - apply IH.
    + intros wid' s' H. apply (Hw wid' s'). now right.
    + apply add_work_keys; [|assumption].
      simpl. apply (Hw wid s). now left.
Qed.

(** The endpoints of every edge are ids of [ids], when these carry no
    pipe. *)
Lemma buildGraph_edges (levelOf : JsMap.t string) (byWork : JsMap.t JsMap.sset)
    (nameOf : JsMap.t string) (selectedPubs : list Pub) (e : Edge) :
  (forall x, In x ids -> pipe_free x = true) ->
  sets_within ids byWork ->
  In e (edges (buildGraphFromPairs levelOf byWork nameOf selectedPubs)) ->
  In (e_a e) ids /\ In (e_b e) ids.
Proof.
  intros Hfree Hw. unfold buildGraphFromPairs.
  pose proof (pair_loop_keys (widToPub_of selectedPubs) byWork ([], []) Hw) as Hk.
  destruct (fold_left (add_work (widToPub_of selectedPubs)) byWork ([], []))
    as [pairCounts pairPubs].
  simpl in Hk. simpl edges. intros He.
  apply in_flat_map in He. destruct He as ([key n] & Hin & He).
  assert (Hkey : In key (JsMap.keys pairCounts)).
  { unfold JsMap.keys. change key with (fst (key, n)). now apply in_map. }
  destruct (Hk (fun _ H => match H with end) key Hkey) as (a & b & -> & Ha & Hb).
  pose proof (key_ends_pair a b (Hfree a Ha) (Hfree b Hb)) as Hends.
  unfold key_ends in Hends.
  pose proof (f_equal fst Hends) as E0. pose proof (f_equal snd Hends) as E1.
  cbn [fst snd] in E0, E1.
  change (fst (pair_key (a, b), n)) with (pair_key (a, b)) in He.
  rewrite E0, E1 in He.
  destruct (negb _ || negb _); [contradiction|].
  destruct He as [<- | []]. simpl. now split.
Qed.

Lemma add_authorship_within (selectedWorkIDs : JsMap.sset) (nameOf : JsMap.t string)
    (rows : list AuthorshipRow) (byWork : JsMap.t JsMap.sset) :
  (forall k, JsMap.has nameOf k = true -> In k ids) ->
  sets_within ids byWork ->
  sets_within ids (fold_left (add_authorship selectedWorkIDs nameOf) rows byWork).
Proof.
  intros Hname. revert byWork. induction rows as [|row rows IH]; intros byWork Hw; simpl.
  - assumption.
  - apply IH. unfold add_authorship.
    destruct (negb (JsMap.shas _ _)); [assumption|].
    destruct (JsMap.has nameOf _) eqn:Eh; simpl; [|assumption].
    intros wid s Hin x Hx. apply In_set in Hin. destruct Hin as [Hin | ->].
    + now apply (Hw wid s).
    + apply In_sadd in Hx. destruct Hx as [Hx | ->]; [|now apply Hname].
      destruct (JsMap.get byWork _) as [s0|] eqn:Eg; [|contradiction].
      apply get_In in Eg. now apply (Hw _ _ Eg).
Qed.

Lemma add_canon_within (roster : list RosterRow) :
  (forall r, In r roster -> In (idNorm (OpenAlexID r)) ids) ->
  forall m m',
    (forall k l, In (k, l) m -> forall x, In x l -> In x ids) ->
    foldM add_canon roster m = Some m' ->
    forall k l, In (k, l) m' -> forall x, In x l -> In x ids.
Proof.
  induction roster as [|r roster IH]; intros Hr m m' Hm H; simpl in H.
  - inversion H. now subst.
  - unfold bind in H at 1. destruct (add_canon m r) as [m1|] eqn:E1; [|discriminate].
    apply (IH (fun r' H' => Hr r' (or_intror H')) m1 m'); [|assumption].
    unfold add_canon, bind in E1. destruct (canonName (Name r)) as [cn|]; [|discriminate].
    inversion E1; subst m1. intros k l Hin x Hx.
    apply In_set in Hin. destruct Hin as [Hin | ->]; [now apply (Hm k l)|].
    apply in_app_or in Hx. destruct Hx as [Hx | [<- | []]].
    + destruct (JsMap.get m cn) as [l0|] eqn:Eg; [|contradiction].
      apply get_In in Eg. now apply (Hm _ _ Eg).
    + apply Hr. now left.
Qed.

Lemma ids_on_work_within (rosterByCanon : JsMap.t (list string)) (names : list string) :
  (forall k l, In (k, l) rosterByCanon -> forall x, In x l -> In x ids) ->
  forall s s', (forall x, In x s -> In x ids) ->
    foldM (fun s n =>
             bind (canonName n)
                  (fun cn => match JsMap.get rosterByCanon cn with
                             | Some hits => Some (fold_left JsMap.sadd hits s)
                             | None => Some s
                             end)) names s = Some s' ->
    forall x, In x s' -> In x ids.
Proof.
  intros Hm. induction names as [|n names IH]; intros s s' Hs H; simpl in H.
  - inversion H. now subst.
  - unfold bind in H at 1.
    destruct (bind (canonName n) _) as [s1|] eqn:E1; [|discriminate].
    apply (IH s1 s'); [|assumption].
    unfold bind in E1. destruct (canonName n) as [cn|]; [|discriminate].
    destruct (JsMap.get rosterByCanon cn) as [hits|] eqn:Eg.
    + inversion E1; subst s1. apply get_In in Eg.
      assert (G : forall l t, (forall x, In x t -> In x ids) ->
                              (forall x, In x l -> In x ids) ->
                              forall x, In x (fold_left JsMap.sadd l t) -> In x ids).
      { induction l as [|y l IHl]; intros t Ht Hl x Hx; simpl in Hx; [now apply Ht|].
        apply (IHl (JsMap.sadd t y)); [| intros z Hz; apply Hl; now right | assumption].
        intros z Hz. apply In_sadd in Hz. destruct Hz as [Hz | ->];
          [now apply Ht | apply Hl; now left]. }
      apply G; [assumption | apply (Hm _ _ Eg)].
    + inversion E1; now subst.
Qed.

Lemma add_pub_by_names_within (rosterByCanon : JsMap.t (list string))
    (pubs : list Pub) :
  (forall k l, In (k, l) rosterByCanon -> forall x, In x l -> In x ids) ->
  forall byWork byWork',
    sets_within ids byWork ->
    foldM (add_pub_by_names rosterByCanon) pubs byWork = Some byWork' ->
    sets_within ids byWork'.
Proof.
  intros Hm. induction pubs as [|p pubs IH]; intros byWork byWork' Hw H; simpl in H.
  - inversion H. now subst.
  - unfold bind in H at 1.
    destruct (add_pub_by_names rosterByCanon byWork p) as [b1|] eqn:E1; [|discriminate].
    apply (IH b1 byWork'); [|assumption].
    unfold add_pub_by_names in E1.
    destruct (negb (truthy _)); [inversion E1; now subst|].
    unfold bind in E1.
    destruct (ids_on_work rosterByCanon _) as [s|] eqn:Es; [|discriminate].
    destruct (2 <=? List.length s)%nat; inversion E1; subst b1; [|assumption].
    intros wid s' Hin x Hx. apply In_set in Hin. destruct Hin as [Hin | ->].
    + now apply (Hw wid s').
    + eapply (ids_on_work_within rosterByCanon _ Hm [] s); eauto.
      intros ? [].
Qed.

End GraphInvariant.

(** C5 (amended). When no id of the contributing roster contains the
    character "|", both endpoints of every edge that the graph builder
    produces, on the authorship-table path and on the name-matching path,
    are ids of the contributing roster. *)
Theorem coauthor_edges_within_roster (authorshipData : list AuthorshipRow)
    (contributingRoster : list RosterRow) (selectedPubs : list Pub)
    (g : Graph) (e : Edge) :
  (forall id, In id (roster_ids contributingRoster) -> pipe_free id = true) ->
  computeCoauthorGraph authorshipData contributingRoster selectedPubs = Some g ->
  In e (edges g) ->
  In (e_a e) (roster_ids contributingRoster)
  /\ In (e_b e) (roster_ids contributingRoster).
Proof.
  intros Hfree Hg He. unfold computeCoauthorGraph in Hg.
  set (ids := roster_ids contributingRoster) in *.
  destruct (nonempty authorshipData).
  - inversion Hg; subst g. clear Hg.
    eapply (buildGraph_edges ids); [exact Hfree | | exact He].
    apply add_authorship_within; [|intros ? ? H0; destruct H0].
    intros k Hk. unfold JsMap.has in Hk.
    destruct (JsMap.get _ k) as [v|] eqn:Eg; [|discriminate].
    apply get_of_pairs_In, in_map_iff in Eg. destruct Eg as (r & Er & Hr).
    inversion Er; subst. unfold ids, roster_ids.
    apply (in_map (fun r => idNorm (OpenAlexID r))), Hr.
  - unfold bind in Hg.
    destruct (foldM add_canon contributingRoster []) as [rosterByCanon|] eqn:Ec;
      [|discriminate].
    destruct (foldM (add_pub_by_names rosterByCanon) selectedPubs [])
      as [byWork|] eqn:Eb; [|discriminate].
    inversion Hg; subst g. clear Hg.
    eapply (buildGraph_edges ids); [exact Hfree | | exact He].
    assert (Hcanon : forall k l, In (k, l) rosterByCanon ->
                                 forall x, In x l -> In x ids).
    { apply (add_canon_within ids contributingRoster) with (m := []);
        [| intros ? ? H0; destruct H0 | exact Ec].
      intros r Hr. unfold ids, roster_ids.
      apply (in_map (fun r => idNorm (OpenAlexID r))), Hr. }
    apply (add_pub_by_names_within ids rosterByCanon selectedPubs Hcanon [] byWork);
      [intros ? ? H0; destruct H0 | exact Eb].
Qed.

(** C5 on a concrete selection, authorship-table path: works W1 (A1, A2)
    and W2 (A1 alone) selected, W3 not selected. *)
Lemma coauthor_edges_within_roster_witness :
  let rows := [mkAuthorship "https://openalex.org/W1" "A1";
               mkAuthorship "W1" "https://openalex.org/A2";
               mkAuthorship "W2" "A1";
               mkAuthorship "W3" "A1"; mkAuthorship "W3" "A2"] in
  let roster := [mkRoster "A1" "Ada"; mkRoster "A2" "Bob"] in
  let pubs := [mkPubAuthors "W1" ""; mkPubAuthors "W2" ""] in
  exists g e,
    computeCoauthorGraph rows roster pubs = Some g
    /\ edges g = [e] /\ e_a e = "A1" /\ e_b e = "A2" /\ e_count e = 1
    /\ In (e_a e) (roster_ids roster) /\ In (e_b e) (roster_ids roster).
Proof.
  intros rows roster pubs.
  eexists. eexists.
  split; [vm_compute; reflexivity|].
  split; [reflexivity|].
  split; [reflexivity|]. split; [reflexivity|]. split; [reflexivity|].
  eapply (coauthor_edges_within_roster rows roster pubs).
  - intros id [<- | [<- | []]]; reflexivity.
  - vm_compute. reflexivity.
  - left. reflexivity.
Defined.

(** C5 as stated fails: with the roster ids "x|y" and "z" on one work the
    pair key "x|y|z" is split into the endpoints "x" and "y", neither of
    which is an id of the roster. *)
Lemma coauthor_edge_outside_roster :
  let rows := [mkAuthorship "W1" "x|y"; mkAuthorship "W1" "z"] in
  let roster := [mkRoster "x|y" "Ada"; mkRoster "z" "Bob"] in
  let pubs := [mkPubAuthors "W1" ""] in
  exists g e,
    computeCoauthorGraph rows roster pubs = Some g
    /\ In e (edges g)
    /\ e_a e = "x" /\ e_b e = "y"
    /\ roster_ids roster = ["x|y"; "z"]
    /\ ~ In (e_a e) (roster_ids roster)
    /\ ~ In (e_b e) (roster_ids roster).
Proof.
  intros rows roster pubs.
  eexists. eexists.
  split; [vm_compute; reflexivity|].
  split; [left; reflexivity|].
  split; [reflexivity|]. split; [reflexivity|]. split; [reflexivity|].
  split; intros [H | [H | []]]; discriminate.
Qed.

(** ** Binary64 arithmetic: digits, shifts and rounding *)

Local Open Scope Z_scope.

Lemma fexp_is_fexp64 (x : Z) : fexp Num.prec Num.emax x = fexp64 x.
Proof. reflexivity. Qed.

Lemma digits2_pos_bounds (p : positive) :
  2 ^ (Zpos (digits2_pos p) - 1) <= Zpos p < 2 ^ Zpos (digits2_pos p).
Proof.
  induction p as [p IH | p IH |]; simpl digits2_pos.
  - rewrite Pos2Z.inj_succ.
    replace (Z.succ (Zpos (digits2_pos p)) - 1) with (Z.succ (Zpos (digits2_pos p) - 1)) by lia.
    rewrite !Z.pow_succ_r by lia. lia.
  - rewrite Pos2Z.inj_succ.
    replace (Z.succ (Zpos (digits2_pos p)) - 1) with (Z.succ (Zpos (digits2_pos p) - 1)) by lia.
    rewrite !Z.pow_succ_r by lia. lia.
  - simpl. lia.
Qed.

Lemma Zdigits2_nonneg (m : Z) : 0 <= Zdigits2 m.
Proof. destruct m; simpl; lia. Qed.

Lemma Zdigits2_pos (m : Z) : 0 < m -> 1 <= Zdigits2 m.
Proof. destruct m; simpl; lia. Qed.

Lemma Zdigits2_upper (m : Z) : 0 <= m -> m < 2 ^ Zdigits2 m.
Proof.
  destruct m as [|p|p]; simpl; intros H; [lia | apply digits2_pos_bounds | lia].
Qed.

Lemma Zdigits2_lower (m : Z) : 0 < m -> 2 ^ (Zdigits2 m - 1) <= m.
Proof.
  destruct m as [|p|p]; simpl; intros H; [lia | apply digits2_pos_bounds | lia].
Qed.

(** [m < 2^k] bounds the number of digits by [k]. *)
Lemma Zdigits2_le (m k : Z) : 0 <= m -> 0 <= k -> m < 2 ^ k -> Zdigits2 m <= k.
Proof.
  intros Hm Hk Hlt. destruct (Z.eq_dec m 0) as [->|Hne]; [simpl; lia|].
  pose proof (Zdigits2_lower m ltac:(lia)) as Hlo.
  destruct (Z_le_gt_dec (Zdigits2 m) k) as [H|H]; [assumption|].
  exfalso. assert (2 ^ k <= 2 ^ (Zdigits2 m - 1)) by (apply Z.pow_le_mono_r; lia).
  lia.
Qed.

(** [2^k <= m] gives more than [k] digits. *)
Lemma Zdigits2_gt (m k : Z) : 0 <= k -> 2 ^ k <= m -> k + 1 <= Zdigits2 m.
Proof.
  intros Hk Hle.
  assert (Hm : 0 < m) by (pose proof (Z.pow_pos_nonneg 2 k); lia).
  pose proof (Zdigits2_upper m ltac:(lia)) as Hup.
  destruct (Z_le_gt_dec (k + 1) (Zdigits2 m)) as [H|H]; [assumption|].
  exfalso. pose proof (Zdigits2_nonneg m).
  assert (2 ^ Zdigits2 m <= 2 ^ k) by (apply Z.pow_le_mono_r; lia).
  lia.
Qed.

Lemma Zdigits2_mono (m m' : Z) : 0 <= m -> m <= m' -> Zdigits2 m <= Zdigits2 m'.
Proof.
  intros Hm Hle. apply Zdigits2_le; [assumption | apply Zdigits2_nonneg|].
  pose proof (Zdigits2_upper m' ltac:(lia)). lia.
Qed.

Lemma Zdigits2_succ (m : Z) : 0 <= m -> Zdigits2 (m + 1) <= Zdigits2 m + 1.
Proof.
  intros Hm. pose proof (Zdigits2_nonneg m).
  apply Zdigits2_le; [lia | lia |].
  pose proof (Zdigits2_upper m Hm). rewrite Z.pow_add_r by lia.
  pose proof (Z.pow_pos_nonneg 2 (Zdigits2 m)). simpl (2 ^ 1). lia.
Qed.

(** Digits of a quotient by a power of two. *)
Lemma Zdigits2_div_pow (m n : Z) :
  0 <= m -> 0 <= n -> Zdigits2 (m / 2 ^ n) <= Z.max (Zdigits2 m - n) 0.
Proof.
  intros Hm Hn. pose proof (Z.pow_pos_nonneg 2 n ltac:(lia) Hn) as Hp.
  assert (Hq : 0 <= m / 2 ^ n) by (apply Z.div_pos; lia).
  apply Zdigits2_le; [assumption | lia |].
  pose proof (Zdigits2_upper m Hm) as Hup. pose proof (Zdigits2_nonneg m).
  destruct (Z_le_gt_dec n (Zdigits2 m)) as [H'|H'].
  - rewrite Z.max_l by lia. apply Z.div_lt_upper_bound; [lia|].
    rewrite <- Z.pow_add_r by lia. now replace (n + (Zdigits2 m - n)) with (Zdigits2 m) by lia.
  - rewrite Z.max_r by lia. simpl. apply Z.div_lt_upper_bound; [lia|].
    assert (2 ^ Zdigits2 m <= 2 ^ n) by (apply Z.pow_le_mono_r; lia). lia.
Qed.

Lemma div_pow_lower (m n : Z) :
  0 < m -> 0 <= n -> n < Zdigits2 m -> 2 ^ (Zdigits2 m - 1 - n) <= m / 2 ^ n.
Proof.
  intros Hm Hn Hlt. pose proof (Z.pow_pos_nonneg 2 n ltac:(lia) Hn) as Hp.
  apply Z.div_le_lower_bound; [lia|].
  rewrite <- Z.pow_add_r by lia.
  replace (n + (Zdigits2 m - 1 - n)) with (Zdigits2 m - 1) by lia.
  now apply Zdigits2_lower.
Qed.

(** *** Shifting a mantissa *)

Lemma shr_1_m (mrs : shr_record) :
  0 <= shr_m mrs -> shr_m (shr_1 mrs) = shr_m mrs / 2.
Proof.
  destruct mrs as [m r s]. simpl. intros Hm.
  destruct m as [|[p|p|]|p]; simpl; try reflexivity; try lia.
  - rewrite Pos2Z.inj_xI. apply Z.div_unique with (r := 1); lia.
  - rewrite Pos2Z.inj_xO. apply Z.div_unique with (r := 0); lia.
Qed.

Lemma iter_shr_1_m (p : positive) (mrs : shr_record) :
  0 <= shr_m mrs ->
  shr_m (iter_pos shr_1 p mrs) = shr_m mrs / 2 ^ Zpos p.
Proof.
  revert mrs. induction p as [p IH | p IH |]; intros mrs Hm; simpl iter_pos.
  - assert (H1 : 0 <= shr_m (shr_1 mrs))
      by (rewrite shr_1_m by assumption; apply Z.div_pos; lia).
    assert (H2 : 0 <= shr_m (iter_pos shr_1 p (shr_1 mrs)))
      by (rewrite IH by assumption; apply Z.div_pos; [lia | apply Z.pow_pos_nonneg; lia]).
    rewrite IH, IH, shr_1_m by assumption.
    rewrite !Z.div_div by (try apply Z.pow_pos_nonneg; lia).
    f_equal. replace (Zpos p~1) with (1 + Zpos p + Zpos p) by lia.
    rewrite !Z.pow_add_r by lia. change (2 ^ 1) with 2. lia.
  - assert (H2 : 0 <= shr_m (iter_pos shr_1 p mrs))
      by (rewrite IH by assumption; apply Z.div_pos; [lia | apply Z.pow_pos_nonneg; lia]).
    rewrite IH, IH by assumption.
    rewrite !Z.div_div by (try apply Z.pow_pos_nonneg; lia).
    f_equal. replace (Zpos p~0) with (Zpos p + Zpos p) by lia.
    now rewrite Z.pow_add_r by lia.
  - rewrite shr_1_m by assumption. reflexivity.
Qed.

Lemma shr_fexp_spec (m e : Z) (l : location) :
  0 <= m ->
  (shr_m (fst (shr_fexp Num.prec Num.emax m e l)),
   snd (shr_fexp Num.prec Num.emax m e l))
  = shift_right m e (fexp64 (Zdigits2 m + e) - e).
Proof.
  intros Hm. unfold shr_fexp, shr, shift_right. rewrite fexp_is_fexp64.
  assert (Hrec : shr_m (shr_record_of_loc m l) = m).
  { destruct l as [|[]]; reflexivity. }
  destruct (fexp64 (Zdigits2 m + e) - e) as [|p|p] eqn:En; cbn [fst snd Z.ltb Z.compare].
  - now rewrite Hrec.
  - rewrite iter_shr_1_m by (rewrite Hrec; assumption). now rewrite Hrec.
  - now rewrite Hrec.
Qed.

Lemma shift_right_nonneg (m e n m' e' : Z) :
  0 <= m -> (m', e') = shift_right m e n -> 0 <= m'.
Proof.
  unfold shift_right. intros Hm H. destruct (0 <? n) eqn:En; inversion H; subst.
  - apply Z.ltb_lt in En. apply Z.div_pos; [lia | apply Z.pow_pos_nonneg; lia].
  - assumption.
Qed.

Lemma round_nearest_even_cases (m : Z) (l : location) :
  round_nearest_even m l = m \/ round_nearest_even m l = m + 1.
Proof.
  unfold round_nearest_even. destruct l as [|[]]; auto.
  destruct (Z.even m); auto.
Qed.

(** Rounding [m * 2^e] from a non-negative mantissa, step by step. *)
Lemma binary_round_aux_spec (s : bool) (m e : Z) (l : location) :
  0 <= m ->
  exists m1 e1 m1' m2 e2,
    (m1, e1) = shift_right m e (fexp64 (Zdigits2 m + e) - e)
    /\ (m1' = m1 \/ m1' = m1 + 1)
    /\ (m2, e2) = shift_right m1' e1 (fexp64 (Zdigits2 m1' + e1) - e1)
    /\ binary_round_aux Num.prec Num.emax s m e l = round_result s m2 e2.
Proof.
  intros Hm. unfold binary_round_aux.
  pose proof (shr_fexp_spec m e l Hm) as H1.
  destruct (shr_fexp Num.prec Num.emax m e l) as [mrs' e'] eqn:E1.
  cbn [fst snd] in H1.
  set (m1' := round_nearest_even (shr_m mrs') (loc_of_shr_record mrs')).
  assert (Hm1 : 0 <= shr_m mrs') by (eapply shift_right_nonneg; eauto).
  assert (Hm1' : 0 <= m1').
  { unfold m1'. destruct (round_nearest_even_cases (shr_m mrs') (loc_of_shr_record mrs'));
      lia. }
  pose proof (shr_fexp_spec m1' e' loc_Exact Hm1') as H2.
  destruct (shr_fexp Num.prec Num.emax m1' e' loc_Exact) as [mrs'' e''] eqn:E2.
  cbn [fst snd] in H2.
  exists (shr_m mrs'), e', m1', (shr_m mrs''), e''.
  split; [exact H1|]. split; [apply round_nearest_even_cases|].
  split; [exact H2|]. reflexivity.
Qed.

Lemma shift_right_facts (m e n m' e' : Z) :
  0 <= m -> (m', e') = shift_right m e n ->
  0 <= m'
  /\ e' = e + Z.max n 0
  /\ Zdigits2 m' + e' <= Z.max (Zdigits2 m + e) e'
  /\ (0 < m -> n < Zdigits2 m -> 0 < m' /\ Zdigits2 m + e <= Zdigits2 m' + e').
Proof.
  unfold shift_right. intros Hm H.
  destruct (Z.ltb_spec 0 n) as [Hn|Hn]; inversion H; subst; clear H.
  - pose proof (Zdigits2_div_pow m n Hm ltac:(lia)) as Hd.
    split; [apply Z.div_pos; [lia | apply Z.pow_pos_nonneg; lia]|].
    split; [lia|]. split; [lia|].
    intros Hpos Hlt.
    pose proof (div_pow_lower m n Hpos ltac:(lia) Hlt) as Hlo.
    assert (Hp : 0 < 2 ^ (Zdigits2 m - 1 - n)) by (apply Z.pow_pos_nonneg; lia).
    split; [lia|].
    pose proof (Zdigits2_gt (m / 2 ^ n) (Zdigits2 m - 1 - n) ltac:(lia) Hlo). lia.
  - split; [assumption|]. split; [lia|]. split; [lia|]. intros; lia.
Qed.

Lemma round_step_facts (m1 m1' : Z) :
  0 <= m1 -> m1' = m1 \/ m1' = m1 + 1 ->
  0 <= m1' /\ m1 <= m1'
  /\ Zdigits2 m1 <= Zdigits2 m1' <= Zdigits2 m1 + 1.
Proof.
  intros Hm [-> | ->].
  - split; [assumption|]. split; lia.
  - split; [lia|]. split; [lia|]. split.
    + apply Zdigits2_mono; lia.
    + now apply Zdigits2_succ.
Qed.

Lemma round_result_finite (s : bool) (m2 e2 : Z) :
  0 <= m2 -> e2 <= 971 -> Num.is_finite (round_result s m2 e2) = true.
Proof.
  intros Hm He. unfold round_result. destruct m2; [reflexivity | | lia].
  destruct (Z.leb_spec e2 971); [reflexivity | lia].
Qed.

(** No overflow: a small enough magnitude rounds to a finite number. *)
Lemma binary_round_aux_finite (s : bool) (m e : Z) (l : location) :
  0 <= m -> e <= 971 -> Zdigits2 m + e <= 1023 ->
  Num.is_finite (binary_round_aux Num.prec Num.emax s m e l) = true.
Proof.
  intros Hm He Hmag.
  destruct (binary_round_aux_spec s m e l Hm)
    as (m1 & e1 & m1' & m2 & e2 & H1 & Hr & H2 & ->).
  destruct (shift_right_facts _ _ _ _ _ Hm H1) as (Hm1 & He1 & Hd1 & _).
  destruct (round_step_facts _ _ Hm1 Hr) as (Hm1' & _ & _ & Hd1').
  destruct (shift_right_facts _ _ _ _ _ Hm1' H2) as (Hm2 & He2 & _ & _).
  apply round_result_finite; [assumption|].
  unfold fexp64 in *. lia.
Qed.

(** The exponent never decreases and is at least the least exponent. *)
Lemma binary_round_aux_expo (s : bool) (m e : Z) (l : location) :
  0 <= m ->
  expo_ge (Z.max e (-1074)) (binary_round_aux Num.prec Num.emax s m e l).
Proof.
  intros Hm.
  destruct (binary_round_aux_spec s m e l Hm)
    as (m1 & e1 & m1' & m2 & e2 & H1 & Hr & H2 & ->).
  destruct (shift_right_facts _ _ _ _ _ Hm H1) as (Hm1 & He1 & _ & _).
  destruct (round_step_facts _ _ Hm1 Hr) as (Hm1' & _ & _ & _).
  destruct (shift_right_facts _ _ _ _ _ Hm1' H2) as (Hm2 & He2 & _ & _).
  unfold round_result. destruct m2; simpl; try exact I.
  destruct (e2 <=? 971); simpl; [|exact I].
  unfold fexp64 in *. lia.
Qed.

Lemma binary_round_aux_not_nan (s : bool) (m e : Z) (l : location) :
  0 <= m -> binary_round_aux Num.prec Num.emax s m e l <> S754_nan.
Proof.
  intros Hm.
  destruct (binary_round_aux_spec s m e l Hm)
    as (m1 & e1 & m1' & m2 & e2 & H1 & Hr & H2 & ->).
  destruct (shift_right_facts _ _ _ _ _ Hm H1) as (Hm1 & _).
  destruct (round_step_facts _ _ Hm1 Hr) as (Hm1' & _).
  destruct (shift_right_facts _ _ _ _ _ Hm1' H2) as (Hm2 & _).
  unfold round_result. destruct m2; [discriminate | | lia].
  destruct (e2 <=? 971); discriminate.
Qed.

(** No underflow to zero above the least magnitude. *)
Lemma binary_round_aux_nonzero (s : bool) (m e : Z) (l : location) :
  0 < m -> -1074 < Zdigits2 m + e ->
  Num.is_zero (binary_round_aux Num.prec Num.emax s m e l) = false.
Proof.
  intros Hm Hmag.
  destruct (binary_round_aux_spec s m e l (Z.lt_le_incl _ _ Hm))
    as (m1 & e1 & m1' & m2 & e2 & H1 & Hr & H2 & ->).
  destruct (shift_right_facts _ _ _ _ _ (Z.lt_le_incl _ _ Hm) H1) as (Hm1 & He1 & _ & Hlo1).
  assert (Hn1 : fexp64 (Zdigits2 m + e) - e < Zdigits2 m) by (unfold fexp64; lia).
  destruct (Hlo1 Hm Hn1) as [Hpos1 Hd1].
  destruct (round_step_facts _ _ Hm1 Hr) as (Hm1' & Hle & Hd1' & _).
  destruct (shift_right_facts _ _ _ _ _ Hm1' H2) as (Hm2 & He2 & _ & Hlo2).
  assert (Hn2 : fexp64 (Zdigits2 m1' + e1) - e1 < Zdigits2 m1') by (unfold fexp64; lia).
  destruct (Hlo2 ltac:(lia) Hn2) as [Hpos2 _].
  unfold round_result. destruct m2; [lia | | lia].
  destruct (e2 <=? 971); reflexivity.
Qed.

(** Rounding raises the magnitude by one at most. *)
Lemma binary_round_aux_mag (s s' : bool) (m e : Z) (l : location) (m' : positive) (e' : Z) :
  0 <= m ->
  binary_round_aux Num.prec Num.emax s m e l = S754_finite s' m' e' ->
  Zdigits2 (Zpos m') + e' <= Z.max (Zdigits2 m + e) (-1074) + 1.
Proof.
  intros Hm.
  destruct (binary_round_aux_spec s m e l Hm)
    as (m1 & e1 & m1' & m2 & e2 & H1 & Hr & H2 & ->).
  destruct (shift_right_facts _ _ _ _ _ Hm H1) as (Hm1 & He1 & Hd1 & _).
  destruct (round_step_facts _ _ Hm1 Hr) as (Hm1' & _ & _ & Hd1').
  destruct (shift_right_facts _ _ _ _ _ Hm1' H2) as (Hm2 & He2 & Hd2 & _).
  unfold round_result. destruct m2 as [|p|p]; try discriminate.
  destruct (e2 <=? 971); [|discriminate].
  intros E. inversion E; subst.
  pose proof (Zdigits2_nonneg m). unfold fexp64 in *. lia.
Qed.

Lemma binary_round_aux_sign (s : bool) (m e : Z) (l : location) :
  0 <= m -> has_sign s (binary_round_aux Num.prec Num.emax s m e l).
Proof.
  intros Hm. pose proof (binary_round_aux_not_nan s m e l Hm) as Hnan.
  destruct (binary_round_aux_spec s m e l Hm)
    as (m1 & e1 & m1' & m2 & e2 & _ & _ & _ & E).
  rewrite E in *. unfold round_result in *.
  destruct m2; [reflexivity | | congruence].
  destruct (e2 <=? 971); reflexivity.
Qed.

Lemma binary_round_aux_mag_le (s : bool) (m e : Z) (l : location) :
  0 <= m ->
  mag_le (Z.max (Zdigits2 m + e) (-1074) + 1)
         (binary_round_aux Num.prec Num.emax s m e l).
Proof.
  intros Hm.
  destruct (binary_round_aux Num.prec Num.emax s m e l) as [| | |s' m' e'] eqn:E;
    simpl; try exact I.
  eapply binary_round_aux_mag; eauto.
Qed.

(** *** Alignment and the rounding of an integer mantissa *)

Lemma digits2_pos_iter_xO (m d : positive) :
  Zpos (digits2_pos (Pos.iter xO m d)) = Zpos (digits2_pos m) + Zpos d.
Proof.
  induction d as [|d IH] using Pos.peano_ind.
  - simpl. lia.
  - rewrite Pos.iter_succ. simpl digits2_pos. rewrite Pos2Z.inj_succ, IH. lia.
Qed.

Lemma shl_align_facts (mx : positive) (ex ex' : Z) :
  snd (shl_align mx ex ex') = Z.min ex ex'
  /\ Zdigits2 (Zpos (fst (shl_align mx ex ex'))) + snd (shl_align mx ex ex')
     = Zdigits2 (Zpos mx) + ex.
Proof.
  unfold shl_align. destruct (ex' - ex) as [|d|d] eqn:E; cbn [fst snd].
  - split; lia.
  - split; lia.
  - split; [lia|]. simpl Zdigits2. rewrite digits2_pos_iter_xO. lia.
Qed.

Section BinaryRound.
Variables (s : bool) (mx : positive) (ex : Z).

Let mag := Zdigits2 (Zpos mx) + ex.

Lemma binary_round_unfold :
  binary_round Num.prec Num.emax s mx ex
  = binary_round_aux Num.prec Num.emax s
      (Zpos (fst (shl_align mx ex (fexp64 mag))))
      (snd (shl_align mx ex (fexp64 mag))) loc_Exact.
Proof.
  unfold binary_round.
  change (fexp Num.prec Num.emax (Zpos (digits2_pos mx) + ex)) with (fexp64 mag).
  now destruct (shl_align mx ex (fexp64 mag)).
Qed.

Lemma binary_round_finite :
  mag <= 1023 -> Num.is_finite (binary_round Num.prec Num.emax s mx ex) = true.
Proof.
  intros H. rewrite binary_round_unfold.
  destruct (shl_align_facts mx ex (fexp64 mag)) as [He Hd]. fold mag in Hd.
  apply binary_round_aux_finite; [lia | | lia].
  rewrite He. unfold fexp64. lia.
Qed.

Lemma binary_round_sign : has_sign s (binary_round Num.prec Num.emax s mx ex).
Proof. rewrite binary_round_unfold. apply binary_round_aux_sign. lia. Qed.

Lemma binary_round_expo :
  expo_ge (Z.max (Z.min ex (fexp64 mag)) (-1074))
          (binary_round Num.prec Num.emax s mx ex).
Proof.
  rewrite binary_round_unfold.
  destruct (shl_align_facts mx ex (fexp64 mag)) as [He _]. rewrite <- He.
  apply binary_round_aux_expo. lia.
Qed.

Lemma binary_round_nonzero :
  -1074 < mag -> Num.is_zero (binary_round Num.prec Num.emax s mx ex) = false.
Proof.
  intros H. rewrite binary_round_unfold.
  destruct (shl_align_facts mx ex (fexp64 mag)) as [_ Hd]. fold mag in Hd.
  apply binary_round_aux_nonzero; lia.
Qed.

Lemma binary_round_mag_le :
  mag_le (Z.max mag (-1074) + 1) (binary_round Num.prec Num.emax s mx ex).
Proof.
  rewrite binary_round_unfold.
  destruct (shl_align_facts mx ex (fexp64 mag)) as [_ Hd]. fold mag in Hd.
  pose proof (binary_round_aux_mag_le s _ (snd (shl_align mx ex (fexp64 mag)))
                loc_Exact (Pos2Z.is_nonneg (fst (shl_align mx ex (fexp64 mag))))) as H.
  rewrite Hd in H. exact H.
Qed.

End BinaryRound.

Lemma expo_ge_weaken (lo lo' : Z) (x : Num.num) :
  lo' <= lo -> expo_ge lo x -> expo_ge lo' x.
Proof. destruct x; simpl; intros; try exact I. lia. Qed.

Lemma binary_normalize_expo (z e : Z) (sz : bool) :
  expo_ge (-1074) (binary_normalize Num.prec Num.emax z e sz).
Proof.
  destruct z as [|p|p]; simpl; [exact I | |];
    (eapply expo_ge_weaken; [|apply binary_round_expo]); lia.
Qed.

(** The number of a positive length: a positive finite number that is at
    least one, or the positive infinity. *)
Lemma of_nat_shape (n : nat) :
  (1 <= n)%nat ->
  Num.of_nat n = S754_infinity false
  \/ exists m e, Num.of_nat n = S754_finite false m e /\ -52 <= e.
Proof.
  intros Hn. unfold Num.of_nat.
  destruct (Z.of_nat n) as [|p|p] eqn:E; [lia | | lia]. simpl binary_normalize.
  pose proof (binary_round_sign false p 0) as Hs.
  pose proof (binary_round_expo false p 0) as He.
  pose proof (binary_round_nonzero false p 0) as Hz.
  pose proof (Zdigits2_pos (Zpos p) ltac:(lia)) as Hd.
  destruct (binary_round Num.prec Num.emax false p 0) as [s'|s'| |s' m e];
    simpl in Hs, He.
  - specialize (Hz ltac:(lia)). discriminate.
  - subst. now left.
  - contradiction.
  - subst. right. exists m, e. split; [reflexivity|]. unfold fexp64 in He. lia.
Qed.

(** *** Division, subtraction and the centering coefficients *)

Lemma div_core_facts (m1 : positive) (e1 : Z) (m2 : positive) (e2 : Z) :
  let '(q, e', _) := SFdiv_core_binary Num.prec Num.emax (Zpos m1) e1 (Zpos m2) e2 in
  0 <= q
  /\ e' <= fexp64 (Zdigits2 (Zpos m1) + e1 - (Zdigits2 (Zpos m2) + e2))
  /\ Zdigits2 q + e' <= Zdigits2 (Zpos m1) + e1 - e2.
Proof.
  unfold SFdiv_core_binary. rewrite fexp_is_fexp64.
  set (d1 := Zdigits2 (Zpos m1)). set (d2 := Zdigits2 (Zpos m2)).
  set (e' := Z.min (fexp64 (d1 + e1 - (d2 + e2))) (e1 - e2)).
  set (m' := match e1 - e2 - e' with
             | 0 => Zpos m1
             | Zpos _ => Z.shiftl (Zpos m1) (e1 - e2 - e')
             | Zneg _ => 0
             end).
  assert (Hs : 0 <= e1 - e2 - e') by (unfold e'; lia).
  assert (Hm' : 0 <= m' /\ Zdigits2 m' <= d1 + (e1 - e2 - e')).
  { unfold m'. destruct (e1 - e2 - e') as [|p|p] eqn:E; [fold d1; lia | | lia].
    rewrite Z.shiftl_mul_pow2 by lia.
    pose proof (Z.pow_pos_nonneg 2 (Zpos p) ltac:(lia) ltac:(lia)) as Hp.
    split; [lia|].
    apply Zdigits2_le; [lia | unfold d1; pose proof (Zdigits2_nonneg (Zpos m1)); lia|].
    rewrite Z.pow_add_r by (unfold d1; pose proof (Zdigits2_nonneg (Zpos m1)); lia).
    pose proof (Zdigits2_upper (Zpos m1) ltac:(lia)) as Hup. fold d1 in Hup.
    apply Z.mul_lt_mono_pos_r; lia. }
  destruct Hm' as [Hm'0 Hm'd].
  pose proof (Z_div_mod m' (Zpos m2) ltac:(lia)) as Hdm.
  destruct (Z.div_eucl m' (Zpos m2)) as [q r].
  destruct Hdm as [Heq Hr].
  assert (Hq0 : 0 <= q) by nia.
  assert (Hqm : q <= m') by nia.
  split; [assumption|]. split; [unfold e'; lia|].
  pose proof (Zdigits2_mono q m' Hq0 Hqm). lia.
Qed.

(** A finite number divided by a number that is neither zero nor [NaN]
    is finite when the quotient stays below the overflow threshold. *)
Lemma div_finite (x y : Num.num) (hi lo : Z) :
  Num.is_finite x = true -> Num.truthy y = true ->
  mag_le hi x -> expo_ge lo y -> hi - lo <= 1023 ->
  Num.is_finite (Num.div x y) = true.
Proof.
  intros Hx Hy Hmx Hey Hb.
  destruct x as [sx|sx| |sx mx ex]; try discriminate;
    destruct y as [sy|sy| |sy my ey]; try discriminate; try reflexivity.
  cbn [mag_le expo_ge] in Hmx, Hey. unfold Num.div, SFdiv.
  pose proof (div_core_facts mx ex my ey) as Hc.
  destruct (SFdiv_core_binary Num.prec Num.emax (Zpos mx) ex (Zpos my) ey)
    as [[q e'] l].
  destruct Hc as (Hq & He & Hd).
  pose proof (Zdigits2_pos (Zpos my) ltac:(lia)).
  apply binary_round_aux_finite; [assumption | unfold fexp64 in He; lia | lia].
Qed.

Lemma div_sign_mag (sx sy : bool) (mx my : positive) (ex ey : Z) :
  let q := Num.div (S754_finite sx mx ex) (S754_finite sy my ey) in
  has_sign (xorb sx sy) q
  /\ mag_le (Z.max (Zdigits2 (Zpos mx) + ex - ey) (-1074) + 1) q.
Proof.
  unfold Num.div, SFdiv.
  pose proof (div_core_facts mx ex my ey) as Hc.
  destruct (SFdiv_core_binary Num.prec Num.emax (Zpos mx) ex (Zpos my) ey)
    as [[q e'] l].
  destruct Hc as (Hq & He & Hd). split.
  - now apply binary_round_aux_sign.
  - pose proof (binary_round_aux_mag_le (xorb sx sy) q e' l Hq) as H.
    destruct (binary_round_aux _ _ _ _ _ _); cbn [mag_le] in *; try exact I. lia.
Qed.

(** [1 - q] is finite for a finite [q] that is not negative. *)
Lemma one_minus_finite (q : Num.num) :
  Num.is_finite q = true -> has_sign false q -> mag_le 1000 q ->
  Num.is_finite (Num.sub Num.one q) = true.
Proof.
  intros Hq Hs Hm. destruct q as [sq|sq| |sq mq eq]; try discriminate.
  - reflexivity.
  - cbn [has_sign mag_le] in Hs, Hm. subst sq. unfold Num.sub, SFsub, Num.one.
    set (ez := Z.min (-52) eq).
    destruct (shl_align_facts 4503599627370496 (-52) ez) as [He1 Hd1].
    destruct (shl_align_facts mq eq ez) as [Heq Hdq].
    set (M1 := fst (shl_align 4503599627370496 (-52) ez)) in *.
    set (Mq := fst (shl_align mq eq ez)) in *.
    assert (E1 : snd (shl_align 4503599627370496 (-52) ez) = ez) by (unfold ez in *; lia).
    assert (Eq : snd (shl_align mq eq ez) = ez) by (unfold ez in *; lia).
    rewrite E1 in Hd1. rewrite Eq in Hdq. simpl cond_Zopp.
    change (Zdigits2 4503599627370496) with 53 in Hd1.
    unfold binary_normalize.
    destruct (Zpos M1 - Zpos Mq) as [|p|p] eqn:E; [reflexivity | |];
      apply binary_round_finite.
    + pose proof (Zdigits2_mono (Zpos p) (Zpos M1) ltac:(lia) ltac:(lia)). lia.
    + pose proof (Zdigits2_mono (Zpos p) (Zpos Mq) ltac:(lia) ltac:(lia)). lia.
Qed.

(** Every coefficient of the centering matrix is finite. *)
Lemma centering_finite (n i j : nat) :
  (1 <= n)%nat -> Num.is_finite (centering (Num.of_nat n) i j) = true.
Proof.
  intros Hn. unfold centering.
  destruct (of_nat_shape n Hn) as [-> | (m & e & -> & He)].
  - destruct (i =? j)%nat; reflexivity.
  - destruct (i =? j)%nat.
    + pose proof (div_sign_mag false false 4503599627370496 m (-52) e) as [Hs Hm].
      change (S754_finite false 4503599627370496 (-52)) with Num.one in *.
      change (Zdigits2 4503599627370496) with 53 in Hm.
      apply one_minus_finite.
      * apply (div_finite _ _ 1 (-52)); unfold Num.one; cbn [mag_le expo_ge];
          try reflexivity; change (Zdigits2 4503599627370496) with 53; lia.
      * exact Hs.
      * destruct (Num.div Num.one (S754_finite false m e)); cbn [mag_le] in *;
          try exact I. lia.
    + apply (div_finite _ _ 1 (-52)); unfold Num.neg_one; cbn [mag_le expo_ge];
        try reflexivity; change (Zdigits2 4503599627370496) with 53; lia.
Qed.

(** *** Exponents through products, sums and square roots *)

Lemma mul_expo (x y : Num.num) : expo_ge (-1074) (Num.mul x y).
Proof.
  destruct x as [sx|sx| |sx mx ex], y as [sy|sy| |sy my ey]; simpl; try exact I.
  eapply expo_ge_weaken; [|apply binary_round_aux_expo]; lia.
Qed.

Lemma add_expo (x y : Num.num) :
  expo_ge (-1074) x -> expo_ge (-1074) y -> expo_ge (-1074) (Num.add x y).
Proof.
  intros Hx Hy. unfold Num.add, SFadd.
  destruct x as [sx|sx| |sx mx ex], y as [sy|sy| |sy my ey];
    try exact I; try assumption.
  - destruct sx, sy; exact I.
  - destruct sx, sy; exact I.
  - apply binary_normalize_expo.
Qed.

Lemma sum_squares_expo (v : list Num.num) (acc : Num.num) :
  expo_ge (-1074) acc ->
  expo_ge (-1074) (fold_left (fun a b => Num.add a (Num.mul b b)) v acc).
Proof.
  revert acc. induction v as [|b v IH]; intros acc Hacc; simpl; [assumption|].
  apply IH, add_expo; [assumption | apply mul_expo].
Qed.

Lemma div2_lower (x lo : Z) : 2 * lo <= x -> lo <= Z.div2 x.
Proof.
  intros H. rewrite Z.div2_div. apply Z.div_le_lower_bound; lia.
Qed.

Lemma sqrt_expo (x : Num.num) : expo_ge (-1074) x -> expo_ge (-589) (Num.sqrt x).
Proof.
  intros Hx. destruct x as [sx|sx| |sx mx ex]; simpl; try exact I.
  - destruct sx; exact I.
  - destruct sx; [exact I|]. cbn [expo_ge] in Hx.
    unfold SFsqrt_core_binary. rewrite fexp_is_fexp64.
    set (d := Zdigits2 (Zpos mx)).
    set (e' := Z.min (fexp64 (Z.div2 (d + ex + 1))) (Z.div2 ex)).
    set (m' := match ex - 2 * e' with
               | 0 => Zpos mx
               | Zpos _ => Z.shiftl (Zpos mx) (ex - 2 * e')
               | Zneg _ => 0
               end).
    pose proof (Z.sqrtrem_sqrt m') as Hq. pose proof (Z.sqrt_nonneg m') as Hq0.
    destruct (Z.sqrtrem m') as [q r]. cbn [fst] in Hq. subst q.
    assert (He' : -589 <= e').
    { pose proof (Zdigits2_pos (Zpos mx) ltac:(lia)) as Hd. fold d in Hd.
      pose proof (div2_lower (d + ex + 1) (-536) ltac:(lia)).
      pose proof (div2_lower ex (-537) ltac:(lia)).
      unfold e', fexp64. lia. }
    eapply expo_ge_weaken; [|apply binary_round_aux_expo; assumption]. lia.
Qed.

(** The norm is never zero and never [NaN], and not tiny. *)
Lemma norm_shape (v : list Num.num) :
  Num.truthy (norm v) = true /\ expo_ge (-589) (norm v).
Proof.
  unfold norm, Num.or_else.
  pose proof (sqrt_expo _ (sum_squares_expo v Num.zero I)) as He.
  destruct (Num.truthy (Num.sqrt _)) eqn:E.
  - split; assumption.
  - split; [reflexivity | simpl; lia].
Qed.

(** A value of [Math.random()] is finite and below one. *)
Lemma unit_draw_shape (r : Num.num) :
  Num.unit_draw r = true -> Num.is_finite r = true /\ mag_le 0 r.
Proof.
  unfold Num.unit_draw. intros H.
  apply andb_true_iff in H. destruct H as [H Hlt].
  apply andb_true_iff in H. destruct H as [Hv Hle].
  destruct r as [s|s| |s m e]; cbn [Num.is_finite mag_le].
  - split; [reflexivity | exact I].
  - destruct s; discriminate.
  - discriminate.
  - split; [reflexivity|].
    destruct s; [discriminate|].
    simpl in Hv. unfold bounded, canonical_mantissa in Hv.
    apply andb_true_iff in Hv. destruct Hv as [Hc _].
    apply Z.eqb_eq in Hc. rewrite fexp_is_fexp64 in Hc. unfold fexp64 in Hc.
    unfold SFltb, SFcompare, Num.one in Hlt.
    change (Zpos (digits2_pos m)) with (Zdigits2 (Zpos m)) in *.
    destruct (Z.compare_spec e (-52)) as [E|E|E]; try discriminate.
    + subst e.
      destruct (Pos.compare_cont Eq m 4503599627370496) eqn:Ec; try discriminate.
      assert (Hm : Zpos m < 4503599627370496) by exact Ec.
      clear Ec.
      pose proof (Zdigits2_le (Zpos m) 52 ltac:(lia) ltac:(lia)) as Hd.
      change (2 ^ 52) with 4503599627370496 in Hd. lia.
    + lia.
Qed.

Lemma normalized_finite (r : Num.num) (v : list Num.num) :
  Num.unit_draw r = true -> Num.is_finite (Num.div r (norm v)) = true.
Proof.
  intros Hr. destruct (unit_draw_shape r Hr) as [Hf Hm].
  destruct (norm_shape v) as [Ht He].
  apply (div_finite _ _ 0 (-589)); try assumption. lia.
Qed.

(** *** Zeros through the loops *)

Lemma mul_zero_l (a b : Num.num) :
  Num.is_zero a = true -> Num.is_finite b = true -> Num.is_zero (Num.mul a b) = true.
Proof.
  destruct a as [sa|sa| |sa ma ea]; try discriminate.
  destruct b as [sb|sb| |sb mb eb]; try discriminate; reflexivity.
Qed.

Lemma mul_zero_r (a b : Num.num) :
  Num.is_finite a = true -> Num.is_zero b = true -> Num.is_zero (Num.mul a b) = true.
Proof.
  destruct b as [sb|sb| |sb mb eb]; try discriminate.
  destruct a as [sa|sa| |sa ma ea]; try discriminate; reflexivity.
Qed.

Lemma add_zero_zero (b : Num.num) :
  Num.is_zero b = true -> Num.add Num.zero b = Num.zero.
Proof. destruct b as [[]| | |]; try discriminate; reflexivity. Qed.

Lemma is_zero_finite (x : Num.num) : Num.is_zero x = true -> Num.is_finite x = true.
Proof. destruct x; try discriminate; reflexivity. Qed.

Lemma fold_add_zero (l : list nat) (f : nat -> Num.num) :
  (forall k, In k l -> Num.is_zero (f k) = true) ->
  fold_left (fun s k => Num.add s (f k)) l Num.zero = Num.zero.
Proof.
  induction l as [|k l IH]; intros H; cbn [fold_left]; [reflexivity|].
  rewrite add_zero_zero by (apply H; now left).
  apply IH. intros k' Hk'. apply H. now right.
Qed.

Lemma sum_loop_zero (n : nat) (f : nat -> Num.num) :
  (forall k, (k < n)%nat -> Num.is_zero (f k) = true) -> sum_loop n f = Num.zero.
Proof.
  intros H. apply fold_add_zero. intros k Hk. apply in_seq in Hk. apply H. lia.
Qed.

Lemma at2_build (n : nat) (f : nat -> nat -> Num.num) (i j : nat) :
  (i < n)%nat -> (j < n)%nat -> at2 (build n f) i j = f i j.
Proof.
  intros Hi Hj. unfold at2, build.
  rewrite (nth_indep _ [] (map (fun j => f 0%nat j) (seq 0 n)))
    by (rewrite length_map, length_seq; exact Hi).
  rewrite (map_nth (fun i => map (fun j => f i j) (seq 0 n)) (seq 0 n) 0%nat i).
  rewrite seq_nth by exact Hi. simpl.
  rewrite (nth_indep _ Num.nan (f i 0%nat))
    by (rewrite length_map, length_seq; exact Hj).
  rewrite (map_nth (fun j => f i j) (seq 0 n) 0%nat j).
  now rewrite seq_nth by exact Hj.
Qed.

Lemma build_length (n : nat) (f : nat -> nat -> Num.num) :
  List.length (build n f) = n.
Proof. unfold build. now rewrite length_map, length_seq. Qed.

Lemma at2_zero_matrix (n i j : nat) :
  (i < n)%nat -> (j < n)%nat -> at2 (zero_matrix n) i j = Num.zero.
Proof.
  intros Hi Hj. unfold at2, zero_matrix.
  rewrite (nth_indep _ [] (repeat Num.zero n)) by (rewrite repeat_length; exact Hi).
  rewrite nth_repeat.
  rewrite (nth_indep _ Num.nan Num.zero) by (rewrite repeat_length; exact Hj).
  apply nth_repeat.
Qed.

Lemma map_const_seq {A : Type} (f : nat -> A) (c : A) (s n : nat) :
  (forall k, (s <= k < s + n)%nat -> f k = c) -> map f (seq s n) = repeat c n.
Proof.
  revert s. induction n as [|n IH]; intros s H; simpl; [reflexivity|].
  rewrite H by lia. f_equal. apply IH. intros k Hk. apply H. lia.
Qed.

Lemma nth_map_seq {A : Type} (f : nat -> A) (n i : nat) (d : A) :
  (i < n)%nat -> nth i (map f (seq 0 n)) d = f i.
Proof.
  intros Hi.
  rewrite (nth_indep _ d (f 0%nat)) by (rewrite length_map, length_seq; exact Hi).
  rewrite (map_nth f (seq 0 n) 0%nat i). now rewrite seq_nth.
Qed.

(** *** Power iteration on a matrix of zeros *)

Lemma at1_zeros (n i : nat) : (i < n)%nat -> at1 (repeat Num.zero n) i = Num.zero.
Proof.
  intros Hi. unfold at1.
  rewrite (nth_indep _ Num.nan Num.zero) by (rewrite repeat_length; exact Hi).
  apply nth_repeat.
Qed.

Lemma norm_zeros (n : nat) : norm (repeat Num.zero n) = Num.one.
Proof.
  unfold norm.
  assert (E : fold_left (fun a b => Num.add a (Num.mul b b)) (repeat Num.zero n) Num.zero
              = Num.zero).
  { induction n as [|n IH]; simpl; [reflexivity | exact IH]. }
  rewrite E. reflexivity.
Qed.

Lemma finite_zeros (n : nat) : finite_vector n (repeat Num.zero n).
Proof.
  split; [apply repeat_length|]. intros i Hi. now rewrite at1_zeros.
Qed.

Lemma power_step_zero (n : nat) (A : list (list Num.num)) (v : list Num.num)
    (lambda : Num.num) :
  zero_entries n A -> finite_vector n v ->
  power_step A (v, lambda) = (repeat Num.zero n, Num.zero).
Proof.
  intros [HA HA0] [Hv Hvf]. unfold power_step. cbn [fst]. rewrite HA, Hv.
  assert (EAv : map (fun i => sum_loop n (fun j => Num.mul (at2 A i j) (at1 v j)))
                    (seq 0 n) = repeat Num.zero n).
  { apply map_const_seq. intros i Hi. apply sum_loop_zero. intros j Hj.
    apply mul_zero_l; [apply HA0; lia | now apply Hvf]. }
  rewrite EAv, norm_zeros. f_equal.
  - rewrite map_repeat. reflexivity.
  - apply fold_add_zero. intros i Hi. apply in_seq in Hi.
    apply mul_zero_r; [apply Hvf; lia | rewrite at1_zeros by lia; reflexivity].
Qed.

Lemma power_iter_invariant (n k : nat) (A : list (list Num.num))
    (st : list Num.num * Num.num) :
  zero_entries n A -> finite_vector n (fst st) ->
  finite_vector n (fst (Nat.iter k (power_step A) st)).
Proof.
  intros HA Hst. induction k as [|k IH]; [exact Hst|].
  rewrite Nat.iter_succ.
  destruct (Nat.iter k (power_step A) st) as [v lambda].
  cbn [fst] in IH.
  rewrite (power_step_zero n A v lambda HA IH). apply finite_zeros.
Qed.

Lemma powerIter_zero (rand : nat -> Num.num) (off n : nat) (A : list (list Num.num)) :
  (forall k, Num.unit_draw (rand k) = true) ->
  zero_entries n A ->
  powerIter rand off A = {| value := Num.zero; vector := repeat Num.zero n |}.
Proof.
  intros Hrand HA. unfold powerIter. cbv zeta. rewrite (proj1 HA).
  set (v0 := map (fun i => rand (off + i)%nat) (seq 0 n)).
  set (st0 := (map (fun x => Num.div x (norm v0)) v0, Num.zero)).
  assert (H0 : finite_vector n (fst st0)).
  { unfold st0, v0. cbn [fst]. split; [now rewrite !length_map, length_seq|].
    intros i Hi. unfold at1. rewrite map_map, nth_map_seq by exact Hi.
    apply normalized_finite, Hrand. }
  change 150%nat with (S 149).
  rewrite Nat.iter_succ.
  pose proof (power_iter_invariant n 149 A st0 HA H0) as Hk.
  destruct (Nat.iter 149 (power_step A) st0) as [v lambda].
  cbn [fst] in Hk.
  rewrite (power_step_zero n A v lambda HA Hk). reflexivity.
Qed.

Lemma sub_zero_zero (a b : Num.num) :
  Num.is_zero a = true -> Num.is_zero b = true -> Num.is_zero (Num.sub a b) = true.
Proof.
  destruct a as [[]| | |], b as [[]| | |]; try discriminate; reflexivity.
Qed.

(** Classical MDS on the all-zero distance matrix, of any size of at
    least two and whatever [Math.random()] returns: every x and y
    coordinate is zero and both eigenvalues are zero. *)
Theorem classicalMDS2D_zero_matrix (rand : nat -> Num.num) (n : nat) :
  (2 <= n)%nat ->
  (forall k, Num.unit_draw (rand k) = true) ->
  classicalMDS2D rand (zero_matrix n)
  = {| mds_x := repeat Num.zero n;
       mds_y := repeat Num.zero n;
       eigenvalues := [Num.zero; Num.zero] |}.
Proof.
  intros Hn Hrand. unfold classicalMDS2D. cbv zeta.
  assert (Hlen : List.length (zero_matrix n) = n) by apply repeat_length.
  rewrite Hlen.
  replace (n <? 2)%nat with false by (symmetry; apply Nat.ltb_ge; exact Hn).
  set (N := Num.of_nat n).
  set (DSq := build n (fun i j => Num.mul (at2 (zero_matrix n) i j)
                                          (at2 (zero_matrix n) i j))).
  set (M := build n (fun i j =>
                       sum_loop n (fun k => Num.mul (at2 DSq i k) (centering N k j)))).
  set (B := build n (fun i j =>
                       Num.mul Num.neg_half
                         (sum_loop n (fun k => Num.mul (centering N i k) (at2 M k j))))).
  assert (HDSq : forall i j, (i < n)%nat -> (j < n)%nat -> at2 DSq i j = Num.zero).
  { intros i j Hi Hj. unfold DSq. rewrite at2_build by assumption.
    now rewrite at2_zero_matrix by assumption. }
  assert (HM : forall i j, (i < n)%nat -> (j < n)%nat -> at2 M i j = Num.zero).
  { intros i j Hi Hj. unfold M. rewrite at2_build by assumption.
    apply sum_loop_zero. intros k Hk. rewrite HDSq by assumption.
    apply mul_zero_l; [reflexivity | apply centering_finite; lia]. }
  assert (HB : zero_entries n B).
  { split; [apply build_length|]. intros i j Hi Hj. unfold B.
    rewrite at2_build by assumption.
    rewrite sum_loop_zero; [reflexivity|].
    intros k Hk. rewrite HM by assumption.
    apply mul_zero_r; [apply centering_finite; lia | reflexivity]. }
  rewrite (powerIter_zero rand 0 n B Hrand HB). cbn [value vector].
  set (B2 := build n (fun i j =>
                        Num.sub (at2 B i j)
                          (Num.mul (Num.mul Num.zero (at1 (repeat Num.zero n) i))
                                   (at1 (repeat Num.zero n) j)))).
  assert (HB2 : zero_entries n B2).
  { split; [apply build_length|]. intros i j Hi Hj. unfold B2.
    rewrite at2_build by assumption. rewrite !at1_zeros by assumption.
    apply sub_zero_zero; [now apply (proj2 HB) | reflexivity]. }
  rewrite (powerIter_zero rand n n B2 Hrand HB2). cbn [value vector].
  rewrite !map_repeat. reflexivity.
Qed.

(** The 2 by 2 matrix with the draws 1/2, 3/8, 1/2, 3/8. *)
Lemma classicalMDS2D_zero_matrix_witness :
  classicalMDS2D
    (fun k => if Nat.even k
              then S754_finite false 4503599627370496 (-53)
              else S754_finite false 6755399441055744 (-54))
    (zero_matrix 2)
  = {| mds_x := [Num.zero; Num.zero];
       mds_y := [Num.zero; Num.zero];
       eigenvalues := [Num.zero; Num.zero] |}.
Proof.
  apply (classicalMDS2D_zero_matrix _ 2).
  - apply le_n.
  - intros k. destruct (Nat.even k); reflexivity.
Defined.

Local Close Scope Z_scope.

(** ** Jaccard distance *)

Lemma intersection_count_filter (A B : JsMap.sset) :
  intersection_count A B = List.length (filter (JsMap.shas B) A).
Proof.
  unfold intersection_count.
  assert (G : forall k, fold_left (fun inter x => if JsMap.shas B x then inter + 1 else inter) A k
                        = k + List.length (filter (JsMap.shas B) A)).
  { induction A as [|x A IH]; intros k; simpl; [lia|].
    rewrite IH. destruct (JsMap.shas B x); simpl; lia. }
  apply G.
Qed.

Lemma intersection_count_sym (A B : JsMap.sset) :
  NoDup A -> NoDup B -> intersection_count A B = intersection_count B A.
Proof.
  intros HA HB. rewrite !intersection_count_filter.
  apply Permutation_length, NoDup_Permutation.
  - now apply NoDup_filter.
  - now apply NoDup_filter.
  - intros x. rewrite !filter_In, !shas_In. tauto.
Qed.

Lemma intersection_count_le_l (A B : JsMap.sset) :
  intersection_count A B <= List.length A.
Proof. rewrite intersection_count_filter. apply filter_length_le. Qed.

Lemma intersection_count_le_r (A B : JsMap.sset) :
  NoDup A -> intersection_count A B <= List.length B.
Proof.
  intros HA. rewrite intersection_count_filter.
  apply NoDup_incl_length; [now apply NoDup_filter|].
  intros x Hx. apply filter_In in Hx. now apply shas_In.
Qed.

Lemma same_members_count (A B : JsMap.sset) :
  NoDup A -> NoDup B -> same_members A B ->
  intersection_count A B = List.length A /\ List.length B = List.length A.
Proof.
  intros HA HB Hs. split.
  - rewrite intersection_count_filter. f_equal.
    apply forallb_filter_id. apply forallb_forall. intros x Hx.
    now apply shas_In, Hs.
  - apply Permutation_length, NoDup_Permutation; try assumption.
    intros x. symmetry. apply Hs.
Qed.

Local Open Scope Z_scope.

(** *** Exact numbers *)

Lemma shr_nonpos (r : shr_record) (e n : Z) : n <= 0 -> shr r e n = (r, e).
Proof. intros Hn. unfold shr. destruct n; [reflexivity | lia | reflexivity]. Qed.

Lemma binary_round_aux_exact (s : bool) (m : positive) (e : Z) :
  fexp64 (Zdigits2 (Zpos m) + e) <= e -> e <= 971 ->
  binary_round_aux Num.prec Num.emax s (Zpos m) e loc_Exact = S754_finite s m e.
Proof.
  intros Hc He. unfold binary_round_aux, shr_fexp. rewrite !fexp_is_fexp64.
  rewrite shr_nonpos by lia.
  cbn [shr_record_of_loc shr_m loc_of_shr_record round_nearest_even].
  rewrite fexp_is_fexp64, shr_nonpos by lia. cbn [shr_m].
  destruct (Z.leb_spec e (Num.emax - Num.prec)) as [H|H]; [reflexivity|].
  unfold Num.emax, Num.prec in H. lia.
Qed.

Lemma pos_iter_xO_value (m d : positive) :
  Zpos (Pos.iter xO m d) = Zpos m * 2 ^ Zpos d.
Proof.
  induction d as [|d IH] using Pos.peano_ind.
  - simpl. lia.
  - rewrite Pos.iter_succ, Pos2Z.inj_xO, IH, Pos2Z.inj_succ, Z.pow_succ_r by lia. lia.
Qed.

Lemma shl_align_value (mx : positive) (ex ex' : Z) :
  Zpos (fst (shl_align mx ex ex'))
  = Zpos mx * 2 ^ (ex - snd (shl_align mx ex ex')).
Proof.
  unfold shl_align. destruct (ex' - ex) as [|d|d] eqn:E; cbn [fst snd].
  - rewrite Z.sub_diag. simpl. lia.
  - rewrite Z.sub_diag. simpl. lia.
  - rewrite pos_iter_xO_value. f_equal. f_equal. lia.
Qed.

(** The number of a counter below [2^53] is the counter itself, on 53
    digits. *)
Lemma of_nat_exact (k : nat) :
  (1 <= k)%nat -> exact_counter k ->
  exists m e,
    Num.of_nat k = S754_finite false m e
    /\ -52 <= e <= 0 /\ Zdigits2 (Zpos m) = 53
    /\ Zpos m = Z.of_nat k * 2 ^ (- e).
Proof.
  intros Hk Hex. unfold exact_counter in Hex. unfold Num.of_nat.
  destruct (Z.of_nat k) as [|p|p] eqn:E; [lia | | lia]. simpl binary_normalize.
  rewrite binary_round_unfold.
  set (d := Zdigits2 (Zpos p)).
  assert (Hd : 1 <= d <= 53).
  { split; [apply Zdigits2_pos; lia | apply Zdigits2_le; lia]. }
  replace (d + 0) with d by lia.
  assert (Hf : fexp64 d = d - 53) by (unfold fexp64; lia).
  rewrite Hf.
  destruct (shl_align_facts p 0 (d - 53)) as [He Hdig]. fold d in Hdig.
  pose proof (shl_align_value p 0 (d - 53)) as Hv.
  set (mz := fst (shl_align p 0 (d - 53))) in *.
  set (ez := snd (shl_align p 0 (d - 53))) in *.
  assert (Hez : ez = d - 53) by lia.
  exists mz, ez. split; [|split; [lia | split; [lia|]]].
  - apply binary_round_aux_exact; [unfold fexp64; lia | lia].
  - rewrite Hv. repeat f_equal; lia.
Qed.

(** *** Rounding below one *)

Lemma round_below_one (s : bool) (m e : Z) (l : location) :
  0 <= m -> e <= -53 -> m < 2 ^ (- e) ->
  binary_round_aux Num.prec Num.emax s m e l = S754_zero s
  \/ exists m2 e2,
       binary_round_aux Num.prec Num.emax s m e l = S754_finite s m2 e2
       /\ e2 <= -52 /\ Zpos m2 <= 2 ^ (- e2).
Proof.
  intros Hm He Hlt.
  destruct (binary_round_aux_spec s m e l Hm)
    as (m1 & e1 & m1' & m2 & e2 & H1 & Hr & H2 & ->).
  pose proof (Zdigits2_le m (- e) Hm ltac:(lia) Hlt) as Hd.
  (* first shift *)
  assert (F1 : 0 <= m1 /\ e1 <= -53 /\ e <= e1 /\ m1 < 2 ^ (- e1)).
  { unfold shift_right in H1.
    destruct (Z.ltb_spec 0 (fexp64 (Zdigits2 m + e) - e)) as [Hn|Hn];
      inversion H1; subst; clear H1.
    - set (n := fexp64 (Zdigits2 m + e) - e) in *.
      assert (Hn' : n <= -53 - e) by (unfold n, fexp64; lia).
      pose proof (Z.pow_pos_nonneg 2 n ltac:(lia) ltac:(lia)) as Hp.
      split; [apply Z.div_pos; lia|]. split; [lia|]. split; [lia|].
      apply Z.div_lt_upper_bound; [lia|].
      rewrite <- Z.pow_add_r by lia.
      now replace (n + - (e + n)) with (- e) by lia.
    - repeat split; try lia. }
  destruct F1 as (Hm1 & He1 & Hee1 & Hlt1).
  destruct (round_step_facts _ _ Hm1 Hr) as (Hm1' & _ & _ & _).
  assert (Hle1' : m1' <= 2 ^ (- e1)) by (destruct Hr; lia).
  assert (Hd1' : Zdigits2 m1' <= - e1 + 1).
  { apply Zdigits2_le; [assumption | lia |].
    rewrite Z.pow_add_r by lia. simpl (2 ^ 1).
    pose proof (Z.pow_pos_nonneg 2 (- e1) ltac:(lia) ltac:(lia)). lia. }
  assert (F2 : 0 <= m2 /\ e2 <= -52 /\ m2 <= 2 ^ (- e2)).
  { unfold shift_right in H2.
    destruct (Z.ltb_spec 0 (fexp64 (Zdigits2 m1' + e1) - e1)) as [Hn|Hn];
      inversion H2; subst; clear H2.
    - set (n := fexp64 (Zdigits2 m1' + e1) - e1) in *.
      assert (Hn' : n <= -52 - e1) by (unfold n, fexp64; lia).
      pose proof (Z.pow_pos_nonneg 2 n ltac:(lia) ltac:(lia)) as Hp.
      split; [apply Z.div_pos; lia|]. split; [lia|].
      apply Z.div_le_upper_bound; [lia|].
      rewrite <- Z.pow_add_r by lia.
      now replace (n + - (e1 + n)) with (- e1) by lia.
    - repeat split; try lia. }
  destruct F2 as (Hm2 & He2 & Hle2).
  unfold round_result. destruct m2 as [|p|p]; [now left | | lia].
  right. exists p, e2.
  destruct (Z.leb_spec e2 971); [|lia]. repeat split; assumption.
Qed.

Lemma binary_round_below_one (s : bool) (m : positive) (e : Z) :
  e <= -52 -> Zpos m < 2 ^ (- e) ->
  binary_round Num.prec Num.emax s m e = S754_zero s
  \/ exists m2 e2,
       binary_round Num.prec Num.emax s m e = S754_finite s m2 e2
       /\ e2 <= -52 /\ Zpos m2 <= 2 ^ (- e2).
Proof.
  intros He Hlt. rewrite binary_round_unfold.
  set (mag := Zdigits2 (Zpos m) + e).
  assert (Hmag : mag <= 0).
  { pose proof (Zdigits2_le (Zpos m) (- e) ltac:(lia) ltac:(lia) Hlt). unfold mag. lia. }
  destruct (shl_align_facts m e (fexp64 mag)) as [Hez _].
  pose proof (shl_align_value m e (fexp64 mag)) as Hv.
  set (mz := fst (shl_align m e (fexp64 mag))) in *.
  set (ez := snd (shl_align m e (fexp64 mag))) in *.
  assert (Hez' : ez <= -53 /\ ez <= e) by (unfold fexp64 in Hez; lia).
  apply round_below_one; [lia | lia |].
  rewrite Hv. replace (- ez) with (- e + (e - ez)) by lia.
  rewrite Z.pow_add_r by lia.
  apply Z.mul_lt_mono_pos_r; [apply Z.pow_pos_nonneg; lia | assumption].
Qed.

(** *** Quotients of counters *)

Lemma div_eucl_pair (a b : Z) : Z.div_eucl a b = (a / b, a mod b).
Proof. unfold Z.div, Z.modulo. now destruct (Z.div_eucl a b). Qed.

(** A finite number divided by itself is one. *)
Lemma div_self (s : bool) (m : positive) (e : Z) :
  Num.div (S754_finite s m e) (S754_finite s m e) = Num.one.
Proof.
  unfold Num.div, SFdiv, SFdiv_core_binary. cbv zeta. rewrite fexp_is_fexp64.
  replace (Zdigits2 (Zpos m) + e - (Zdigits2 (Zpos m) + e)) with 0 by lia.
  replace (e - e) with 0 by lia.
  change (Z.min (fexp64 0) 0) with (-53). change (0 - -53) with 53.
  cbv beta iota.
  rewrite Z.shiftl_mul_pow2 by lia.
  rewrite div_eucl_pair.
  rewrite (Z.mul_comm (Zpos m)), Z.div_mul, Z.mod_mul by lia.
  rewrite xorb_nilpotent. unfold new_location.
  destruct (Z.even (Zpos m)); reflexivity.
Qed.

(** Two exact counters [a < b] on 53 digits: the exponent of [a] is not
    above that of [b], and the mantissas compare as the counters. *)
Lemma exact_order (ma mb : positive) (ea eb a b : Z) :
  Zdigits2 (Zpos ma) = 53 -> Zdigits2 (Zpos mb) = 53 ->
  ea <= 0 -> eb <= 0 ->
  Zpos ma = a * 2 ^ (- ea) -> Zpos mb = b * 2 ^ (- eb) ->
  a < b -> ea <= eb /\ Zpos ma < Zpos mb * 2 ^ (eb - ea).
Proof.
  intros Hda Hdb Hea Heb Hva Hvb Hab.
  pose proof (Zdigits2_lower (Zpos ma) ltac:(lia)) as Hla.
  pose proof (Zdigits2_upper (Zpos mb) ltac:(lia)) as Hub.
  rewrite Hda in Hla. rewrite Hdb in Hub.
  change (2 ^ (53 - 1)) with 4503599627370496 in Hla.
  change (2 ^ 53) with 9007199254740992 in Hub.
  pose proof (Z.pow_pos_nonneg 2 (- ea) ltac:(lia) ltac:(lia)) as HP.
  assert (Hle : ea <= eb).
  { destruct (Z.le_gt_cases ea eb) as [H|H]; [exact H|]. exfalso.
    assert (HQ : 2 * 2 ^ (- ea) <= 2 ^ (- eb)).
    { replace (- eb) with (1 + (- ea + (ea - eb - 1))) by lia.
      rewrite Z.pow_add_r by lia. rewrite (Z.pow_add_r 2 (- ea)) by lia.
      change (2 ^ 1) with 2.
      pose proof (Z.pow_pos_nonneg 2 (ea - eb - 1) ltac:(lia) ltac:(lia)). nia. }
    assert (Hb : 0 < b) by nia.
    nia. }
  split; [exact Hle|].
  rewrite Hvb, <- Z.mul_assoc, <- Z.pow_add_r by lia.
  replace (- eb + (eb - ea)) with (- ea) by lia.
  rewrite Hva. apply Z.mul_lt_mono_pos_r; assumption.
Qed.

(** The quotient of two exact counters [a < b] is a number of [0, 1]. *)
Lemma div_below_one (ma mb : positive) (ea eb : Z) :
  Zdigits2 (Zpos ma) = 53 -> Zdigits2 (Zpos mb) = 53 ->
  -52 <= ea -> ea <= eb -> eb <= 0 ->
  Zpos ma < Zpos mb * 2 ^ (eb - ea) ->
  in_unit_interval (Num.div (S754_finite false ma ea) (S754_finite false mb eb)).
Proof.
  intros Hda Hdb Hea Hab Heb Hlt.
  unfold Num.div, SFdiv, SFdiv_core_binary. cbv zeta. rewrite fexp_is_fexp64.
  rewrite Hda, Hdb.
  replace (53 + ea - (53 + eb)) with (ea - eb) by lia.
  assert (Ef : fexp64 (ea - eb) = ea - eb - 53) by (unfold fexp64; lia).
  rewrite Ef.
  replace (Z.min (ea - eb - 53) (ea - eb)) with (ea - eb - 53) by lia.
  replace (ea - eb - (ea - eb - 53)) with 53 by lia.
  cbv beta iota.
  rewrite Z.shiftl_mul_pow2 by lia.
  rewrite div_eucl_pair. cbn [xorb].
  set (q := Zpos ma * 2 ^ 53 / Zpos mb).
  set (l := new_location (Zpos mb) (Zpos ma * 2 ^ 53 mod Zpos mb)).
  assert (Hq0 : 0 <= q) by (apply Z.div_pos; lia).
  assert (Hq1 : q < 2 ^ (- (ea - eb - 53))).
  { apply Z.div_lt_upper_bound; [lia|].
    replace (- (ea - eb - 53)) with (eb - ea + 53) by lia.
    rewrite Z.pow_add_r, Z.mul_assoc by lia.
    apply Z.mul_lt_mono_pos_r; [lia | exact Hlt]. }
  destruct (round_below_one false q (ea - eb - 53) l Hq0 ltac:(lia) Hq1)
    as [E | (m2 & e2 & E & He2 & Hm2)]; rewrite E.
  - now left.
  - right. exists m2, e2. auto.
Qed.

Lemma one_in_unit_interval : in_unit_interval Num.one.
Proof.
  right. exists 4503599627370496%positive, (-52). split; [reflexivity|].
  split; [apply Z.le_refl|]. change (2 ^ (- -52)) with 4503599627370496.
  apply Z.le_refl.
Qed.

(** [1 - q] stays in [0, 1] for [q] in [0, 1]. *)
Lemma one_minus_unit (q : Num.num) :
  in_unit_interval q -> in_unit_interval (Num.sub Num.one q).
Proof.
  intros [-> | (m & e & -> & He & Hm)]; [apply one_in_unit_interval|].
  unfold Num.sub, SFsub, Num.one.
  replace (Z.min (-52) e) with e by lia.
  destruct (shl_align_facts 4503599627370496 (-52) e) as [He1 _].
  pose proof (shl_align_value 4503599627370496 (-52) e) as Hv1.
  destruct (shl_align_facts m e e) as [Heq _].
  pose proof (shl_align_value m e e) as Hvq.
  set (M1 := fst (shl_align 4503599627370496 (-52) e)) in *.
  set (Mq := fst (shl_align m e e)) in *.
  rewrite He1 in Hv1. rewrite Heq in Hvq.
  replace (Z.min (-52) e) with e in Hv1 by lia.
  replace (Z.min e e) with e in Hvq by lia.
  rewrite Z.sub_diag in Hvq. change (2 ^ 0) with 1 in Hvq.
  assert (Hone : Zpos M1 = 2 ^ (- e)).
  { rewrite Hv1. change 4503599627370496 with (2 ^ 52).
    rewrite <- Z.pow_add_r by lia. f_equal. lia. }
  cbn [cond_Zopp negb]. unfold binary_normalize.
  destruct (Zpos M1 - Zpos Mq) as [|p|p] eqn:E.
  - now left.
  - destruct (binary_round_below_one false p e He ltac:(lia))
      as [R | (m2 & e2 & R & He2 & Hm2)]; rewrite R.
    + now left.
    + right. exists m2, e2. auto.
  - lia.
Qed.

(** A number of [0, 1] compares as such. *)
Lemma unit_interval_range (x : Num.num) :
  in_unit_interval x -> num_le Num.zero x = true /\ num_le x Num.one = true.
Proof.
  intros [-> | (m & e & -> & He & Hm)]; [split; reflexivity|].
  split; [reflexivity|].
  unfold num_le, SFleb, SFcompare, Num.one.
  destruct (Z.compare_spec e (-52)) as [E|E|E]; [|reflexivity|lia].
  subst e. change (2 ^ (- -52)) with 4503599627370496 in Hm.
  destruct (Pos.compare_cont Eq m 4503599627370496) eqn:Ec; try reflexivity.
  assert (Hgt : Zpos m > 4503599627370496) by exact Ec.
  clear Ec. lia.
Qed.

Lemma zero_quotient (u : nat) :
  (1 <= u)%nat ->
  Num.sub Num.one (Num.div (Num.of_nat 0) (Num.of_nat u)) = Num.one.
Proof.
  intros Hu. change (Num.of_nat 0) with (S754_zero false).
  destruct (of_nat_shape u Hu) as [E | (m & e & E & _)]; rewrite E; reflexivity.
Qed.

Lemma counter_quotient_unit (i u : nat) :
  (1 <= i)%nat -> (i <= u)%nat -> exact_counter u ->
  in_unit_interval (Num.sub Num.one (Num.div (Num.of_nat i) (Num.of_nat u))).
Proof.
  intros Hi Hiu Hu.
  destruct (Nat.eq_dec i u) as [E|E].
  - subst u. destruct (of_nat_exact i Hi Hu) as (ma & ea & Ea & _).
    rewrite Ea, div_self. now left.
  - assert (Hi' : exact_counter i) by (unfold exact_counter in *; lia).
    destruct (of_nat_exact i Hi Hi') as (ma & ea & Ea & Hea & Hda & Hva).
    destruct (of_nat_exact u ltac:(lia) Hu) as (mb & eb & Eb & Heb & Hdb & Hvb).
    rewrite Ea, Eb. apply one_minus_unit.
    destruct (exact_order ma mb ea eb (Z.of_nat i) (Z.of_nat u)) as [Hab Hlt];
      try assumption; try lia.
    apply div_below_one; try assumption; lia.
Qed.

Local Close Scope Z_scope.

Lemma disjoint_count (A B : JsMap.sset) :
  (forall x, In x A -> ~ In x B) -> intersection_count A B = 0.
Proof.
  intros H. rewrite intersection_count_filter.
  induction A as [|a A IH]; [reflexivity|]. simpl.
  destruct (JsMap.shas B a) eqn:E.
  - apply shas_In in E. exfalso. apply (H a); [now left | exact E].
  - apply IH. intros x Hx. apply H. now right.
Qed.

(** The distance does not depend on the order of its arguments. *)
Theorem jaccardDistance_symmetric (A B : JsMap.sset) :
  NoDup A -> NoDup B -> jaccardDistance A B = jaccardDistance B A.
Proof.
  intros HA HB. unfold jaccardDistance.
  rewrite (intersection_count_sym A B HA HB), (Nat.add_comm (List.length A)).
  rewrite (andb_comm (List.length A =? 0)%nat). reflexivity.
Qed.

Lemma jaccardDistance_symmetric_witness :
  jaccardDistance ["a"; "b"; "c"] ["b"; "c"; "d"; "e"]
  = jaccardDistance ["b"; "c"; "d"; "e"] ["a"; "b"; "c"].
Proof.
  apply jaccardDistance_symmetric.
  - repeat constructor; simpl; intuition discriminate.
  - repeat constructor; simpl; intuition discriminate.
Defined.

(** Two sets with the same members are at distance zero, two empty sets
    included. *)
Theorem jaccardDistance_same_members (A B : JsMap.sset) :
  NoDup A -> NoDup B -> same_members A B -> exact_counter (List.length A) ->
  jaccardDistance A B = Num.zero.
Proof.
  intros HA HB Hs Hex. destruct (same_members_count A B HA HB Hs) as [Ei El].
  unfold jaccardDistance. rewrite Ei, El.
  destruct (List.length A) as [|n] eqn:En; [reflexivity|].
  cbn [Nat.eqb andb].
  replace (S n + S n - S n) with (S n) by lia.
  cbn [Nat.eqb].
  destruct (of_nat_exact (S n) ltac:(lia) Hex) as (m & e & E & _).
  rewrite E, div_self. reflexivity.
Qed.

Lemma jaccardDistance_same_members_witness :
  jaccardDistance ["a"; "b"; "c"] ["c"; "a"; "b"] = Num.zero.
Proof.
  apply jaccardDistance_same_members.
  - repeat constructor; simpl; intuition discriminate.
  - repeat constructor; simpl; intuition discriminate.
  - intros x. simpl. tauto.
  - unfold exact_counter. simpl. reflexivity.
Defined.

(** Two sets without a common member, not both empty, are at distance
    one. *)
Theorem jaccardDistance_disjoint (A B : JsMap.sset) :
  (forall x, In x A -> ~ In x B) -> 0 < List.length A + List.length B ->
  jaccardDistance A B = Num.one.
Proof.
  intros Hd Hne. unfold jaccardDistance. rewrite (disjoint_count A B Hd).
  destruct ((List.length A =? 0)%nat && (List.length B =? 0)%nat) eqn:E0.
  - apply andb_true_iff in E0. destruct E0 as [E1 E2].
    apply Nat.eqb_eq in E1. apply Nat.eqb_eq in E2. lia.
  - cbv zeta. rewrite Nat.sub_0_r.
    destruct (List.length A + List.length B =? 0)%nat eqn:Eu; [reflexivity|].
    apply zero_quotient. lia.
Qed.

Lemma jaccardDistance_disjoint_witness :
  jaccardDistance ["a"] ["b"; "c"] = Num.one.
Proof.
  apply jaccardDistance_disjoint.
  - intros x [<- | []] [H | [H | []]]; discriminate.
  - simpl. lia.
Defined.

(** The distance is a number of [0, 1]. *)
Theorem jaccardDistance_in_unit_interval (A B : JsMap.sset) :
  NoDup A -> NoDup B -> exact_counter (List.length A + List.length B) ->
  num_le Num.zero (jaccardDistance A B) = true
  /\ num_le (jaccardDistance A B) Num.one = true.
Proof.
  intros HA HB Hex. apply unit_interval_range. unfold jaccardDistance.
  destruct ((List.length A =? 0)%nat && (List.length B =? 0)%nat) eqn:E0; [now left|].
  pose proof (intersection_count_le_l A B) as Hl.
  pose proof (intersection_count_le_r A B HA) as Hr.
  cbv zeta. set (i := intersection_count A B) in *.
  destruct (List.length A + List.length B - i =? 0)%nat eqn:Eu;
    [apply one_in_unit_interval|].
  apply Nat.eqb_neq in Eu. destruct (Nat.eq_dec i 0) as [Ei|Ei].
  - rewrite Ei, zero_quotient by lia. apply one_in_unit_interval.
  - apply counter_quotient_unit; [lia | lia | unfold exact_counter in *; lia].
Qed.

Lemma jaccardDistance_in_unit_interval_witness :
  num_le Num.zero (jaccardDistance ["a"; "b"; "c"] ["b"; "c"; "d"; "e"]) = true
  /\ num_le (jaccardDistance ["a"; "b"; "c"] ["b"; "c"; "d"; "e"]) Num.one = true.
Proof.
  apply jaccardDistance_in_unit_interval.
  - repeat constructor; simpl; intuition discriminate.
  - repeat constructor; simpl; intuition discriminate.
  - unfold exact_counter. simpl. reflexivity.
Defined.

(* ================================================================== *)
(** * International links: both rules, exclusions and the series *)
(* ================================================================== *)

Lemma nonempty_filter_seq (f : nat -> bool) (n : nat) :
  nonempty (filter f (seq 0 n)) = true <-> exists i, i < n /\ f i = true.
Proof.
  unfold nonempty. split.
  - destruct (filter f (seq 0 n)) as [|i l] eqn:E; [discriminate|]. intros _.
    assert (Hi : In i (filter f (seq 0 n))) by (rewrite E; now left).
    apply filter_In in Hi. destruct Hi as [Hi Hf]. apply in_seq in Hi.
    exists i. split; [lia | exact Hf].
  - intros (i & Hi & Hf).
    assert (Hin : In i (filter f (seq 0 n))).
    { apply filter_In. split; [apply in_seq; lia | exact Hf]. }
    destruct (filter f (seq 0 n)); [contradiction | reflexivity].
Qed.

Lemma In_rule (a : Authorships) (g : bool) (idx : list nat) (s : JsMap.sset)
    (c : string) :
  In c (if g then credit_indices a idx s else s)
  <-> In c s
      \/ (g = true /\ exists j, In j idx /\ nth j (countries a) "" = c /\ c <> "").
Proof.
  destruct g.
  - rewrite In_credit_indices. tauto.
  - split; [tauto | intros [H | [H _]]; [exact H | discriminate]].
Qed.

Lemma isIntl_truthy (homeISO3 cty : string) :
  isIntl homeISO3 cty = true -> cty <> "" /\ homeISO3 <> "" /\ cty <> homeISO3.
Proof.
  unfold isIntl, truthy. intros H.
  apply andb_true_iff in H. destruct H as [H H3].
  apply andb_true_iff in H. destruct H as [H1 H2].
  apply negb_true_iff in H1, H2, H3.
  apply String.eqb_neq in H1, H2, H3. tauto.
Qed.

(** The countries credited to a publication are exactly those of Rule 1
    and of Rule 2: the country of any international authorship when a
    cohort author is first or last, and the country of an international
    first or last author when a cohort author is in the middle. *)
Theorem creditedThisPaper_both_rules (cohort : JsMap.sset) (homeISO3 : string)
    (a : Authorships) (c : string) :
  In c (creditedThisPaper cohort homeISO3 a)
  <-> ((exists i, i < List.length (ids a)
                  /\ isCohort cohort (nth i (ids a) "") = true
                  /\ isFL (pos_at a i) = true)
       /\ (exists j, j < List.length (ids a)
                     /\ isIntl homeISO3 (nth j (countries a) "") = true
                     /\ nth j (countries a) "" = c))
      \/ ((exists i, i < List.length (ids a)
                     /\ isCohort cohort (nth i (ids a) "") = true
                     /\ pos_at a i = "middle")
          /\ (exists j, j < List.length (ids a)
                        /\ isIntl homeISO3 (nth j (countries a) "") = true
                        /\ isFL (pos_at a j) = true
                        /\ nth j (countries a) "" = c)).
Proof.
  unfold creditedThisPaper. rewrite classify_spec.
  cbn [cohortIdx_FL cohortIdx_M intlIdx_any intlIdx_FL].
  set (n := List.length (ids a)).
  rewrite (In_rule a _ _ _ c), (In_rule a _ _ [] c).
  rewrite !andb_true_iff, !nonempty_filter_seq.
  assert (HM : forall i, is_cohort_M cohort a i = true
                         <-> isCohort cohort (nth i (ids a) "") = true
                             /\ pos_at a i = "middle").
  { intros i. unfold is_cohort_M, is_cohort_FL, isFL.
    destruct (String.eqb_spec (pos_at a i) "middle") as [E|E].
    - rewrite E. simpl. rewrite andb_false_r, andb_true_r. simpl. tauto.
    - rewrite andb_false_r, andb_false_r. split; [discriminate | tauto]. }
  assert (HF : forall i, is_cohort_FL cohort a i = true
                         <-> isCohort cohort (nth i (ids a) "") = true
                             /\ isFL (pos_at a i) = true).
  { intros i. unfold is_cohort_FL. apply andb_true_iff. }
  assert (HI : forall j, is_intl_FL homeISO3 a j = true
                         <-> isIntl homeISO3 (nth j (countries a) "") = true
                             /\ isFL (pos_at a j) = true).
  { intros j. unfold is_intl_FL, is_intl. apply andb_true_iff. }
  split.
  - intros [[[] | ([(i & Hi & Hc) _] & j & Hj & Hcj & Hne)]
           | ([(i & Hi & Hc) _] & j & Hj & Hcj & Hne)].
    + left. apply filter_In in Hj. destruct Hj as [Hj Hint]. apply in_seq in Hj.
      apply HF in Hc. split; [exists i; tauto | exists j].
      unfold is_intl in Hint. split; [lia | tauto].
    + right. apply filter_In in Hj. destruct Hj as [Hj Hint]. apply in_seq in Hj.
      apply HM in Hc. apply HI in Hint. split; [exists i; tauto | exists j].
      split; [lia | tauto].
  - intros [[(i & Hi & Hc & Hp) (j & Hj & Hint & Hcj)]
           | [(i & Hi & Hc & Hp) (j & Hj & Hint & Hfl & Hcj)]].
    + left. right. split.
      * split; [exists i; split; [exact Hi | apply HF; tauto]
               | exists j; split; [exact Hj | exact Hint]].
      * exists j. split; [apply filter_In; split; [apply in_seq; lia | exact Hint]|].
        split; [exact Hcj|]. subst c. now apply isIntl_truthy in Hint.
    + right. split.
      * split; [exists i; split; [exact Hi | apply HM; tauto]
               | exists j; split; [exact Hj | apply HI; tauto]].
      * exists j. split; [apply filter_In; split; [apply in_seq; lia | apply HI; tauto]|].
        split; [exact Hcj|]. subst c. now apply isIntl_truthy in Hint.
Qed.

Lemma not_In_nil {A : Type} (l : list A) : (forall x, ~ In x l) -> l = [].
Proof. destruct l as [|x l]; [reflexivity|]. intros H. destruct (H x). now left. Qed.

(** What is never credited: the home country, any country when the home
    country is empty, and any country on a publication without a cohort
    author. *)
Theorem creditedThisPaper_never (cohort : JsMap.sset) (homeISO3 : string)
    (a : Authorships) :
  ~ In homeISO3 (creditedThisPaper cohort homeISO3 a)
  /\ ~ In "" (creditedThisPaper cohort homeISO3 a)
  /\ (homeISO3 = "" -> creditedThisPaper cohort homeISO3 a = [])
  /\ ((forall i, i < List.length (ids a) ->
                 isCohort cohort (nth i (ids a) "") = false) ->
      creditedThisPaper cohort homeISO3 a = []).
Proof.
  assert (G : forall c, In c (creditedThisPaper cohort homeISO3 a) ->
                        c <> "" /\ homeISO3 <> "" /\ c <> homeISO3).
  { intros c Hc. apply creditedThisPaper_both_rules in Hc.
    destruct Hc as [[_ (j & _ & Hint & <-)] | [_ (j & _ & Hint & _ & <-)]];
      now apply isIntl_truthy in Hint. }
  split; [intros H; apply G in H; tauto|].
  split; [intros H; apply G in H; tauto|].
  split.
  - intros E. apply not_In_nil. intros c Hc. apply G in Hc. tauto.
  - intros Hno. apply not_In_nil. intros c Hc.
    apply creditedThisPaper_both_rules in Hc.
    destruct Hc as [[(i & Hi & Hc & _) _] | [(i & Hi & Hc & _) _]];
      rewrite (Hno i Hi) in Hc; discriminate.
Qed.

(** Position matters: when no cohort author is first or last and no
    international author is first or last, nothing is credited, whatever
    the middle authors are. *)
Theorem creditedThisPaper_middle_only (cohort : JsMap.sset) (homeISO3 : string)
    (a : Authorships) :
  (forall i, i < List.length (ids a) ->
             isCohort cohort (nth i (ids a) "") = true -> isFL (pos_at a i) = false) ->
  (forall j, j < List.length (ids a) ->
             isIntl homeISO3 (nth j (countries a) "") = true ->
             isFL (pos_at a j) = false) ->
  creditedThisPaper cohort homeISO3 a = [].
Proof.
  intros Hc Hi. apply not_In_nil. intros c H.
  apply creditedThisPaper_both_rules in H.
  destruct H as [[(i & Hlt & Hco & Hfl) _] | [_ (j & Hlt & Hint & Hfl & _)]].
  - rewrite (Hc i Hlt Hco) in Hfl. discriminate.
  - rewrite (Hi j Hlt Hint) in Hfl. discriminate.
Qed.

Lemma creditedThisPaper_middle_only_witness :
  creditedThisPaper ["A1"] "CAN"
    (parseAuthorships (mkPub "W1" "FR|CA|US" "A7|A1|A9" "first|middle|middle")) <> []
  /\ creditedThisPaper ["A1"] "CAN"
       (parseAuthorships (mkPub "W1" "FR|CA|US" "A7|A1|A9" "middle|middle|middle")) = [].
Proof.
  split; [vm_compute; discriminate|].
  apply creditedThisPaper_middle_only.
  - intros i Hi Hc.
    destruct i as [|[|[|i]]]; try reflexivity; simpl in Hi; lia.
  - intros j Hj Hc.
    destruct j as [|[|[|j]]]; try reflexivity; simpl in Hj; lia.
Defined.

(** ** The series returned by [computeIntlLinks] *)

Lemma insert_string_perm (x : string) (l : list string) :
  Permutation (insert_string x l) (x :: l).
Proof.
  induction l as [|y l IH]; simpl; [reflexivity|].
  destruct (String.leb x y); [reflexivity|].
  rewrite IH. apply perm_swap.
Qed.

Lemma sort_strings_perm (l : list string) : Permutation (sort_strings l) l.
Proof.
  induction l as [|x l IH]; simpl; [reflexivity|].
  rewrite insert_string_perm. now constructor.
Qed.

Lemma insert_string_sorted (x : string) (l : list string) :
  Sorted (fun a b => String.leb a b = true) l ->
  Sorted (fun a b => String.leb a b = true) (insert_string x l).
Proof.
  induction 1 as [|y l Hs IH Hd]; simpl; [repeat constructor|].
  destruct (String.leb x y) eqn:E.
  - constructor; [constructor; assumption | constructor; exact E].
  - constructor; [exact IH|].
    assert (Hyx : String.leb y x = true).
    { destruct (String.leb_total x y) as [H|H]; [congruence | exact H]. }
    destruct l as [|z l]; simpl; [constructor; exact Hyx|].
    destruct (String.leb x z); constructor; [exact Hyx|].
    now inversion Hd.
Qed.

Lemma sort_strings_sorted (l : list string) :
  Sorted (fun a b => String.leb a b = true) (sort_strings l).
Proof.
  induction l as [|x l IH]; simpl; [constructor | now apply insert_string_sorted].
Qed.

Lemma fold_add_sum (l : list nat) (k : nat) :
  fold_left Nat.add l k = k + list_sum l.
Proof.
  revert k. induction l as [|x l IH]; intros k; simpl; [lia|]. rewrite IH. lia.
Qed.

Lemma list_sum_cons (a : nat) (l : list nat) : list_sum (a :: l) = a + list_sum l.
Proof. reflexivity. Qed.

(** Summing the occurrences of every distinct member counts the list. *)
Lemma sum_count_occ (L ks : list string) :
  NoDup ks -> (forall x, In x L -> In x ks) ->
  list_sum (map (count_occ string_dec L) ks) = List.length L.
Proof.
  intros Hnd. induction L as [|x L IH]; intros Hin.
  - clear. induction ks as [|k ks IHk]; simpl; auto.
  - assert (E : forall ks', NoDup ks' ->
                list_sum (map (count_occ string_dec (x :: L)) ks')
                = list_sum (map (count_occ string_dec L) ks')
                  + (if in_dec string_dec x ks' then 1 else 0)).
    { clear. induction ks' as [|k ks' IHk]; intros Hnd; [reflexivity|].
      inversion Hnd as [|? ? Hk Hnd']; subst.
      rewrite !map_cons, !list_sum_cons, (IHk Hnd'). cbn [count_occ].
      destruct (string_dec x k) as [->|Hne].
      - destruct (in_dec string_dec k (k :: ks')) as [_|F]; [|destruct F; now left].
        destruct (in_dec string_dec k ks'); [contradiction|]. lia.
      - destruct (in_dec string_dec x (k :: ks')) as [[F|I]|N];
          destruct (in_dec string_dec x ks') as [I'|N'];
          try congruence; try lia; exfalso; simpl in *; tauto. }
    rewrite (E ks Hnd), IH by (intros y Hy; apply Hin; now right).
    destruct (in_dec string_dec x ks) as [_|F]; [simpl; lia|].
    destruct F. apply Hin. now left.
Qed.

Lemma count_occ_flat_map {A : Type} (f : A -> list string) (l : list A) (c : string) :
  (forall p, In p l -> NoDup (f p)) ->
  count_occ string_dec (flat_map f l) c
  = List.length (filter (fun p => if in_dec string_dec c (f p) then true else false) l).
Proof.
  induction l as [|p l IH]; intros Hnd; [reflexivity|].
  cbn [flat_map filter]. rewrite count_occ_app, IH by (intros q Hq; apply Hnd; now right).
  assert (Hp : NoDup (f p)) by (apply Hnd; now left).
  destruct (in_dec string_dec c (f p)) as [I|N].
  - apply (proj1 (NoDup_count_occ' string_dec (f p)) Hp) in I. simpl. lia.
  - apply (proj1 (count_occ_not_In string_dec (f p) c)) in N. simpl. lia.
Qed.

(** The tally of [computeIntlLinks] is the tally of the credited
    countries of the publications, in order. *)
Lemma intl_counts_spec (pubs : list Pub) (roster : list RosterRow) (homeISO3 : string) :
  intl_counts pubs roster homeISO3
  = fold_left bump
      (flat_map (fun p => creditedThisPaper (cohortIDs roster) homeISO3
                            (parseAuthorships p)) pubs) [].
Proof.
  unfold intl_counts. generalize (@nil (string * nat)).
  induction pubs as [|p pubs IH]; intros m; [reflexivity|].
  cbn [fold_left flat_map]. rewrite fold_left_app, IH. f_equal.
  unfold intl_pub. destruct (_ =? 0)%nat eqn:E; [|reflexivity].
  apply Nat.eqb_eq in E.
  rewrite (proj2 (proj2 (proj2 (creditedThisPaper_never (cohortIDs roster) homeISO3
                                   (parseAuthorships p))))); [reflexivity|].
  intros i Hi. lia.
Qed.

(** The series of [computeIntlLinks]: the credited countries in ascending
    order without repetition, for each of them the number of publications
    that credit it, and as total the number of credits given. *)
Theorem computeIntlLinks_series (pubs : list Pub) (roster : list RosterRow)
    (homeISO3 : string) :
  let r := computeIntlLinks pubs roster homeISO3 in
  let credited := fun p => creditedThisPaper (cohortIDs roster) homeISO3
                             (parseAuthorships p) in
  Sorted (fun x y => String.leb x y = true) (iso3 r)
  /\ NoDup (iso3 r)
  /\ (forall c, In c (iso3 r) <-> exists p, In p pubs /\ In c (credited p))
  /\ values r
     = map (fun c => List.length
                       (filter (fun p => if in_dec string_dec c (credited p)
                                         then true else false) pubs))
           (iso3 r)
  /\ total r = list_sum (values r)
  /\ total r = list_sum (map (fun p => List.length (credited p)) pubs).
Proof.
  intros r credited. unfold r, computeIntlLinks. cbn [iso3 values total].
  rewrite intl_counts_spec. fold credited.
  set (L := flat_map credited pubs).
  assert (Hk : JsMap.keys (fold_left bump L []) = JsMap.of_list L).
  { rewrite keys_tally. reflexivity. }
  rewrite Hk.
  assert (Hnd : NoDup (sort_strings (JsMap.of_list L))).
  { eapply Permutation_NoDup; [symmetry; apply sort_strings_perm|].
    apply NoDup_of_list. }
  assert (Hin : forall c, In c (sort_strings (JsMap.of_list L)) <-> In c L).
  { intros c. split; intros H.
    - apply (proj1 (In_of_list L c)).
      eapply Permutation_in; [apply sort_strings_perm | exact H].
    - eapply Permutation_in; [symmetry; apply sort_strings_perm|].
      apply (proj2 (In_of_list L c)). exact H. }
  assert (Hc : forall c, count_of (fold_left bump L []) c = count_occ string_dec L c).
  { intros c. now rewrite count_of_tally. }
  assert (Hv : map (count_of (fold_left bump L [])) (sort_strings (JsMap.of_list L))
               = map (count_occ string_dec L) (sort_strings (JsMap.of_list L))).
  { apply map_ext. exact Hc. }
  split; [apply sort_strings_sorted|]. split; [exact Hnd|]. split.
  - intros c. rewrite Hin. unfold L. rewrite in_flat_map. reflexivity.
  - split.
    + rewrite Hv. apply map_ext. intros c. unfold L.
      apply count_occ_flat_map. intros p _. apply NoDup_credited.
    + split; [apply fold_add_sum|].
      rewrite fold_add_sum, Hv, Nat.add_0_l.
      rewrite sum_count_occ; [|exact Hnd | intros x; apply Hin].
      unfold L. clear. induction pubs as [|p pubs IH]; [reflexivity|].
      cbn [flat_map map]. now rewrite list_sum_cons, length_app, IH.
Qed.

(* ================================================================== *)
(** * CSV lines: what is written is read back *)
(* ================================================================== *)

Lemma append_nil_r (s : string) : (s ++ "")%string = s.
Proof. induction s as [|c s IH]; simpl; [reflexivity | now rewrite IH]. Qed.

Lemma append_assoc (a b c : string) : ((a ++ b) ++ c)%string = (a ++ (b ++ c))%string.
Proof. induction a as [|x a IH]; simpl; [reflexivity | now rewrite IH]. Qed.

Lemma append_snoc (cur : string) (c : ascii) (f : string) :
  ((cur ++ String c "") ++ f)%string = (cur ++ String c f)%string.
Proof. now rewrite append_assoc. Qed.

(** A cell without quote or comma is read as it stands. *)
Lemma scan_plain (f rest : string) (out : list string) (cur : string) :
  string_forall (fun c => negb ((c =? dquote)%char || (c =? ",")%char)) f = true ->
  splitCSV_from (f ++ rest) out cur false = splitCSV_from rest out (cur ++ f) false.
Proof.
  revert cur. induction f as [|c f IH]; intros cur H.
  - simpl. now rewrite append_nil_r.
  - cbn [string_forall] in H. apply andb_true_iff in H. destruct H as [Hc Hf].
    apply negb_true_iff, orb_false_iff in Hc. destruct Hc as [Hq Hk].
    cbn [append splitCSV_from]. rewrite Hq, Hk. cbn [andb].
    rewrite (IH _ Hf), append_snoc. reflexivity.
Qed.

(** Inside quotes, the doubled text up to the closing quote is read as
    the text. *)
Lemma scan_quoted (body rest : string) (out : list string) (cur : string) :
  rest = "" \/ (exists r, rest = String "," r) ->
  splitCSV_from (double_quotes body ++ String dquote rest) out cur true
  = splitCSV_from rest out (cur ++ body) false.
Proof.
  intros Hrest. revert cur. induction body as [|c body IH]; intros cur.
  - rewrite append_nil_r. cbn [double_quotes append splitCSV_from].
    destruct Hrest as [-> | (r & ->)]; reflexivity.
  - cbn [double_quotes]. destruct (c =? dquote)%char eqn:E.
    + apply Ascii.eqb_eq in E. subst c. cbn [append splitCSV_from].
      rewrite IH, append_snoc. reflexivity.
    + cbn [append splitCSV_from]. rewrite E.
      rewrite andb_false_r. rewrite IH, append_snoc. reflexivity.
Qed.

Lemma string_exists_false (P : ascii -> bool) (s : string) :
  string_exists P s = false -> string_forall (fun c => negb (P c)) s = true.
Proof. unfold string_exists. now destruct (string_forall _ s). Qed.

(** What [csvEscape] writes for a cell is read back as the cell, up to
    the next comma or the end of the line. *)
Lemma scan_field (f rest : string) (out : list string) (cur : string) :
  rest = "" \/ (exists r, rest = String "," r) ->
  splitCSV_from (csvEscape f ++ rest) out cur false
  = splitCSV_from rest out (cur ++ clean_breaks f) false.
Proof.
  intros Hrest. unfold csvEscape. cbv zeta.
  destruct (test_char quote_comma_space (first_char (clean_breaks f))
            || test_char quote_comma_space (last_char (clean_breaks f))
            || string_exists quote_comma_break (clean_breaks f)) eqn:E.
  - cbn [append]. rewrite append_assoc. cbn [append].
    set (line := (double_quotes (clean_breaks f) ++ String dquote rest)%string).
    assert (Hl : exists c l, line = String c l).
    { unfold line. destruct (double_quotes (clean_breaks f)); simpl; eauto. }
    destruct Hl as (c & l & Hl).
    cbn [splitCSV_from]. rewrite Hl. cbn [andb negb]. rewrite <- Hl.
    unfold line. now apply scan_quoted.
  - apply orb_false_iff in E. destruct E as [_ E].
    apply string_exists_false in E. apply scan_plain.
    eapply string_forall_impl; [|exact E].
    intros c Hc. unfold quote_comma_break in Hc.
    destruct (c =? dquote)%char, (c =? ",")%char; simpl in *; congruence.
Qed.

Lemma scan_line (f : string) (l : list string) (out : list string) :
  splitCSV_from (csv_line (f :: l)) out "" false = out ++ map clean_breaks (f :: l).
Proof.
  revert f out. induction l as [|g l IH]; intros f out.
  - unfold csv_line, join. cbn [map concat].
    rewrite <- (append_nil_r (csvEscape f)), scan_field by now left.
    reflexivity.
  - unfold csv_line, join in *. cbn [map concat].
    change (csvEscape f ++ "," ++ concat "," (csvEscape g :: map csvEscape l))%string
      with (csvEscape f ++ String "," (concat "," (map csvEscape (g :: l))))%string.
    rewrite scan_field by (right; eexists; reflexivity).
    cbn [splitCSV_from append].
    change ("," =? dquote)%char with false. change ("," =? ",")%char with true.
    cbn [andb negb].
    etransitivity; [apply (IH g (out ++ [clean_breaks f]))|].
    now rewrite <- app_assoc.
Qed.

(** Round trip: a line written by the export, cell by cell through
    [csvEscape] and joined by commas, is split back by [splitCSVLine]
    into the cells, line breaks replaced by spaces; commas, quotes and
    surrounding blanks of the cells come back unchanged. *)
Theorem splitCSVLine_csv_line (row : list string) :
  row <> [] -> splitCSVLine (csv_line row) = map clean_breaks row.
Proof.
  intros Hne. destruct row as [|f l]; [congruence|].
  unfold splitCSVLine. now rewrite scan_line.
Qed.

Lemma splitCSVLine_csv_line_witness :
  splitCSVLine (csv_line ["a,b"; " x "; String "s" (String dquote "t"); ""])
  = ["a,b"; " x "; String "s" (String dquote "t"); ""].
Proof.
  apply (splitCSVLine_csv_line ["a,b"; " x "; String "s" (String dquote "t"); ""]).
  discriminate.
Defined.

(** Without any quote on the line, [splitCSVLine] is the split at the
    commas. *)
Lemma scan_no_quote (s : string) (out : list string) (cur : string) :
  quote_free s = true ->
  splitCSV_from s out cur false
  = out ++ (cur ++ hd "" (split "," s))%string :: tl (split "," s).
Proof.
  unfold quote_free, split. revert out cur.
  induction s as [|c s IH]; intros out cur H.
  - simpl. now rewrite append_nil_r.
  - cbn [string_forall] in H. apply andb_true_iff in H. destruct H as [Hc Hs].
    apply negb_true_iff in Hc. cbn [splitCSV_from split_by]. rewrite Hc.
    destruct (c =? ",")%char eqn:E; cbn [andb negb].
    + rewrite (IH _ _ Hs). cbn [hd tl]. rewrite append_nil_r, <- app_assoc.
      cbn [append app]. f_equal. f_equal.
      symmetry. apply split_by_view.
    + rewrite (IH _ _ Hs).
      destruct (split_by (fun c0 => (c0 =? ",")%char) s) as [|h t]; cbn [hd tl];
        now rewrite append_snoc.
Qed.

Theorem splitCSVLine_no_quote (line : string) :
  quote_free line = true -> splitCSVLine line = split "," line.
Proof.
  intros H. unfold splitCSVLine. rewrite (scan_no_quote line [] "" H).
  cbn [app append]. symmetry. apply split_by_view.
Qed.

Lemma splitCSVLine_no_quote_witness :
  splitCSVLine "2021,Cell atlas,,42" = ["2021"; "Cell atlas"; ""; "42"].
Proof.
  rewrite splitCSVLine_no_quote; reflexivity.
Defined.

(* ================================================================== *)
(** * Topic query: how queries and texts compose *)
(* ================================================================== *)

(** A query of several words is the conjunction of its parts. *)
Theorem fuzzyQueryMatch_conjunction (q1 q2 text : string) :
  fuzzyQueryMatch (q1 ++ " " ++ q2) text
  = fuzzyQueryMatch q1 text && fuzzyQueryMatch q2 text.
Proof.
  apply Bool.eq_iff_eq_true.
  rewrite andb_true_iff, !fuzzyQueryMatch_spec, words_app_space. split.
  - intros H. split; intros q Hq; apply H, in_or_app; tauto.
  - intros [H1 H2] q Hq. apply in_app_or in Hq. destruct Hq; auto.
Qed.

(** More text never loses a match, and a query without any letter or
    digit matches every text. *)
Theorem fuzzyQueryMatch_monotone (q text more : string) :
  fuzzyQueryMatch q text = true ->
  fuzzyQueryMatch q (text ++ " " ++ more) = true
  /\ fuzzyQueryMatch q (more ++ " " ++ text) = true.
Proof.
  rewrite !fuzzyQueryMatch_spec, !words_app_space. intros H.
  split; intros w Hw; destruct (H w Hw) as (t & Ht & E); exists t;
    (split; [apply in_or_app; tauto | exact E]).
Qed.

Lemma fuzzyQueryMatch_monotone_witness :
  fuzzyQueryMatch "genes" ("Gene editing" ++ " " ++ "in maize") = true
  /\ fuzzyQueryMatch "genes" ("in maize" ++ " " ++ "Gene editing") = true.
Proof.
  apply fuzzyQueryMatch_monotone. reflexivity.
Defined.

(** An ASCII query without any letter or digit matches every text. *)
Theorem fuzzyQueryMatch_no_word (q text : string) :
  ascii_text q = true -> words q = [] -> fuzzyQueryMatch q text = true.
Proof.
  intros _ H. apply fuzzyQueryMatch_spec. rewrite H. intros w [].
Qed.

Lemma fuzzyQueryMatch_no_word_witness : fuzzyQueryMatch " -- ?! " "anything" = true.
Proof. apply fuzzyQueryMatch_no_word; reflexivity. Defined.

(* ================================================================== *)
(** * Home institution *)
(* ================================================================== *)

Lemma tally_home_fold (cohort : JsMap.sset) (a : Authorships) (idx : list nat)
    (m : JsMap.t nat) :
  fold_left (tally_home_ror cohort a) idx m
  = fold_left bump
      (flat_map (fun i =>
                   let id := nth i (ids a) "" in
                   let ror := ror_at a i in
                   if truthy id && truthy ror && JsMap.shas cohort id
                   then [ror] else []) idx) m.
Proof.
  revert m. induction idx as [|i idx IH]; intros m; simpl.
  - reflexivity.
  - rewrite fold_left_app, IH. f_equal. unfold tally_home_ror.
    destruct (truthy (nth i (ids a) "")), (truthy (ror_at a i)),
      (JsMap.shas cohort (nth i (ids a) "")); reflexivity.
Qed.

Lemma talliesHome_spec (roster : list RosterRow) (pubs : list Pub) :
  talliesHome (cohortIDs roster) pubs = fold_left bump (cohort_rors roster pubs) [].
Proof.
  unfold talliesHome, cohort_rors. generalize (@nil (string * nat)).
  induction pubs as [|p pubs IH]; intros m; simpl.
  - reflexivity.
  - rewrite fold_left_app, IH. f_equal. apply tally_home_fold.
Qed.

Lemma cohort_rors_truthy (roster : list RosterRow) (pubs : list Pub) (c : string) :
  In c (cohort_rors roster pubs) -> c <> "".
Proof.
  unfold cohort_rors, cohort_rors_of. intros H.
  apply in_flat_map in H. destruct H as (p & _ & H).
  apply in_flat_map in H. destruct H as (i & _ & H).
  destruct (truthy (nth i (ids (parseAuthorships p)) "")); [|contradiction].
  destruct (truthy (ror_at (parseAuthorships p) i)) eqn:E; [|contradiction].
  destruct (JsMap.shas _ _); [|contradiction].
  destruct H as [<- | []]. intros F. rewrite F in E. discriminate.
Qed.

(** The scan from [(b, bn)] keeps the first entry that carries the
    largest count above [bn]. *)
Lemma ror_scan (m : JsMap.t nat) (b : string) (bn : nat) :
  (fold_left (fun (st : string * nat) (kn : string * nat) =>
                if (snd st <? snd kn)%nat then (fst kn, snd kn) else st) m (b, bn)
   = (b, bn)
   /\ forall k n, In (k, n) m -> n <= bn)
  \/ exists m1 h nh m2,
       m = m1 ++ (h, nh) :: m2
       /\ fold_left (fun (st : string * nat) (kn : string * nat) =>
                       if (snd st <? snd kn)%nat then (fst kn, snd kn) else st)
                    m (b, bn) = (h, nh)
       /\ bn < nh
       /\ (forall k n, In (k, n) m1 -> n < nh)
       /\ (forall k n, In (k, n) m2 -> n <= nh).
Proof.
  revert b bn. induction m as [|[k n] m IH]; intros b bn; cbn [fold_left fst snd].
  - left. split; [reflexivity | intros ? ? []].
  - destruct (Nat.ltb_spec bn n) as [Hlt|Hge].
    + right. destruct (IH k n) as [[Hr Hall] | (m1 & h & nh & m2 & Hm & Hr & Hb & H1 & H2)].
      * exists [], k, n, m. simpl. repeat split; try assumption.
        intros ? ? [].
      * exists ((k, n) :: m1), h, nh, m2. subst m. simpl.
        repeat split; try assumption; try lia.
        intros k' n' [E | Hin]; [inversion E; subst; lia | eauto].
    + destruct (IH b bn) as [[Hr Hall] | (m1 & h & nh & m2 & Hm & Hr & Hb & H1 & H2)].
      * left. split; [assumption|].
        intros k' n' [E | Hin]; [inversion E; subst; lia | eauto].
      * right. exists ((k, n) :: m1), h, nh, m2. subst m. simpl.
        repeat split; try assumption.
        intros k' n' [E | Hin]; [inversion E; subst; lia | eauto].
Qed.

Lemma tally_entries (l : list string) (k : string) (n : nat) :
  In (k, n) (fold_left bump l []) -> n = count_occ string_dec l k /\ In k l.
Proof.
  intros Hin.
  assert (Hkeys : JsMap.keys (fold_left bump l []) = JsMap.of_list l)
    by apply keys_tally.
  assert (Hnd : NoDup (JsMap.keys (fold_left bump l [])))
    by (rewrite Hkeys; apply NoDup_of_list).
  pose proof (get_of_entry _ _ _ Hnd Hin) as Hg.
  pose proof (count_of_tally l [] k) as Hc.
  unfold count_of in Hc at 1. rewrite Hg in Hc. simpl in Hc.
  split; [exact Hc|]. apply (proj1 (In_of_list l k)). rewrite <- Hkeys.
  change k with (fst (k, n)). now apply in_map.
Qed.

(** The first entry with the largest count of a tally is the most
    frequent member of the tallied list, the first seen among ties. *)
Lemma tally_argmax (l : list string) :
  (l = [] -> homeROR_of (fold_left bump l []) = "")
  /\ (l <> [] ->
      In (homeROR_of (fold_left bump l [])) l
      /\ (forall c, count_occ string_dec l c
                    <= count_occ string_dec l (homeROR_of (fold_left bump l [])))
      /\ (forall c, count_occ string_dec l c
                    = count_occ string_dec l (homeROR_of (fold_left bump l [])) ->
                    first_index (homeROR_of (fold_left bump l [])) l
                    <= first_index c l)).
Proof.
  split; [intros ->; reflexivity|]. intros Hl.
  assert (Hcnt : forall k n, In (k, n) (fold_left bump l []) ->
                             n = count_occ string_dec l k)
    by (intros k n H; now apply tally_entries).
  unfold homeROR_of.
  destruct (ror_scan (fold_left bump l []) "" 0)
    as [[_ Hall] | (m1 & h & nh & m2 & Hm & Hr & _ & H1 & H2)].
  - exfalso. destruct l as [|x l']; [congruence|].
    assert (Hx : In x (JsMap.keys (fold_left bump (x :: l') []))).
    { rewrite keys_tally. apply (proj2 (In_of_list (x :: l') x)). now left. }
    apply in_map_iff in Hx. destruct Hx as ([k n] & Hk & Hin). simpl in Hk. subst k.
    pose proof (Hall _ _ Hin) as Hz.
    destruct (tally_entries _ _ _ Hin) as [Hn Hxl].
    apply (count_occ_In string_dec) in Hxl. lia.
  - rewrite Hr. cbn [fst].
    assert (Hnh : nh = count_occ string_dec l h).
    { apply Hcnt. rewrite Hm. apply in_elt. }
    subst nh.
    assert (Hkeys : JsMap.of_list l = JsMap.keys m1 ++ h :: JsMap.keys m2).
    { change (JsMap.of_list l)
        with (fold_left JsMap.sadd l (JsMap.keys (@nil (string * nat)))).
      rewrite <- keys_tally, Hm. unfold JsMap.keys. now rewrite map_app. }
    assert (Hhl : In h l).
    { apply (proj1 (In_of_list l h)). rewrite Hkeys. apply in_elt. }
    assert (Hentry : forall c, In c l ->
              (exists n, In (c, n) m1 /\ n = count_occ string_dec l c)
              \/ c = h
              \/ (In c (JsMap.keys m2)
                  /\ count_occ string_dec l c <= count_occ string_dec l h)).
    { intros c Hc. apply (proj2 (In_of_list l c)) in Hc. rewrite Hkeys in Hc.
      apply in_app_or in Hc. destruct Hc as [Hc | [Hc | Hc]].
      - left. apply in_map_iff in Hc. destruct Hc as ([k n] & <- & Hin).
        exists n. split; [assumption|]. apply Hcnt. rewrite Hm.
        apply in_or_app. now left.
      - right. left. now symmetry.
      - right. right. split; [assumption|].
        apply in_map_iff in Hc. destruct Hc as ([k n] & <- & Hin). simpl.
        rewrite <- (Hcnt k n); [eapply H2; eauto|].
        rewrite Hm. apply in_or_app. right. now right. }
    split; [exact Hhl|]. split.
    + intros c. destruct (in_dec string_dec c l) as [Hc|Hc].
      * destruct (Hentry c Hc) as [(n & Hin & ->) | [-> | [_ Hle]]];
          [apply Nat.lt_le_incl; eapply H1; eauto | lia | assumption].
      * apply (count_occ_not_In string_dec) in Hc. lia.
    + intros c Hc.
      destruct (in_dec string_dec c l) as [Hcl|Hcl].
      * destruct (Hentry c Hcl) as [(n & Hin & Hn) | [-> | [Hk2 _]]].
        -- specialize (H1 _ _ Hin). lia.
        -- lia.
        -- apply Nat.lt_le_incl. eapply of_list_order; eauto.
      * apply (count_occ_not_In string_dec) in Hcl.
        apply (count_occ_In string_dec) in Hhl. lia.
Qed.

(** [computeHomeROR] returns the institution that the cohort authorships
    of the selection carry most often, the first seen among those that
    tie, and the empty string when no cohort authorship carries an
    institution; the result is never the empty string otherwise. *)
Theorem computeHomeROR_most_frequent (roster : list RosterRow) (pubs : list Pub) :
  let l := cohort_rors roster pubs in
  let home := computeHomeROR roster pubs in
  (l = [] -> home = "")
  /\ (l <> [] ->
      In home l /\ home <> ""
      /\ (forall c, count_occ string_dec l c <= count_occ string_dec l home)
      /\ (forall c, count_occ string_dec l c = count_occ string_dec l home ->
                    first_index home l <= first_index c l)).
Proof.
  intros l home. unfold home, computeHomeROR. rewrite talliesHome_spec. fold l.
  destruct (tally_argmax l) as [H0 H1]. split; [exact H0|].
  intros Hl. destruct (H1 Hl) as (Hin & Hmax & Hfirst).
  split; [exact Hin|]. split; [|split; assumption].
  apply (cohort_rors_truthy roster pubs). exact Hin.
Qed.

(* ================================================================== *)
(** * Country codes *)
(* ================================================================== *)

Lemma is_space_upper (c : ascii) : is_space (upper_char c) = is_space c.
Proof. ascii_cases c. Qed.

Lemma upper_char_idem (c : ascii) : upper_char (upper_char c) = upper_char c.
Proof. ascii_cases c. Qed.

Lemma toUpperCase_idem (s : string) : toUpperCase (toUpperCase s) = toUpperCase s.
Proof.
  unfold toUpperCase. induction s as [|c s IH]; simpl; [reflexivity|].
  now rewrite upper_char_idem, IH.
Qed.

Lemma trimStart_upper (s : string) :
  toUpperCase (trimStart s) = trimStart (toUpperCase s).
Proof.
  unfold toUpperCase. induction s as [|c s IH]; simpl; [reflexivity|].
  rewrite is_space_upper. destruct (is_space c); [exact IH | reflexivity].
Qed.

Lemma map_chars_empty (f : ascii -> ascii) (s : string) :
  (map_chars f s =? "") = (s =? "").
Proof. destruct s; reflexivity. Qed.

Lemma trimEnd_upper (s : string) :
  toUpperCase (trimEnd s) = trimEnd (toUpperCase s).
Proof.
  unfold toUpperCase. induction s as [|c s IH]; simpl; [reflexivity|].
  rewrite is_space_upper, <- IH, map_chars_empty.
  destruct (is_space c && (trimEnd s =? "")); reflexivity.
Qed.

Lemma trim_upper (s : string) : toUpperCase (trim s) = trim (toUpperCase s).
Proof. unfold trim. now rewrite trimEnd_upper, trimStart_upper. Qed.

Lemma trimEnd_idem (s : string) : trimEnd (trimEnd s) = trimEnd s.
Proof.
  induction s as [|c s IH]; simpl; [reflexivity|].
  destruct (is_space c && (trimEnd s =? "")) eqn:E; [reflexivity|].
  simpl. rewrite IH, E. reflexivity.
Qed.

Lemma trimStart_head (s : string) :
  trimStart s = "" \/ exists c r, trimStart s = String c r /\ is_space c = false.
Proof.
  induction s as [|c s IH]; simpl; [now left|].
  destruct (is_space c) eqn:E; [exact IH | right; eauto].
Qed.

Lemma trimStart_trimEnd (t : string) :
  (t = "" \/ exists c r, t = String c r /\ is_space c = false) ->
  trimStart (trimEnd t) = trimEnd t.
Proof.
  intros [-> | (c & r & -> & Hc)]; [reflexivity|].
  simpl. rewrite Hc. simpl. now rewrite Hc.
Qed.

(** Trimming twice is trimming once. *)
Lemma trim_idem (s : string) : trim (trim s) = trim s.
Proof.
  unfold trim. rewrite (trimStart_trimEnd (trimStart s) (trimStart_head s)).
  apply trimEnd_idem.
Qed.

Lemma ISO2_TO_3_values :
  Forall (fun kv => toISO3 (snd kv) = snd kv /\ String.length (snd kv) = 3)
         ISO2_TO_3.
Proof. unfold ISO2_TO_3. repeat constructor. Qed.

(** [toISO3] returns the empty string or a code of three characters
    without lowercase letter, and leaves its own results unchanged. *)
Theorem toISO3_normal_form (code : string) :
  (toISO3 code = "" \/ String.length (toISO3 code) = 3)
  /\ no_lower (toISO3 code) = true
  /\ toISO3 (toISO3 code) = toISO3 code.
Proof.
  destruct (String.eqb_spec code "") as [->|Hne].
  - split; [now left|]. split; reflexivity.
  - assert (E : toISO3 code
                = if (String.length (toUpperCase (trim code)) =? 3)%nat
                  then toUpperCase (trim code)
                  else match JsMap.get ISO2_TO_3 (toUpperCase (trim code)) with
                       | Some v => v
                       | None => ""
                       end).
    { unfold toISO3. destruct (String.eqb_spec code ""); [contradiction | reflexivity]. }
    rewrite E. clear E. set (c := toUpperCase (trim code)).
    destruct (String.length c =? 3)%nat eqn:E3.
    + split; [right; now apply Nat.eqb_eq|]. split.
      * unfold c, no_lower, toUpperCase.
        generalize (trim code). intros s. induction s as [|x s IH]; simpl; [reflexivity|].
        rewrite IH, andb_true_r. clear. ascii_cases x.
      * unfold toISO3.
        destruct (c =? "") eqn:Ec;
          [apply String.eqb_eq in Ec; rewrite Ec in E3; discriminate|].
        assert (Ecc : toUpperCase (trim c) = c).
        { unfold c. now rewrite <- trim_upper, trim_idem, toUpperCase_idem. }
        rewrite Ecc, E3. reflexivity.
    + destruct (JsMap.get ISO2_TO_3 c) as [v|] eqn:Eg;
        [|split; [now left | split; reflexivity]].
      apply get_In in Eg.
      pose proof (proj1 (Forall_forall _ _) ISO2_TO_3_values (c, v) Eg) as [Hv Hl].
      cbn [snd] in Hv, Hl. split; [now right|]. split; [|exact Hv].
      clear - Eg. revert Eg. unfold ISO2_TO_3. cbn [In].
      intros H. repeat (destruct H as [H|H]; [inversion H; reflexivity|]). contradiction.
Qed.

(* ================================================================== *)
(** * [normalizeText] returns a normal text and is idempotent *)
(* ================================================================== *)

Lemma single_spaced_runs (bad : ascii -> bool) (b : bool) (s : string) :
  bad " "%char = true ->
  single_spaced (replace_runs bad b s) = true
  /\ (b = true ->
      test_char (fun d => (d =? " ")%char) (first_char (replace_runs bad b s)) = false).
Proof.
  intros Hsp. revert b. induction s as [|c s IH]; intros b.
  - simpl. split; reflexivity.
  - cbn [replace_runs]. destruct (bad c) eqn:Ec.
    + destruct b.
      * apply IH.
      * destruct (IH true) as [H1 H2]. split; [|discriminate].
        cbn [single_spaced]. rewrite (H2 eq_refl), H1. reflexivity.
    + assert (Hc : (c =? " ")%char = false).
      { destruct (Ascii.eqb_spec c " "); [subst; congruence | reflexivity]. }
      destruct (IH false) as [H1 _]. split.
      * cbn [single_spaced]. rewrite Hc, H1. reflexivity.
      * intros _. cbn [first_char test_char]. exact Hc.
Qed.

(** A run replacement changes nothing on a text whose [bad] characters
    are single spaces. *)
Lemma replace_runs_fixed (bad : ascii -> bool) (b : bool) (s : string) :
  string_forall (fun c => negb (bad c) || (c =? " ")%char) s = true ->
  single_spaced s = true ->
  (b = true -> test_char bad (first_char s) = false) ->
  replace_runs bad b s = s.
Proof.
  revert b. induction s as [|c s IH]; intros b Hall Hss Hb; [reflexivity|].
  cbn [string_forall single_spaced] in Hall, Hss.
  apply andb_true_iff in Hall. destruct Hall as [Hc Hall].
  apply andb_true_iff in Hss. destruct Hss as [Hcs Hss].
  cbn [replace_runs]. destruct (bad c) eqn:Ec.
  - destruct b; [specialize (Hb eq_refl); cbn in Hb; congruence|].
    simpl in Hc. apply Ascii.eqb_eq in Hc. subst c. f_equal.
    apply IH; [assumption | assumption | intros _].
    cbn [andb negb] in Hcs. rewrite Ascii.eqb_refl in Hcs. cbn [andb] in Hcs.
    apply negb_true_iff in Hcs.
    destruct s as [|d s]; [reflexivity|]. cbn [first_char test_char] in *.
    cbn [string_forall] in Hall. apply andb_true_iff in Hall. destruct Hall as [Hd _].
    destruct (bad d); [|reflexivity]. simpl in Hd. congruence.
  - f_equal. apply IH; [assumption | assumption | discriminate].
Qed.

Lemma single_spaced_trimStart (s : string) :
  single_spaced s = true -> single_spaced (trimStart s) = true.
Proof.
  induction s as [|c s IH]; intros H; [reflexivity|].
  cbn [trimStart]. destruct (is_space c); [|exact H].
  cbn [single_spaced] in H. apply andb_true_iff in H. now apply IH.
Qed.

Lemma first_char_trimEnd (s : string) :
  trimEnd s = "" \/ first_char (trimEnd s) = first_char s.
Proof.
  destruct s as [|c s]; [now left|]. cbn [trimEnd].
  destruct (is_space c && (trimEnd s =? "")); [now left | now right].
Qed.

Lemma single_spaced_trimEnd (s : string) :
  single_spaced s = true -> single_spaced (trimEnd s) = true.
Proof.
  induction s as [|c s IH]; intros H; [reflexivity|].
  cbn [single_spaced] in H. apply andb_true_iff in H. destruct H as [Hc Hs].
  cbn [trimEnd]. destruct (is_space c && (trimEnd s =? "")); [reflexivity|].
  cbn [single_spaced]. rewrite (IH Hs), andb_true_r.
  destruct (first_char_trimEnd s) as [E | E]; rewrite E; [|exact Hc].
  cbn [first_char test_char]. now rewrite andb_false_r.
Qed.

Lemma normal_space (c : ascii) :
  alnum_or_space c = true -> negb (is_space c) || (c =? " ")%char = true.
Proof. ascii_cases c. Qed.

Lemma normal_alnum (c : ascii) :
  alnum_or_space c = true -> negb (not_alnum c) || (c =? " ")%char = true.
Proof. ascii_cases c. Qed.

(** The result of [normalizeText] is made of the letters a-z, the digits
    and single spaces, has no space at either end, and is left unchanged
    by [normalizeText]: normalising twice is normalising once. *)
Theorem normalizeText_idempotent (t : string) :
  string_forall alnum_or_space (normalizeText t) = true
  /\ single_spaced (normalizeText t) = true
  /\ trim (normalizeText t) = normalizeText t
  /\ normalizeText (normalizeText t) = normalizeText t.
Proof.
  assert (H1 : string_forall alnum_or_space (normalizeText t) = true)
    by apply normalizeText_chars.
  assert (H2 : single_spaced (normalizeText t) = true).
  { unfold normalizeText, trim.
    apply single_spaced_trimEnd, single_spaced_trimStart.
    now apply single_spaced_runs. }
  assert (H3 : trim (normalizeText t) = normalizeText t).
  { unfold normalizeText. apply trim_idem. }
  split; [exact H1|]. split; [exact H2|]. split; [exact H3|].
  unfold normalizeText at 1. rewrite (toLowerCase_normal _ H1).
  rewrite (replace_runs_fixed not_alnum false (normalizeText t));
    [| eapply string_forall_impl; [apply normal_alnum | exact H1]
     | exact H2 | discriminate].
  rewrite (replace_runs_fixed is_space false (normalizeText t));
    [| eapply string_forall_impl; [apply normal_space | exact H1]
     | exact H2 | discriminate].
  exact H3.
Qed.

(* ================================================================== *)
(** * [escapeHTML] *)
(* ================================================================== *)

(** The text returned by [escapeHTML] holds no angle bracket, no quote
    and no apostrophe; a text without these and without ampersand is
    returned unchanged. *)
Theorem escapeHTML_inert (s : string) :
  string_forall (fun c => negb (html_active c)) (escapeHTML s) = true
  /\ (string_forall (fun c => negb (html_active c || (c =? "&")%char)) s = true ->
      escapeHTML s = s).
Proof.
  split.
  - induction s as [|c s IH]; [reflexivity|].
    cbn [escapeHTML]. rewrite string_forall_app, IH, andb_true_r.
    unfold escape_char.
    destruct (c =? "&")%char; [reflexivity|].
    destruct (c =? "<")%char eqn:E1; [reflexivity|].
    destruct (c =? ">")%char eqn:E2; [reflexivity|].
    destruct (c =? dquote)%char eqn:E3; [reflexivity|].
    destruct (c =? "'")%char eqn:E4; [reflexivity|].
    cbn [string_forall]. unfold html_active. now rewrite E1, E2, E3, E4.
  - induction s as [|c s IH]; intros H; [reflexivity|].
    cbn [string_forall] in H. apply andb_true_iff in H. destruct H as [Hc Hs].
    cbn [escapeHTML]. rewrite (IH Hs). unfold escape_char.
    apply negb_true_iff, orb_false_iff in Hc. destruct Hc as [Hc Ha].
    unfold html_active in Hc.
    apply orb_false_iff in Hc. destruct Hc as [Hc E4].
    apply orb_false_iff in Hc. destruct Hc as [Hc E3].
    apply orb_false_iff in Hc. destruct Hc as [E1 E2].
    now rewrite Ha, E1, E2, E3, E4.
Qed.

(* ================================================================== *)
(** * [uniqueNonEmpty] *)
(* ================================================================== *)

(** The options of a filter: the values that are not blank, each once,
    in ascending order. *)
Theorem uniqueNonEmpty_sorted_set (arr : list string) :
  Sorted (fun x y => String.leb x y = true) (uniqueNonEmpty arr)
  /\ NoDup (uniqueNonEmpty arr)
  /\ (forall x, In x (uniqueNonEmpty arr) <-> In x arr /\ trim x <> "").
Proof.
  unfold uniqueNonEmpty.
  set (l := filter (fun v => truthy v && negb (trim v =? "")) arr).
  split; [apply sort_strings_sorted|]. split.
  - eapply Permutation_NoDup; [symmetry; apply sort_strings_perm|].
    apply NoDup_of_list.
  - intros x.
    assert (H1 : In x (sort_strings (JsMap.of_list l)) <-> In x l).
    { split; intros H.
      - apply (proj1 (In_of_list l x)).
        eapply Permutation_in; [apply sort_strings_perm | exact H].
      - eapply Permutation_in; [symmetry; apply sort_strings_perm|].
        apply (proj2 (In_of_list l x)). exact H. }
    rewrite H1. unfold l. rewrite filter_In, andb_true_iff, negb_true_iff.
    rewrite String.eqb_neq. unfold truthy. rewrite negb_true_iff, String.eqb_neq.
    split; [tauto|]. intros [Hin Ht]. split; [exact Hin|]. split; [|exact Ht].
    intros ->. apply Ht. reflexivity.
Qed.

(* ================================================================== *)
(** * [canonName] and the name-matching path: when they throw *)
(* ================================================================== *)

Lemma string_exists_cons (P : ascii -> bool) (c : ascii) (r : string) :
  string_exists P (String c r) = P c || string_exists P r.
Proof.
  unfold string_exists. cbn [string_forall].
  now rewrite negb_andb, negb_involutive.
Qed.

Lemma string_exists_app (P : ascii -> bool) (a b : string) :
  string_exists P (a ++ b) = string_exists P a || string_exists P b.
Proof.
  unfold string_exists. rewrite string_forall_app.
  now destruct (string_forall _ a), (string_forall _ b).
Qed.

Lemma lower_of_letter (c : ascii) : is_lower (lower_char c) = is_letter c.
Proof. ascii_cases c. Qed.

Lemma space_not_lower (c : ascii) : is_space c = true -> is_lower c = false.
Proof. ascii_cases c. Qed.

Lemma letters_only_char (c : ascii) :
  is_lower (if is_lower c || is_space c then c else " "%char) = is_lower c.
Proof. ascii_cases c. Qed.

Lemma letters_only_class (c : ascii) :
  (let d := if is_lower c || is_space c then c else " "%char in
   is_lower d || is_space d) = true.
Proof. ascii_cases c. Qed.

Lemma lower_or_blank (c : ascii) :
  (is_lower c || is_space c) && (negb (is_space c) || (c =? " ")%char) = true ->
  is_lower c || (c =? " ")%char = true.
Proof. ascii_cases c. Qed.

Lemma blank_char (c : ascii) :
  is_lower c || (c =? " ")%char = true -> (c =? " ")%char = negb (is_lower c).
Proof. ascii_cases c. Qed.

Lemma exists_lower_toLowerCase (s : string) :
  string_exists is_lower (toLowerCase s) = string_exists is_letter s.
Proof.
  unfold toLowerCase. induction s as [|c s IH]; [reflexivity|].
  cbn [map_chars]. now rewrite !string_exists_cons, IH, lower_of_letter.
Qed.

Lemma exists_lower_trimStart (s : string) :
  string_exists is_lower (trimStart s) = string_exists is_lower s.
Proof.
  induction s as [|c s IH]; [reflexivity|].
  cbn [trimStart]. destruct (is_space c) eqn:E; [|reflexivity].
  now rewrite string_exists_cons, (space_not_lower c E), IH.
Qed.

Lemma exists_lower_trimEnd (s : string) :
  string_exists is_lower (trimEnd s) = string_exists is_lower s.
Proof.
  induction s as [|c s IH]; [reflexivity|].
  cbn [trimEnd]. rewrite string_exists_cons.
  destruct (is_space c && (trimEnd s =? "")) eqn:E.
  - apply andb_true_iff in E. destruct E as [Ec Es].
    apply String.eqb_eq in Es. rewrite Es in IH.
    now rewrite (space_not_lower c Ec), <- IH.
  - now rewrite string_exists_cons, IH.
Qed.

Lemma exists_lower_trim (s : string) :
  string_exists is_lower (trim s) = string_exists is_lower s.
Proof. unfold trim. now rewrite exists_lower_trimEnd, exists_lower_trimStart. Qed.

Lemma cut_at_comma_spec (s pre rest : string) :
  cut_at_comma s = Some (pre, rest) -> s = (pre ++ String "," rest)%string.
Proof.
  revert pre. induction s as [|c s IH]; intros pre H; [discriminate|].
  cbn [cut_at_comma] in H. destruct (Ascii.eqb_spec c ",") as [->|Hc].
  - now inversion H.
  - destruct (cut_at_comma s) as [[p r]|]; [|discriminate].
    inversion H; subst. simpl. f_equal. now apply IH.
Qed.

Lemma exists_lower_swap (s : string) :
  string_exists is_lower (last_first_swap s) = string_exists is_lower s.
Proof.
  unfold last_first_swap.
  destruct (cut_at_comma s) as [[pre rest]|] eqn:E; [|reflexivity].
  destruct (truthy pre && truthy (trimStart rest) && _); [|reflexivity].
  apply cut_at_comma_spec in E. subst s.
  rewrite !string_exists_app, exists_lower_trimStart.
  change (" " ++ pre)%string with (String " " pre).
  rewrite !string_exists_cons.
  change (is_lower " ") with false. change (is_lower ",") with false.
  destruct (string_exists is_lower rest), (string_exists is_lower pre); reflexivity.
Qed.

Lemma exists_lower_letters_only (s : string) :
  string_exists is_lower (letters_only s) = string_exists is_lower s.
Proof.
  unfold letters_only. induction s as [|c s IH]; [reflexivity|].
  cbn [map_chars]. now rewrite !string_exists_cons, IH, letters_only_char.
Qed.

Lemma exists_lower_runs (b : bool) (s : string) :
  string_exists is_lower (replace_runs is_space b s) = string_exists is_lower s.
Proof.
  revert b. induction s as [|c s IH]; intros b; [reflexivity|].
  cbn [replace_runs]. rewrite string_exists_cons.
  destruct (is_space c) eqn:E.
  - rewrite (space_not_lower c E). destruct b; [apply IH|].
    rewrite string_exists_cons. apply IH.
  - now rewrite string_exists_cons, IH.
Qed.

Lemma string_forall_and (P Q : ascii -> bool) (s : string) :
  string_forall P s = true -> string_forall Q s = true ->
  string_forall (fun c => P c && Q c) s = true.
Proof.
  induction s as [|c s IH]; [reflexivity|]. cbn [string_forall].
  intros H1 H2. apply andb_true_iff in H1, H2.
  destruct H1 as [-> H1], H2 as [-> H2]. now rewrite IH.
Qed.

Lemma letters_only_chars (s : string) :
  string_forall (fun c => is_lower c || is_space c) (letters_only s) = true.
Proof.
  unfold letters_only. induction s as [|c s IH]; [reflexivity|].
  cbn [map_chars string_forall]. rewrite IH, andb_true_r.
  apply letters_only_class.
Qed.

Lemma pieces_nil_iff (sep : ascii -> bool) (s : string) :
  pieces sep s = [] <-> string_forall sep s = true.
Proof.
  induction s as [|c s IH]; [split; reflexivity|].
  cbn [string_forall]. destruct (sep c) eqn:E.
  - rewrite (pieces_cons_sep sep c s E). exact IH.
  - unfold pieces. cbn [split_by]. rewrite E.
    destruct (split_by sep s); cbn [filter truthy]; split; discriminate.
Qed.

Lemma blanks_iff_no_lower (s : string) :
  string_forall (fun c => is_lower c || (c =? " ")%char) s = true ->
  (string_forall (fun c => (c =? " ")%char) s = true
   <-> string_exists is_lower s = false).
Proof.
  induction s as [|c s IH]; [intros _; split; reflexivity|].
  cbn [string_forall]. intros H. apply andb_true_iff in H. destruct H as [Hc Hs].
  rewrite string_exists_cons, andb_true_iff, orb_false_iff, (IH Hs).
  now rewrite (blank_char c Hc), negb_true_iff.
Qed.

Lemma pop_generational_nil (l : list string) : pop_generational l = [] -> l = [].
Proof.
  induction l as [|x l IH]; [reflexivity|]. cbn [pop_generational].
  destruct l as [|y l]; [discriminate|].
  destruct (is_generational x); [|discriminate].
  intros H. specialize (IH H). discriminate.
Qed.

Lemma canonName_None_iff (raw : string) :
  canonName raw = None <-> has_letter raw = false.
Proof.
  unfold has_letter, canonName. cbv zeta.
  set (s1 := last_first_swap (trim (toLowerCase raw))).
  set (s2 := trim (replace_runs is_space false (letters_only s1))).
  set (parts := filter truthy (split " " s2)).
  assert (Hchars : string_forall (fun c => is_lower c || (c =? " ")%char) s2 = true).
  { unfold s2, trim. apply trimEnd_forall, trimStart_forall.
    eapply string_forall_impl; [apply lower_or_blank|].
    apply string_forall_and.
    - apply replace_runs_keeps; [reflexivity | apply letters_only_chars].
    - apply replace_runs_forall; [reflexivity|].
      intros c Hc. now rewrite Hc. }
  assert (Hparts : parts = [] <-> string_exists is_letter raw = false).
  { unfold parts. change (filter truthy (split " " s2))
      with (pieces (fun c => (c =? " ")%char) s2).
    rewrite pieces_nil_iff, (blanks_iff_no_lower s2 Hchars).
    unfold s2. rewrite exists_lower_trim, exists_lower_runs, exists_lower_letters_only.
    unfold s1. rewrite exists_lower_swap, exists_lower_trim, exists_lower_toLowerCase.
    reflexivity. }
  rewrite <- Hparts. clearbody parts. clear.
  destruct (List.length parts =? 1)%nat eqn:E1.
  - apply Nat.eqb_eq in E1. split; [discriminate|]. intros ->. discriminate.
  - destruct (rev (pop_generational (rev parts))) as [|f l] eqn:E.
    + split; [intros _ | reflexivity].
      assert (R : rev (rev (pop_generational (rev parts))) = []) by now rewrite E.
      rewrite rev_involutive in R. apply pop_generational_nil in R.
      apply (f_equal (@rev string)) in R. now rewrite rev_involutive in R.
    + split; [discriminate|]. intros ->. discriminate.
Qed.

Lemma foldM_None_iff {A B : Type} (f : A -> B -> option A) (bad : B -> Prop) :
  (forall acc x, f acc x = None <-> bad x) ->
  forall l acc, foldM f l acc = None <-> exists x, In x l /\ bad x.
Proof.
  intros Hf. induction l as [|x l IH]; intros acc; cbn [foldM].
  - split; [discriminate | intros (x & [] & _)].
  - unfold bind. destruct (f acc x) as [a|] eqn:E.
    + rewrite IH. split.
      * intros (y & Hy & Hb). exists y. split; [now right | exact Hb].
      * intros (y & [<- | Hy] & Hb); [|exists y; now split].
        pose proof (proj2 (Hf acc _) Hb) as F. rewrite E in F. discriminate.
    + split; [intros _ | reflexivity]. exists x. split; [now left | now apply (Hf acc)].
Qed.

(** On an ASCII name, [canonName] throws exactly when the name has no
    letter: the empty name, digits, punctuation. *)
Theorem canonName_throws_iff (raw : string) :
  ascii_text raw = true ->
  (canonName raw = None <-> has_letter raw = false).
Proof. intros _. apply canonName_None_iff. Qed.

Lemma canonName_throws_iff_witness :
  canonName "42 !" = None /\ canonName "Lovelace, Ada" <> None.
Proof.
  split.
  - apply (proj2 (canonName_throws_iff "42 !" eq_refl)). reflexivity.
  - intros H. apply (proj1 (canonName_throws_iff "Lovelace, Ada" eq_refl)) in H.
    discriminate.
Defined.

(** On ASCII names and ids, the name-matching path of
    [computeCoauthorGraph] (taken when the authorship table is empty)
    throws exactly when the roster has a name without letter, or a
    selected work with an id lists an author name without letter. *)
Theorem computeCoauthorGraph_fallback_throws (contributingRoster : list RosterRow)
    (selectedPubs : list Pub) :
  (forall r, In r contributingRoster -> ascii_text (Name r) = true) ->
  (forall p, In p selectedPubs ->
             ascii_text (authors p) = true
             /\ ascii_text (p_id p) = true /\ ascii_text (p_work_id p) = true) ->
  computeCoauthorGraph [] contributingRoster selectedPubs = None
  <-> (exists r, In r contributingRoster /\ has_letter (Name r) = false)
      \/ (exists p n, In p selectedPubs
                      /\ workNorm (or_else (p_id p) (p_work_id p)) <> ""
                      /\ In n (splitAuthorsList (authors p))
                      /\ has_letter n = false).
Proof.
  intros _ _.
  unfold computeCoauthorGraph. cbv zeta. cbn [nonempty List.length Nat.eqb negb].
  assert (H1 : forall m, foldM add_canon contributingRoster m = None
                         <-> exists r, In r contributingRoster
                                       /\ has_letter (Name r) = false).
  { intros m. apply foldM_None_iff. intros acc r. unfold add_canon, bind.
    rewrite <- canonName_None_iff.
    destruct (canonName (Name r)); split; congruence. }
  assert (H2 : forall rbc m, foldM (add_pub_by_names rbc) selectedPubs m = None
                 <-> exists p, In p selectedPubs
                       /\ (workNorm (or_else (p_id p) (p_work_id p)) <> ""
                           /\ exists n, In n (splitAuthorsList (authors p))
                                        /\ has_letter n = false)).
  { intros rbc m. apply foldM_None_iff. intros acc p. unfold add_pub_by_names.
    cbv zeta. unfold truthy at 1. rewrite negb_involutive.
    destruct (String.eqb_spec (workNorm (or_else (p_id p) (p_work_id p))) "") as [E|E].
    - split; [discriminate | intros [F _]; contradiction].
    - unfold bind.
      assert (H3 : ids_on_work rbc (splitAuthorsList (authors p)) = None
                   <-> exists n, In n (splitAuthorsList (authors p))
                                 /\ has_letter n = false).
      { unfold ids_on_work. apply foldM_None_iff. intros s n. unfold bind.
        rewrite <- canonName_None_iff.
        destruct (canonName n); [|tauto].
        destruct (JsMap.get rbc s0); split; congruence. }
      destruct (ids_on_work rbc (splitAuthorsList (authors p))) as [s|].
      + split.
        * destruct (2 <=? List.length s)%nat; discriminate.
        * intros [_ H]. apply H3 in H. discriminate.
      + split; [intros _ | reflexivity]. split; [exact E | now apply H3]. }
  unfold bind.
  destruct (foldM add_canon contributingRoster []) as [rbc|] eqn:Ec.
  - destruct (foldM (add_pub_by_names rbc) selectedPubs []) as [bw|] eqn:Eb.
    + split; [discriminate|]. intros [H | (p & n & Hp & Hw & Hn & Hl)].
      * apply (H1 []) in H. congruence.
      * assert (F : foldM (add_pub_by_names rbc) selectedPubs [] = None).
        { apply H2. exists p. split; [exact Hp|]. split; [exact Hw|]. now exists n. }
        congruence.
    + split; [intros _ | reflexivity].
      apply H2 in Eb. destruct Eb as (p & Hp & Hw & n & Hn & Hl).
      right. exists p, n. tauto.
  - split; [intros _ | reflexivity]. left. now apply (H1 []).
Qed.

Lemma computeCoauthorGraph_fallback_throws_witness :
  computeCoauthorGraph [] [mkRoster "A1" "Ada Lovelace"]
                       [mkPubAuthors "W1" "Lovelace, Ada; 42"] = None.
Proof.
  assert (Hr : forall r, In r [mkRoster "A1" "Ada Lovelace"] ->
                         ascii_text (Name r) = true).
  { intros r [<- | []]. reflexivity. }
  assert (Hp : forall p, In p [mkPubAuthors "W1" "Lovelace, Ada; 42"] ->
                         ascii_text (authors p) = true
                         /\ ascii_text (p_id p) = true
                         /\ ascii_text (p_work_id p) = true).
  { intros p [<- | []]. repeat split. }
  apply (proj2 (computeCoauthorGraph_fallback_throws _ _ Hr Hp)).
  right. exists (mkPubAuthors "W1" "Lovelace, Ada; 42"), "42".
  split; [left; reflexivity|]. split; [vm_compute; discriminate|].
  split; [vm_compute; right; left; reflexivity | reflexivity].
Defined.

(* ================================================================== *)
(** * Topic sets of the authors *)
(* ================================================================== *)

Lemma In_fold_sadd (l : list string) (s : JsMap.sset) (x : string) :
  In x (fold_left JsMap.sadd l s) <-> In x s \/ In x l.
Proof.
  revert s. induction l as [|y l IH]; intros s; simpl; [tauto|].
  rewrite IH, In_sadd. intuition congruence.
Qed.

Lemma NoDup_fold_sadd (l : list string) (s : JsMap.sset) :
  NoDup s -> NoDup (fold_left JsMap.sadd l s).
Proof.
  revert s. induction l as [|y l IH]; intros s H; simpl; [exact H|].
  now apply IH, NoDup_sadd.
Qed.

Lemma keys_of_pairs {V : Type} (l : list (string * V)) :
  JsMap.keys (JsMap.of_pairs l) = JsMap.of_list (map fst l).
Proof.
  unfold JsMap.of_pairs, JsMap.of_list.
  change (@nil string) with (JsMap.keys (@nil (string * V))).
  generalize (@nil (string * V)).
  induction l as [|[k v] l IH]; intros m; simpl; [reflexivity|].
  now rewrite IH, keys_set.
Qed.

Lemma has_shas_keys {V : Type} (m : JsMap.t V) (k : string) :
  JsMap.has m k = true -> JsMap.shas (JsMap.keys m) k = true.
Proof.
  unfold JsMap.has. intros H. apply shas_In, get_Some_In_keys.
  destruct (JsMap.get m k) as [v|]; [eauto | discriminate].
Qed.

Lemma add_terms_keys (terms : list string) (m : JsMap.t JsMap.sset) (id : string) :
  JsMap.keys (add_terms terms m id) = JsMap.keys m.
Proof.
  unfold add_terms. destruct (truthy id); simpl; [|reflexivity].
  destruct (JsMap.has m id) eqn:E; simpl; [|reflexivity].
  rewrite keys_set. unfold JsMap.sadd. now rewrite (has_shas_keys m id E).
Qed.

Lemma add_terms_get (terms : list string) (m : JsMap.t JsMap.sset) (id id' : string) :
  JsMap.get (add_terms terms m id) id'
  = if truthy id && JsMap.has m id && (id =? id')
    then Some (fold_left JsMap.sadd terms
                 (match JsMap.get m id with Some s => s | None => [] end))
    else JsMap.get m id'.
Proof.
  unfold add_terms. destruct (truthy id); simpl; [|reflexivity].
  destruct (JsMap.has m id); simpl; [|reflexivity].
  apply get_set.
Qed.

Lemma add_terms_fold (T : list string) (idl : list string) :
  forall (m : JsMap.t JsMap.sset) (id : string) (s : JsMap.sset),
    JsMap.get m id = Some s ->
    exists s', JsMap.get (fold_left (add_terms T) idl m) id = Some s'
               /\ (NoDup s -> NoDup s')
               /\ forall t, In t s' <-> In t s \/ (id <> "" /\ In id idl /\ In t T).
Proof.
  induction idl as [|x idl IH]; intros m id s Hg; cbn [fold_left].
  - exists s. split; [exact Hg|]. split; [auto|]. intros t. simpl. tauto.
  - pose proof (add_terms_get T m x id) as Hx.
    destruct (truthy x && JsMap.has m x && (x =? id)) eqn:E.
    + apply andb_true_iff in E. destruct E as [E Exi].
      apply andb_true_iff in E. destruct E as [Etx _].
      apply String.eqb_eq in Exi. subst x. rewrite Hg in Hx.
      destruct (IH _ id _ Hx) as (s' & Hs' & Hnd & Hin).
      exists s'. split; [exact Hs'|]. split.
      * intros H. now apply Hnd, NoDup_fold_sadd.
      * intros t. rewrite Hin, In_fold_sadd. cbn [In].
        assert (Hne : id <> "").
        { intros ->. discriminate. }
        tauto.
    + rewrite Hg in Hx. destruct (IH _ id _ Hx) as (s' & Hs' & Hnd & Hin).
      exists s'. split; [exact Hs'|]. split; [exact Hnd|].
      intros t. rewrite Hin. cbn [In].
      assert (Hno : x = id -> id = "").
      { intros ->. unfold JsMap.has in E. rewrite Hg, String.eqb_refl in E.
        rewrite andb_true_r, andb_true_r in E. unfold truthy in E.
        apply negb_false_iff, String.eqb_eq in E. exact E. }
      tauto.
Qed.

Lemma topic_pub_keys (m : JsMap.t JsMap.sset) (p : Pub) :
  JsMap.keys (topic_pub m p) = JsMap.keys m.
Proof.
  unfold topic_pub. cbv zeta. destruct (_ =? 0)%nat; [reflexivity|].
  generalize (topic_author_ids p). intros idl. revert m.
  induction idl as [|x idl IH]; intros m; cbn [fold_left]; [reflexivity|].
  now rewrite IH, add_terms_keys.
Qed.

Lemma topic_pub_get (p : Pub) (m : JsMap.t JsMap.sset) (id : string) (s : JsMap.sset) :
  JsMap.get m id = Some s ->
  exists s', JsMap.get (topic_pub m p) id = Some s'
             /\ (NoDup s -> NoDup s')
             /\ forall t, In t s' <-> In t s \/ (id <> "" /\ In id (topic_author_ids p)
                                                 /\ In t (getTerms p)).
Proof.
  intros Hg. unfold topic_pub. cbv zeta.
  destruct (List.length (getTerms p) =? 0)%nat eqn:E.
  - exists s. split; [exact Hg|]. split; [auto|]. intros t.
    apply Nat.eqb_eq in E. destruct (getTerms p); [simpl; tauto | discriminate].
  - now apply add_terms_fold.
Qed.

Lemma topic_pubs_get (pubs : list Pub) :
  forall (m : JsMap.t JsMap.sset) (id : string) (s : JsMap.sset),
    JsMap.get m id = Some s ->
    exists s', JsMap.get (fold_left topic_pub pubs m) id = Some s'
               /\ (NoDup s -> NoDup s')
               /\ forall t, In t s'
                            <-> In t s
                                \/ exists p, In p pubs /\ id <> ""
                                             /\ In id (topic_author_ids p)
                                             /\ In t (getTerms p).
Proof.
  induction pubs as [|p pubs IH]; intros m id s Hg; cbn [fold_left].
  - exists s. split; [exact Hg|]. split; [auto|]. intros t.
    split; [tauto | intros [H | (p & [] & _)]; exact H].
  - destruct (topic_pub_get p m id s Hg) as (s1 & Hs1 & Hnd1 & Hin1).
    destruct (IH _ id s1 Hs1) as (s' & Hs' & Hnd & Hin).
    exists s'. split; [exact Hs'|]. split; [auto|].
    intros t. rewrite Hin, Hin1. split.
    + intros [[H | H] | (q & Hq & H)];
        [now left | right; exists p; split; [now left | exact H]
         | right; exists q; split; [now right | exact H]].
    + intros [H | (q & [<- | Hq] & H)];
        [left; now left | left; now right | right; exists q; now split].
Qed.

Lemma topic_pubs_keys (pubs : list Pub) (m : JsMap.t JsMap.sset) :
  JsMap.keys (fold_left topic_pub pubs m) = JsMap.keys m.
Proof.
  revert m. induction pubs as [|p pubs IH]; intros m; cbn [fold_left]; [reflexivity|].
  now rewrite IH, topic_pub_keys.
Qed.

Lemma NoDup_map_filter {A B : Type} (f : A -> B) (g : A -> bool) (l : list A) :
  NoDup (map f l) -> NoDup (map f (filter g l)).
Proof.
  induction l as [|x l IH]; intros H; [constructor|].
  cbn [map] in H. inversion H as [|? ? Hx Hl]; subst. cbn [filter].
  destruct (g x); [|now apply IH]. cbn [map]. constructor; [|now apply IH].
  intros Hin. apply Hx. apply in_map_iff in Hin. destruct Hin as (y & <- & Hy).
  apply filter_In in Hy. now apply in_map.
Qed.

(** [buildAuthorTopicSets] returns each cohort author once, with a
    duplicate-free set of terms that is not empty; the terms of an author
    are exactly the terms of the selected works that list the author;
    every cohort author with such a term is returned. *)
Theorem buildAuthorTopicSets_sets (roster : list RosterRow) (pubs : list Pub) :
  let out := buildAuthorTopicSets roster pubs in
  NoDup (map fst out)
  /\ (forall id terms, In (id, terms) out ->
        In id (cohortIDs roster) /\ terms <> [] /\ NoDup terms
        /\ forall t, In t terms
                     <-> exists p, In p pubs /\ id <> ""
                                   /\ In id (topic_author_ids p)
                                   /\ In t (getTerms p))
  /\ (forall id p t,
        In id (cohortIDs roster) -> id <> "" -> In p pubs ->
        In id (topic_author_ids p) -> In t (getTerms p) ->
        exists terms, In (id, terms) out /\ In t terms)
  /\ (forall p t, In t (getTerms p) -> 2 <= String.length t).
Proof.
  intros out. unfold out, buildAuthorTopicSets.
  set (M0 := JsMap.of_pairs
               (map (fun r => (strip_author_url (OpenAlexID r), @nil string)) roster)).
  set (MF := fold_left topic_pub pubs M0).
  assert (HK0 : JsMap.keys M0 = cohortIDs roster).
  { unfold M0, cohortIDs. rewrite keys_of_pairs, map_map. reflexivity. }
  assert (HK : JsMap.keys MF = cohortIDs roster).
  { unfold MF. now rewrite topic_pubs_keys. }
  assert (Hnd : NoDup (JsMap.keys MF)).
  { rewrite HK. apply NoDup_of_list. }
  assert (H0 : forall id, In id (cohortIDs roster) -> JsMap.get M0 id = Some []).
  { intros id Hid. rewrite <- HK0 in Hid. apply get_Some_In_keys in Hid.
    destruct Hid as (s & Hs). rewrite Hs. f_equal.
    apply get_of_pairs_In, in_map_iff in Hs. destruct Hs as (r & E & _).
    now inversion E. }
  assert (HF : forall id, In id (cohortIDs roster) ->
                 exists s', JsMap.get MF id = Some s' /\ NoDup s'
                            /\ forall t, In t s'
                                 <-> exists p, In p pubs /\ id <> ""
                                               /\ In id (topic_author_ids p)
                                               /\ In t (getTerms p)).
  { intros id Hid.
    destruct (topic_pubs_get pubs M0 id [] (H0 id Hid)) as (s' & Hs' & Hn & Hin).
    exists s'. split; [exact Hs'|]. split; [apply Hn; constructor|].
    intros t. rewrite Hin. simpl. tauto. }
  split; [apply NoDup_map_filter; exact Hnd|]. split; [|split].
  - intros id terms Hin. apply filter_In in Hin. destruct Hin as [Hin Hne].
    assert (Hid : In id (cohortIDs roster)).
    { rewrite <- HK. change id with (fst (id, terms)). now apply in_map. }
    destruct (HF id Hid) as (s' & Hs' & Hn & Ht).
    rewrite (get_of_entry MF id terms Hnd Hin) in Hs'. inversion Hs'; subst s'.
    split; [exact Hid|]. split; [|split; assumption].
    intros ->. discriminate.
  - intros id p t Hid Hne Hp Hidp Ht.
    destruct (HF id Hid) as (s' & Hs' & Hn & Hts).
    assert (Hin : In t s') by (apply Hts; exists p; tauto).
    exists s'. split; [|exact Hin].
    apply filter_In. split; [now apply get_In|].
    cbn [snd]. destruct s'; [contradiction | reflexivity].
  - intros p t Ht. unfold getTerms in Ht. cbv zeta in Ht.
    apply filter_In in Ht. destruct Ht as [_ Ht]. apply Nat.ltb_lt in Ht. lia.
Qed.

(* ================================================================== *)
(** * Word cloud list *)
(* ================================================================== *)

Lemma insert_entry_perm (x : string * nat) (l : list (string * nat)) :
  Permutation (insert_entry x l) (x :: l).
Proof.
  induction l as [|y l IH]; simpl; [reflexivity|].
  destruct (snd y <=? snd x)%nat; [reflexivity|].
  rewrite IH. apply perm_swap.
Qed.

Lemma sort_entries_perm (l : list (string * nat)) : Permutation (sort_entries l) l.
Proof.
  induction l as [|x l IH]; simpl; [reflexivity|].
  rewrite insert_entry_perm. now constructor.
Qed.

Lemma insert_entry_sorted (x : string * nat) (l : list (string * nat)) :
  StronglySorted weight_ge l -> StronglySorted weight_ge (insert_entry x l).
Proof.
  induction 1 as [|y l Hs IH Hall]; simpl; [repeat constructor|].
  destruct (Nat.leb_spec (snd y) (snd x)) as [Hle|Hgt].
  - constructor; [constructor; assumption|].
    constructor; [exact Hle|].
    eapply Forall_impl; [|exact Hall]. unfold weight_ge. intros z Hz. lia.
  - constructor; [exact IH|].
    eapply Permutation_Forall; [symmetry; apply insert_entry_perm|].
    constructor; [unfold weight_ge; lia | exact Hall].
Qed.

Lemma sort_entries_sorted (l : list (string * nat)) :
  StronglySorted weight_ge (sort_entries l).
Proof.
  induction l as [|x l IH]; simpl; [constructor | now apply insert_entry_sorted].
Qed.

Lemma In_kept {A : Type} (k : nat) (l : list A) (x : A) :
  In x (firstn k l) -> In x l.
Proof.
  intros H. rewrite <- (firstn_skipn k l). apply in_or_app. now left.
Qed.

Lemma In_dropped {A : Type} (k : nat) (l : list A) (x : A) :
  In x (skipn k l) -> In x l.
Proof.
  intros H. rewrite <- (firstn_skipn k l). apply in_or_app. now right.
Qed.

(** In a sorted list every kept entry is in relation with every dropped
    one. *)
Lemma sorted_kept_dropped {A : Type} (R : A -> A -> Prop) (k : nat) (l : list A) :
  StronglySorted R l ->
  forall x y, In x (firstn k l) -> In y (skipn k l) -> R x y.
Proof.
  intros Hs. revert k. induction Hs as [|a l Hs IH Hall]; intros k x y Hx Hy.
  - destruct k; contradiction.
  - destruct k as [|k]; [contradiction|]. cbn [firstn skipn] in Hx, Hy.
    destruct Hx as [<- | Hx].
    + apply (proj1 (Forall_forall _ _) Hall). eapply In_dropped; exact Hy.
    + eapply IH; eauto.
Qed.

Lemma wc_counts_spec (pubs : list Pub) (source : string) :
  wc_collectTermsBySource pubs source
  = fold_left bump (flat_map (wc_uniq source) pubs) [].
Proof.
  unfold wc_collectTermsBySource. generalize (@nil (string * nat)).
  induction pubs as [|p pubs IH]; intros m; [reflexivity|].
  cbn [fold_left flat_map]. now rewrite fold_left_app, IH.
Qed.

Lemma wc_count_occ (pubs : list Pub) (source t : string) :
  count_occ string_dec (flat_map (wc_uniq source) pubs) t
  = document_frequency pubs source t.
Proof.
  unfold document_frequency. apply count_occ_flat_map.
  intros p _. apply NoDup_of_list.
Qed.

(** The list of the word cloud: at most 100 terms, each once, by
    descending weight; the weight of a term is its document frequency, the
    number of publications that carry it, a publication counting once;
    a term is left out only when the list is full and no kept term
    weighs less. *)
Theorem wc_buildList_document_frequency (pubs : list Pub) (source : string)
    (limit : nat) :
  let out := wc_buildList pubs source limit in
  List.length out <= wc_limit limit /\ 5 <= wc_limit limit <= 100
  /\ NoDup (map fst out)
  /\ StronglySorted weight_ge out
  /\ (forall t n, In (t, n) out ->
                  n = document_frequency pubs source t /\ 1 <= n)
  /\ (forall t, 1 <= document_frequency pubs source t ->
                In (t, document_frequency pubs source t) out
                \/ (List.length out = wc_limit limit
                    /\ forall e, In e out ->
                                 document_frequency pubs source t <= snd e)).
Proof.
  intros out. unfold out, wc_buildList. rewrite wc_counts_spec.
  set (L := flat_map (wc_uniq source) pubs).
  set (counts := fold_left bump L []).
  set (k := wc_limit limit).
  assert (Hperm : Permutation (sort_entries counts) counts) by apply sort_entries_perm.
  assert (Hsorted : StronglySorted weight_ge (sort_entries counts))
    by apply sort_entries_sorted.
  assert (Hkeys : NoDup (JsMap.keys counts)).
  { unfold counts. rewrite keys_tally. apply NoDup_of_list. }
  assert (Hent : forall t n, In (t, n) counts ->
                             n = document_frequency pubs source t /\ 1 <= n).
  { intros t n Hin. destruct (tally_entries L t n Hin) as [Hn Ht].
    rewrite <- (wc_count_occ pubs source t). fold L. split; [exact Hn|].
    apply (count_occ_In string_dec) in Ht. lia. }
  split; [apply firstn_le_length|].
  split; [unfold k, wc_limit; lia|]. split; [|split; [|split]].
  - assert (Hnd : NoDup (map fst (sort_entries counts))).
    { eapply Permutation_NoDup; [apply Permutation_map; symmetry; exact Hperm|].
      exact Hkeys. }
    rewrite <- (firstn_skipn k (sort_entries counts)), map_app in Hnd.
    now apply NoDup_app_remove_r in Hnd.
  - rewrite <- (firstn_skipn k (sort_entries counts)) in Hsorted.
    clear - Hsorted. induction (firstn k (sort_entries counts)) as [|x l IH];
      [constructor|].
    cbn [app] in Hsorted. inversion Hsorted as [|? ? Hs Hall]; subst.
    constructor; [now apply IH|].
    apply Forall_app in Hall. tauto.
  - intros t n Hin. apply Hent.
    eapply Permutation_in; [exact Hperm|]. eapply In_kept; exact Hin.
  - intros t Ht.
    assert (Hin : In (t, document_frequency pubs source t) counts).
    { rewrite <- (wc_count_occ pubs source t) in Ht. fold L in Ht.
      assert (HtL : In t L).
      { apply (count_occ_In string_dec). lia. }
      assert (Hk : In t (JsMap.keys counts)).
      { unfold counts. rewrite keys_tally. apply (proj2 (In_of_list L t)). exact HtL. }
      apply in_map_iff in Hk. destruct Hk as ([t' n] & E & Hin). simpl in E. subst t'.
      destruct (Hent t n Hin) as [-> _]. exact Hin. }
    apply (Permutation_in _ (Permutation_sym Hperm)) in Hin.
    rewrite <- (firstn_skipn k (sort_entries counts)) in Hin.
    apply in_app_or in Hin. destruct Hin as [Hin | Hin]; [now left|]. right.
    split.
    + apply firstn_length_le.
      destruct (Nat.le_gt_cases k (List.length (sort_entries counts))) as [H|H];
        [exact H|].
      rewrite skipn_all2 in Hin by lia. contradiction.
    + intros e He.
      apply (sorted_kept_dropped weight_ge k (sort_entries counts) Hsorted e _ He Hin).
Qed.

(* ================================================================== *)
(** * Partner institutions: the totals over the selection *)
(* ================================================================== *)

Lemma keys_credit_all (a : Authorships) (s : list string) (tally : JsMap.t PartnerRec) :
  JsMap.keys (fold_left (credit_ror a) s tally) = fold_left JsMap.sadd s (JsMap.keys tally).
Proof.
  revert tally. induction s as [|r s IH]; intros tally; cbn [fold_left]; [reflexivity|].
  rewrite IH. unfold credit_ror. now rewrite keys_set.
Qed.

Lemma creditedThisCohort_no_ids (cohort : JsMap.sset) (homeROR : string)
    (a : Authorships) :
  List.length (ids a) = 0 -> creditedThisCohort cohort homeROR a = [].
Proof. unfold creditedThisCohort. intros ->. reflexivity. Qed.

(** One publication: the count of each credited institution rises by one,
    the counter of crediting papers rises when something is credited, and
    the only new keys are the credited institutions. *)
Lemma credit_paper_step (cohort : JsMap.sset) (homeROR : string)
    (st : JsMap.t PartnerRec * nat) (p : Pub) :
  let c := creditedThisCohort cohort homeROR (parseAuthorships p) in
  let st' := credit_paper cohort homeROR st p in
  (forall r, credits_of (fst st') r
             = credits_of (fst st) r + (if in_dec string_dec r c then 1 else 0))
  /\ snd st' = snd st + (if nonempty c then 1 else 0)
  /\ JsMap.keys (fst st') = fold_left JsMap.sadd c (JsMap.keys (fst st)).
Proof.
  intros c st'. unfold st', credit_paper. cbv zeta. fold c.
  destruct (List.length (ids (parseAuthorships p)) =? 0)%nat eqn:E0.
  - apply Nat.eqb_eq in E0.
    assert (Hc : c = []) by now apply creditedThisCohort_no_ids.
    rewrite Hc. cbn. repeat split; lia.
  - destruct (nonempty c) eqn:En.
    + cbn [fst snd]. split; [|split; [reflexivity | apply keys_credit_all]].
      intros r. apply credits_of_credit_all, NoDup_creditedThisCohort.
    + assert (Hc : c = []).
      { unfold nonempty in En. destruct c; [reflexivity | discriminate]. }
      rewrite Hc. cbn. repeat split; lia.
Qed.

Lemma partner_tally_fold (cohort : JsMap.sset) (homeROR : string) (pubs : list Pub) :
  forall st : JsMap.t PartnerRec * nat,
    (forall r, credits_of (fst (fold_left (credit_paper cohort homeROR) pubs st)) r
               = credits_of (fst st) r
                 + List.length
                     (filter (fun p => if in_dec string_dec r
                                            (creditedThisCohort cohort homeROR
                                               (parseAuthorships p))
                                       then true else false) pubs))
    /\ snd (fold_left (credit_paper cohort homeROR) pubs st)
       = snd st
         + List.length
             (filter (fun p => nonempty (creditedThisCohort cohort homeROR
                                           (parseAuthorships p))) pubs)
    /\ JsMap.keys (fst (fold_left (credit_paper cohort homeROR) pubs st))
       = fold_left JsMap.sadd
           (flat_map (fun p => creditedThisCohort cohort homeROR (parseAuthorships p))
              pubs)
           (JsMap.keys (fst st)).
Proof.
  induction pubs as [|p pubs IH]; intros st.
  - cbn. repeat split; lia.
  - cbn [fold_left].
    destruct (credit_paper_step cohort homeROR st p) as (H1 & H2 & H3).
    cbv zeta in H1, H2, H3.
    destruct (IH (credit_paper cohort homeROR st p)) as (I1 & I2 & I3).
    split; [|split].
    + intros r. rewrite I1, H1. cbn [filter].
      destruct (in_dec string_dec r
                  (creditedThisCohort cohort homeROR (parseAuthorships p)));
        cbn [List.length]; lia.
    + rewrite I2, H2. cbn [filter].
      destruct (nonempty (creditedThisCohort cohort homeROR (parseAuthorships p)));
        cbn [List.length]; lia.
    + rewrite I3, H3. cbn [flat_map]. now rewrite fold_left_app.
Qed.

(** The totals of the partner panel over the selection: the count of an
    institution is the number of selected publications that credit it,
    the paper counter is the number of publications that credit at least
    one institution; no key of the tally is empty or the home
    institution, so the later filter on the home institution removes
    nothing; every row of the ranking has a name and a count of at least
    one. *)
Theorem partner_tally_totals (roster : list RosterRow) (homeROR : string)
    (pubs : list Pub) :
  let cohort := cohortIDs roster in
  let credited := fun p => creditedThisCohort cohort homeROR (parseAuthorships p) in
  let st := partner_tally cohort homeROR pubs in
  (forall ror, credits_of (fst st) ror
               = List.length (filter (fun p => if in_dec string_dec ror (credited p)
                                               then true else false) pubs))
  /\ snd st = List.length (filter (fun p => nonempty (credited p)) pubs)
  /\ (forall ror, In ror (JsMap.keys (fst st)) ->
                  ror <> "" /\ (homeROR = "" \/ ror <> homeROR)
                  /\ 1 <= credits_of (fst st) ror)
  /\ filter (not_home homeROR) (fst st) = fst st
  /\ (forall r, In r (partner_ranking homeROR (fst st)) ->
                row_name r <> "" /\ row_n r = credits_of (fst st) (row_ror r)
                /\ 1 <= row_n r).
Proof.
  intros cohort credited st.
  destruct (partner_tally_fold cohort homeROR pubs ([], 0)) as (H1 & H2 & H3).
  fold (partner_tally cohort homeROR pubs) in H1, H2, H3.
  fold st in H1, H2, H3. cbn [fst snd] in H1, H2, H3.
  change (fun p => creditedThisCohort cohort homeROR (parseAuthorships p))
    with credited in H3.
  change (JsMap.keys []) with (@nil string) in H3.
  assert (Hnd : NoDup (JsMap.keys (fst st))).
  { rewrite H3. apply NoDup_fold_sadd. constructor. }
  assert (Hkey : forall ror, In ror (JsMap.keys (fst st)) ->
                   exists p, In p pubs /\ In ror (credited p)).
  { intros ror Hin. rewrite H3 in Hin. apply In_fold_sadd in Hin.
    destruct Hin as [[] | Hin]. apply in_flat_map in Hin. exact Hin. }
  assert (Hk : forall ror, In ror (JsMap.keys (fst st)) ->
                 ror <> "" /\ (homeROR = "" \/ ror <> homeROR)
                 /\ 1 <= credits_of (fst st) ror).
  { intros ror Hin. destruct (Hkey ror Hin) as (p & Hp & Hc).
    pose proof Hc as Hr. apply In_creditedThisCohort in Hr.
    destruct Hr as (i & j & _ & _ & _ & _ & _ & Hne & _ & Hhome).
    split; [exact Hne|]. split.
    - destruct (string_dec homeROR "") as [E|E]; [now left | right].
      intros F. apply Hhome. now split.
    - rewrite H1.
      assert (Hf : In p (filter (fun p => if in_dec string_dec ror (credited p)
                                          then true else false) pubs)).
      { apply filter_In. split; [exact Hp|].
        destruct (in_dec string_dec ror (credited p)); [reflexivity | contradiction]. }
      assert (Hlen : forall (l : list Pub) q, In q l -> 1 <= List.length l).
      { intros [|q0 l] q Hq; [contradiction | cbn; lia]. }
      etransitivity; [exact (Hlen _ _ Hf) | apply Nat.le_add_l]. }
  assert (Hfilter : filter (not_home homeROR) (fst st) = fst st).
  { apply forallb_filter_id, forallb_forall. intros [ror rec] Hin.
    assert (Hror : In ror (JsMap.keys (fst st))).
    { change ror with (fst (ror, rec)). now apply in_map. }
    destruct (Hk ror Hror) as (_ & [E | E] & _); unfold not_home; cbn [fst].
    - rewrite E. reflexivity.
    - apply String.eqb_neq in E. rewrite E. now rewrite orb_true_r. }
  split; [intros ror; rewrite H1; reflexivity|]. split; [rewrite H2; reflexivity|].
  split; [exact Hk|]. split; [exact Hfilter|].
  intros r Hr. unfold partner_ranking in Hr. rewrite Hfilter in Hr.
  apply (Permutation_in _ (sort_rows_perm _)) in Hr.
  apply in_map_iff in Hr. destruct Hr as ([ror rec] & <- & Hin).
  assert (Hror : In ror (JsMap.keys (fst st))).
  { change ror with (fst (ror, rec)). now apply in_map. }
  destruct (Hk ror Hror) as (Hne & _ & Hone).
  assert (Hn : credits_of (fst st) ror = rec_n rec).
  { unfold credits_of. now rewrite (get_of_entry _ _ _ Hnd Hin). }
  unfold row_of_entry. cbn [row_name row_n row_ror fst snd]. split; [|split; lia].
  unfold truthy. destruct (String.eqb_spec (rec_name rec) ""); cbn [negb]; assumption.
Qed.

(* ================================================================== *)
(** * Co-authorship graph: no loops, no empty edges *)
(* ================================================================== *)

Lemma In_set_key {V : Type} (m : JsMap.t V) (k0 : string) (v0 : V) (k : string) (v : V) :
  In (k, v) (JsMap.set m k0 v0) -> In (k, v) m \/ (k = k0 /\ v = v0).
Proof.
  induction m as [|[k1 v1] m IH]; simpl.
  - intros [E | []]. inversion E. now right.
  - destruct (String.eqb_spec k1 k0) as [-> | Hne]; simpl.
    + intros [E | H]; [inversion E; now right | left; now right].
    + intros [E | H]; [left; now left|].
      destruct (IH H) as [H' | H']; [left; now right | now right].
Qed.

Lemma pairs_of_distinct (l : list string) (a b : string) :
  NoDup l -> In (a, b) (pairs_of l) -> a <> b.
Proof.
  induction l as [|x l IH]; simpl; [contradiction|].
  intros Hnd H. inversion Hnd as [|? ? Hx Hl]; subst.
  apply in_app_or in H. destruct H as [H | H].
  - apply in_map_iff in H. destruct H as (y & E & Hy). inversion E; subst.
    intros ->. contradiction.
  - now apply IH.
Qed.

Section PairInvariant.
Variable P : string -> string -> Prop.

Lemma add_work_entries (widToPub : JsMap.t Pub) (w : string * JsMap.sset)
    (st : JsMap.t nat * JsMap.t (list (option Pub))) :
  (forall ab, In ab (pairs_of (sort_strings (snd w))) -> P (fst ab) (snd ab)) ->
  entries_ok P (fst st) -> entries_ok P (fst (add_work widToPub st w)).
Proof.
  unfold add_work.
  revert st. induction (pairs_of (sort_strings (snd w))) as [|ab l IH];
    intros st Hp Hst; cbn [fold_left]; [assumption|].
  apply IH; [intros ab' H; apply Hp; now right|].
  unfold add_pair. cbn [fst]. intros key n Hin.
  unfold bump in Hin. apply In_set_key in Hin. destruct Hin as [Hin | [-> ->]].
  - now apply Hst.
  - split; [|lia]. destruct ab as [a b]. exists a, b. split; [reflexivity|].
    apply (Hp (a, b)). now left.
Qed.

Lemma pair_loop_entries (widToPub : JsMap.t Pub) (byWork : JsMap.t JsMap.sset)
    (st : JsMap.t nat * JsMap.t (list (option Pub))) :
  (forall w, In w byWork ->
     forall ab, In ab (pairs_of (sort_strings (snd w))) -> P (fst ab) (snd ab)) ->
  entries_ok P (fst st) ->
  entries_ok P (fst (fold_left (add_work widToPub) byWork st)).
Proof.
  revert st. induction byWork as [|w byWork IH]; intros st Hw Hst; cbn [fold_left].
  - assumption.
  - apply IH; [intros w' H; apply Hw; now right|].
    apply add_work_entries; [apply Hw; now left | assumption].
Qed.

Lemma buildGraph_edge_entries (levelOf : JsMap.t string) (byWork : JsMap.t JsMap.sset)
    (nameOf : JsMap.t string) (selectedPubs : list Pub) (e : Edge) :
  (forall a b, P a b -> pipe_free a = true /\ pipe_free b = true) ->
  (forall w, In w byWork ->
     forall ab, In ab (pairs_of (sort_strings (snd w))) -> P (fst ab) (snd ab)) ->
  In e (edges (buildGraphFromPairs levelOf byWork nameOf selectedPubs)) ->
  P (e_a e) (e_b e) /\ 1 <= e_count e.
Proof.
  intros Hfree Hw. unfold buildGraphFromPairs.
  assert (H0 : entries_ok P (fst (@pair (JsMap.t nat) (JsMap.t (list (option Pub))) [] [])))
    by (intros ? ? []).
  pose proof (pair_loop_entries (widToPub_of selectedPubs) byWork ([], []) Hw H0) as Hk.
  destruct (fold_left (add_work (widToPub_of selectedPubs)) byWork ([], []))
    as [pairCounts pairPubs].
  cbn [fst] in Hk. simpl edges. intros He.
  apply in_flat_map in He. destruct He as ([key n] & Hin & He).
  destruct (Hk key n Hin) as ((a & b & -> & Hab) & Hn).
  destruct (Hfree a b Hab) as [Ha Hb].
  pose proof (key_ends_pair a b Ha Hb) as Hends.
  unfold key_ends in Hends.
  pose proof (f_equal fst Hends) as E0. pose proof (f_equal snd Hends) as E1.
  cbn [fst snd] in E0, E1.
  change (fst (pair_key (a, b), n)) with (pair_key (a, b)) in He.
  rewrite E0, E1 in He.
  destruct (negb _ || negb _); [contradiction|].
  destruct He as [<- | []]. simpl. now split.
Qed.

End PairInvariant.

(** The author sets of the works hold no author twice, on both paths. *)
Lemma add_authorship_nodup (selectedWorkIDs : JsMap.sset) (nameOf : JsMap.t string)
    (rows : list AuthorshipRow) (byWork : JsMap.t JsMap.sset) :
  (forall wid s, In (wid, s) byWork -> NoDup s) ->
  forall wid s,
    In (wid, s) (fold_left (add_authorship selectedWorkIDs nameOf) rows byWork) ->
    NoDup s.
Proof.
  revert byWork. induction rows as [|row rows IH]; intros byWork Hw; cbn [fold_left].
  - assumption.
  - apply IH. unfold add_authorship.
    destruct (negb (JsMap.shas _ _)); [assumption|].
    destruct (JsMap.has nameOf _) eqn:Eh; simpl; [|assumption].
    intros wid s Hin. apply In_set in Hin. destruct Hin as [Hin | ->].
    + now apply (Hw wid s).
    + apply NoDup_sadd.
      destruct (JsMap.get byWork _) as [s0|] eqn:Eg; [|constructor].
      apply get_In in Eg. now apply (Hw _ _ Eg).
Qed.

Lemma ids_on_work_nodup (rosterByCanon : JsMap.t (list string)) (names : list string) :
  forall s s', NoDup s ->
    foldM (fun s n =>
             bind (canonName n)
                  (fun cn => match JsMap.get rosterByCanon cn with
                             | Some hits => Some (fold_left JsMap.sadd hits s)
                             | None => Some s
                             end)) names s = Some s' ->
    NoDup s'.
Proof.
  induction names as [|n names IH]; intros s s' Hs H; simpl in H.
  - inversion H. now subst.
  - unfold bind in H at 1.
    destruct (bind (canonName n) _) as [s1|] eqn:E1; [|discriminate].
    apply (IH s1 s'); [|assumption].
    unfold bind in E1. destruct (canonName n) as [cn|]; [|discriminate].
    destruct (JsMap.get rosterByCanon cn) as [hits|] eqn:Eg.
    + inversion E1; subst s1. now apply NoDup_fold_sadd.
    + inversion E1; now subst.
Qed.

Lemma add_pub_by_names_nodup (rosterByCanon : JsMap.t (list string))
    (pubs : list Pub) :
  forall byWork byWork',
    (forall wid s, In (wid, s) byWork -> NoDup s) ->
    foldM (add_pub_by_names rosterByCanon) pubs byWork = Some byWork' ->
    forall wid s, In (wid, s) byWork' -> NoDup s.
Proof.
  induction pubs as [|p pubs IH]; intros byWork byWork' Hw H; simpl in H.
  - inversion H. now subst.
  - unfold bind in H at 1.
    destruct (add_pub_by_names rosterByCanon byWork p) as [b1|] eqn:E1; [|discriminate].
    apply (IH b1 byWork'); [|assumption].
    unfold add_pub_by_names in E1.
    destruct (negb (truthy _)); [inversion E1; now subst|].
    unfold bind in E1.
    destruct (ids_on_work rosterByCanon _) as [s|] eqn:Es; [|discriminate].
    destruct (2 <=? List.length s)%nat; inversion E1; subst b1; [|assumption].
    intros wid s' Hin. apply In_set in Hin. destruct Hin as [Hin | ->].
    + now apply (Hw wid s').
    + eapply (ids_on_work_nodup rosterByCanon _ [] s); [constructor | exact Es].
Qed.

(** When no id of the contributing roster contains the character "|",
    the graph builder produces no loop and no empty edge, on both paths:
    the two endpoints of an edge are different ids of the roster, and its
    count is at least one. *)
Theorem coauthor_edges_no_loop (authorshipData : list AuthorshipRow)
    (contributingRoster : list RosterRow) (selectedPubs : list Pub)
    (g : Graph) (e : Edge) :
  (forall id, In id (roster_ids contributingRoster) -> pipe_free id = true) ->
  computeCoauthorGraph authorshipData contributingRoster selectedPubs = Some g ->
  In e (edges g) ->
  e_a e <> e_b e /\ 1 <= e_count e.
Proof.
  intros Hfree Hg He.
  set (ids := roster_ids contributingRoster) in *.
  set (P := fun a b : string => In a ids /\ In b ids /\ a <> b).
  assert (HP : forall a b, P a b -> pipe_free a = true /\ pipe_free b = true).
  { intros a b (Ha & Hb & _). split; now apply Hfree. }
  assert (Hsets : forall byWork : JsMap.t JsMap.sset,
             sets_within ids byWork ->
             (forall wid s, In (wid, s) byWork -> NoDup s) ->
             forall w, In w byWork ->
               forall ab, In ab (pairs_of (sort_strings (snd w))) ->
                          P (fst ab) (snd ab)).
  { intros byWork Hin Hnd [wid s] Hw [a b] Hab. cbn [fst snd] in *.
    pose proof (In_pairs_of _ _ _ Hab) as [Ha Hb].
    split; [|split].
    - apply (Hin wid s Hw), In_sort_strings, Ha.
    - apply (Hin wid s Hw), In_sort_strings, Hb.
    - apply (pairs_of_distinct (sort_strings s)); [|exact Hab].
      apply (Permutation_NoDup (Permutation_sym (sort_strings_perm s))).
      apply (Hnd wid s Hw). }
  assert (Hedge : forall levelOf byWork nameOf,
             sets_within ids byWork ->
             (forall wid s, In (wid, s) byWork -> NoDup s) ->
             In e (edges (buildGraphFromPairs levelOf byWork nameOf selectedPubs)) ->
             e_a e <> e_b e /\ 1 <= e_count e).
  { intros levelOf byWork nameOf Hin Hnd Hedge.
    destruct (buildGraph_edge_entries P levelOf byWork nameOf selectedPubs e HP
                (Hsets byWork Hin Hnd) Hedge) as ((_ & _ & Hne) & Hn).
    now split. }
  unfold computeCoauthorGraph in Hg.
  destruct (nonempty authorshipData).
  - inversion Hg; subst g. clear Hg.
    eapply Hedge; [| | exact He].
    + apply add_authorship_within; [|intros ? ? H0; destruct H0].
      intros k Hk. unfold JsMap.has in Hk.
      destruct (JsMap.get _ k) as [v|] eqn:Eg; [|discriminate].
      apply get_of_pairs_In, in_map_iff in Eg. destruct Eg as (r & Er & Hr).
      inversion Er; subst. unfold ids, roster_ids.
      apply (in_map (fun r => idNorm (OpenAlexID r))), Hr.
    + apply add_authorship_nodup. intros ? ? [].
  - unfold bind in Hg.
    destruct (foldM add_canon contributingRoster []) as [rosterByCanon|] eqn:Ec;
      [|discriminate].
    destruct (foldM (add_pub_by_names rosterByCanon) selectedPubs [])
      as [byWork|] eqn:Eb; [|discriminate].
    inversion Hg; subst g. clear Hg.
    eapply Hedge; [| | exact He].
    + assert (Hcanon : forall k l, In (k, l) rosterByCanon ->
                                   forall x, In x l -> In x ids).
      { apply (add_canon_within ids contributingRoster) with (m := []);
          [| intros ? ? H0; destruct H0 | exact Ec].
        intros r Hr. unfold ids, roster_ids.
        apply (in_map (fun r => idNorm (OpenAlexID r))), Hr. }
      apply (add_pub_by_names_within ids rosterByCanon selectedPubs Hcanon [] byWork);
        [intros ? ? H0; destruct H0 | exact Eb].
    + apply (add_pub_by_names_nodup rosterByCanon selectedPubs [] byWork);
        [intros ? ? [] | exact Eb].
Qed.

(** The property on a concrete selection, authorship-table path: works W1
    (A1, A2) and W2 (A1 alone) selected, W3 not selected. *)
Lemma coauthor_edges_no_loop_witness :
  let rows := [mkAuthorship "https://openalex.org/W1" "A1";
               mkAuthorship "W1" "https://openalex.org/A2";
               mkAuthorship "W2" "A1";
               mkAuthorship "W3" "A1"; mkAuthorship "W3" "A2"] in
  let roster := [mkRoster "A1" "Ada"; mkRoster "A2" "Bob"] in
  let pubs := [mkPubAuthors "W1" ""; mkPubAuthors "W2" ""] in
  exists g e,
    computeCoauthorGraph rows roster pubs = Some g
    /\ edges g = [e]
    /\ e_a e <> e_b e /\ 1 <= e_count e.
Proof.
  intros rows roster pubs.
  eexists. eexists.
  split; [vm_compute; reflexivity|].
  split; [reflexivity|].
  eapply (coauthor_edges_no_loop rows roster pubs).
  - intros id [<- | [<- | []]]; reflexivity.
  - vm_compute. reflexivity.
  - left. reflexivity.
Defined.
